(** * Permutations in cycle notation and the groups they generate

    A shallow embedding of [permutations.py]: the class [Perm] (elements of
    the symmetric group written as products of cycles of single digits), the
    closure computation [generate_group] and the sign function [sgn].

    Python integers are [Z], Python strings are lists of characters (bytes,
    so the text is ASCII), Python lists are lists.  Exceptions and loops that
    might not stop are explicit: every function whose Python body can raise
    or loop returns a [res], and every [while] loop and every recursive call
    takes a [fuel] that bounds its iterations.  The limits of the interpreter
    (recursion depth, memory) are not modelled: a computation "returns" when
    it does so for every large enough fuel. *)

From Stdlib Require Import ZArith List Ascii Bool Arith Lia.
From Stdlib Require Import Permutation Sorted.
From Stdlib Require String DecimalString.
From mathcomp Require ssreflect ssrfun ssrbool eqtype ssrnat seq choice fintype.
From mathcomp Require finset fingroup perm.
Import ListNotations String.StringSyntax.
Open Scope Z_scope.
Open Scope string_scope.

(** ** Results of Python computations *)

(** What a [ValueError] complains about. *)
Inductive value_error : Type :=
| invalid_literal   (* int() of something that is not a number *)
| empty_sequence    (* max() or min() of an empty list *)
| not_in_list.      (* list.index() of an absent element *)

Inductive exn : Type :=
| ValueError (why : value_error)
| IndexError
| TypeError.

(** [Timeout] is "the loop was still running when the fuel ran out". *)
Inductive res (A : Type) : Type :=
| Ok (a : A)
| Raise (e : exn)
| Timeout.
Arguments Ok {A} a.
Arguments Raise {A} e.
Arguments Timeout {A}.

Definition bind {A B : Type} (c : res A) (k : A -> res B) : res B :=
  match c with
  | Ok a => k a
  | Raise e => Raise e
  | Timeout => Timeout
  end.

Notation "x <- c ;; k" := (bind c (fun x => k))
  (at level 61, c at next level, right associativity).

Fixpoint mapM {A B : Type} (f : A -> res B) (l : list A) : res (list B) :=
  match l with
  | [] => Ok []
  | a :: l' => b <- f a ;; bs <- mapM f l' ;; Ok (b :: bs)
  end.

(** ** Python strings *)

Definition py (s : String.string) : list ascii := String.list_ascii_of_string s.

Definition is_digit (c : ascii) : bool :=
  ((48 <=? N_of_ascii c) && (N_of_ascii c <=? 57))%N.

(** [int(j)] for a one-character string [j]. *)
Definition int_char (j : ascii) : res Z :=
  if is_digit j then Ok (Z.of_N (N_of_ascii j) - 48)
  else Raise (ValueError invalid_literal).

(** [str(i)] for an integer [i]. *)
Definition str (i : Z) : list ascii :=
  String.list_ascii_of_string (DecimalString.NilZero.string_of_int (Z.to_int i)).

(** [int(s)] for a string [s] that holds decimal digits only (all that
    [__hash__] ever passes). *)
Definition int_str (s : list ascii) : res Z :=
  match s with
  | [] => Raise (ValueError invalid_literal)
  | _ => ds <- mapM int_char s ;; Ok (fold_left (fun acc d => 10 * acc + d) ds 0)
  end.

Definition is_paren (c : ascii) : bool :=
  (c =? "(")%char || (c =? ")")%char.

(** [s.strip("()")]: parentheses are dropped from both ends. *)
Fixpoint lstrip (s : list ascii) : list ascii :=
  match s with
  | [] => []
  | c :: s' => if is_paren c then lstrip s' else s
  end.

Fixpoint rstrip (s : list ascii) : list ascii :=
  match s with
  | [] => []
  | c :: s' =>
      match rstrip s' with
      | [] => if is_paren c then [] else [c]
      | r => c :: r
      end
  end.

Definition strip (s : list ascii) : list ascii := rstrip (lstrip s).

(** [s.split(")(")]: the pieces between the occurrences of [")("], found
    from the left. *)
Definition cons_piece (c : ascii) (pieces : list (list ascii))
    : list (list ascii) :=
  match pieces with
  | piece :: pieces' => (c :: piece) :: pieces'
  | [] => [[c]]
  end.

Fixpoint split (s : list ascii) : list (list ascii) :=
  match s with
  | [] => [[]]
  | c :: s' =>
      match s' with
      | c' :: rest =>
          if (c =? ")")%char && (c' =? "(")%char then [] :: split rest
          else cons_piece c (split s')
      | [] => cons_piece c (split s')
      end
  end.

(** [sep.join(l)]. *)
Fixpoint join {A : Type} (sep : list A) (l : list (list A)) : list A :=
  match l with
  | [] => []
  | [s] => s
  | s :: l' => s ++ sep ++ join sep l'
  end.

(** [re.sub("\(\d\)", "", s)]: every parenthesised single digit is removed,
    scanning from the left. *)
Fixpoint sub_singletons (s : list ascii) : list ascii :=
  match s with
  | [] => []
  | c :: s' =>
      match s' with
      | d :: c' :: rest =>
          if (c =? "(")%char && is_digit d && (c' =? ")")%char
          then sub_singletons rest
          else c :: sub_singletons s'
      | _ => c :: sub_singletons s'
      end
  end.

(** ** Python lists of integers *)

Definition sum (l : list Z) : Z := fold_left Z.add l 0.

Definition py_max (l : list Z) : res Z :=
  match l with
  | [] => Raise (ValueError empty_sequence)
  | x :: l' => Ok (fold_left Z.max l' x)
  end.

Definition py_min (l : list Z) : res Z :=
  match l with
  | [] => Raise (ValueError empty_sequence)
  | x :: l' => Ok (fold_left Z.min l' x)
  end.

(** [range(lo, hi)]. *)
Definition range (lo hi : Z) : list Z :=
  map (fun i => lo + Z.of_nat i) (seq 0 (Z.to_nat (hi - lo))).

(** [x in l]. *)
Definition mem (x : Z) (l : list Z) : bool := existsb (Z.eqb x) l.

(** [l.index(x)]. *)
Fixpoint index (x : Z) (l : list Z) : res nat :=
  match l with
  | [] => Raise (ValueError not_in_list)
  | y :: l' => if x =? y then Ok O else i <- index x l' ;; Ok (S i)
  end.

(** [l[i]] for [i >= 0]. *)
Definition getitem (l : list Z) (i : nat) : res Z :=
  match nth_error l i with
  | Some v => Ok v
  | None => Raise IndexError
  end.

(** [l.count(x)]. *)
Definition count (x : Z) (l : list Z) : Z :=
  Z.of_nat (count_occ Z.eq_dec l x).

(** ** The class [Perm] *)

Module Perm.

Record t : Type := {
  description : list (list Z);   (* the cycles as given, each written twice *)
  max : Z;                       (* n, as in S_n *)
  string : list ascii            (* the disjoint cycles of the action on 1..n *)
}.

(** The body of [for cycle in cycles] in [apply], for one cycle. *)
Definition step (cycle : list Z) (new : Z) : res Z :=
  if mem new cycle then (i <- index new cycle ;; getitem cycle (S i))
  else Ok new.

(** The whole [for cycle in cycles] loop: [new] is sent through every cycle
    in turn. *)
Fixpoint image (cycles : list (list Z)) (new : Z) : res Z :=
  match cycles with
  | [] => Ok new
  | cycle :: rest => new' <- step cycle new ;; image rest new'
  end.

(** The inner [while] of [apply]; [cur] is [result[-1]]. *)
Fixpoint orbit (fuel : nat) (cycles : list (list Z)) (element : Z)
    (cur : list Z) : res (list Z) :=
  if count element cur <? 2 then
    match fuel with
    | O => Timeout
    | S fuel' =>
        new <- image cycles (last cur 0) ;;
        orbit fuel' cycles element (cur ++ [new])
    end
  else Ok cur.

(** [i] is in none of the lists of [result]. *)
Definition unplaced (result : list (list Z)) (i : Z) : bool :=
  negb (existsb (mem i) result).

(** The outer [while] of [apply]. *)
Fixpoint apply_loop (fuel inner : nat) (maximum : Z) (cycles : list (list Z))
    (result : list (list Z)) : res (list (list Z)) :=
  if sum (map (fun i => Z.of_nat (length i) - 1) result) <? maximum then
    match fuel with
    | O => Timeout
    | S fuel' =>
        element <- py_min (filter (unplaced result) (range 1 (maximum + 1))) ;;
        r <- orbit inner cycles element [element] ;;
        apply_loop fuel' inner maximum cycles (result ++ [r])
    end
  else Ok result.

(** The last line of [apply]: the lists without their last entry, as text. *)
Definition render (result : list (list Z)) : list ascii :=
  py "(" ++ join (py ")(") (map (fun r => concat (map str (removelast r))) result)
    ++ py ")".

Definition apply (fuel : nat) (maximum : Z) (cycles : list (list Z))
    : res (list ascii) :=
  result <- apply_loop fuel fuel maximum cycles [] ;;
  Ok (render result).

(** The first line of [__init__]: the text between the outer parentheses is
    cut at every [")("], every piece is doubled and read digit by digit. *)
Definition parse (description : list ascii) : res (list (list Z)) :=
  mapM (fun i => mapM int_char (i ++ i)) (split (strip description)).

(** The second line of [__init__]. *)
Definition ground (maximum : option Z) (description : list (list Z)) : res Z :=
  match maximum with
  | None => ms <- mapM py_max description ;; py_max ms
  | Some m => Ok m
  end.

Definition __init__ (fuel : nat) (description : list ascii)
    (maximum : option Z) : res t :=
  d <- parse description ;;
  m <- ground maximum d ;;
  s <- apply fuel m d ;;
  Ok {| description := d; max := m; string := s |}.

Definition __repr__ (self : t) : list ascii := string self.

Definition __str__ (self : t) : list ascii :=
  match sub_singletons (__repr__ self) with
  | [] => py "e"
  | s => s
  end.

Definition __mul__ (fuel : nat) (self other : t) : res t :=
  s <- apply fuel (Z.max (max self) (max other))
         (rev (description other) ++ rev (description self)) ;;
  __init__ fuel s None.

Definition __hash__ (self : t) : res Z :=
  int_str (map (fun c => if is_digit c then c else "0"%char) (string self)).

Definition __eq__ (self value : t) : res bool :=
  h1 <- __hash__ self ;; h2 <- __hash__ value ;; Ok (h1 =? h2).

Definition __ne__ (self value : t) : res bool :=
  b <- __eq__ self value ;; Ok (negb b).

Definition __lt__ (self other : t) : res bool :=
  h1 <- __hash__ self ;; h2 <- __hash__ other ;; Ok (h2 <? h1).

(** The [while] loop of [inverse]. *)
Fixpoint inverse_loop (fuel inner : nat) (self x : t) : res t :=
  match fuel with
  | O => Timeout
  | S fuel' =>
      new <- __mul__ inner x self ;;
      e <- __init__ inner (py "") (Some (max self)) ;;
      b <- __ne__ new e ;;
      if b then inverse_loop fuel' inner self new else Ok x
  end.

Definition inverse (fuel : nat) (self : t) : res t :=
  inverse_loop fuel fuel self self.

(** The [while] loop of [order], and its [return n + 1]. *)
Fixpoint order_loop (fuel inner : nat) (self x : t) (n : Z) : res Z :=
  match fuel with
  | O => Timeout
  | S fuel' =>
      new <- __mul__ inner x self ;;
      e <- __init__ inner (py "") (Some (max self)) ;;
      b <- __ne__ new e ;;
      if b then order_loop fuel' inner self new (n + 1) else Ok (n + 1)
  end.

Definition order (fuel : nat) (self : t) : res Z :=
  order_loop fuel fuel self self 1.

(** [__pow__] calls itself; [depth] bounds the nesting of these calls.
    [inverse] is a property, so [(...).inverse] is already the inverse, a
    [Perm]; the call [()] that follows it in the negative branch then fails,
    since [Perm] defines no [__call__]. *)
Fixpoint pow (depth fuel : nat) (self : t) (power : Z) : res t :=
  match depth with
  | O => Timeout
  | S depth' =>
      if power <? 0 then
        p <- pow depth' fuel self (- power) ;;
        _ <- inverse fuel p ;;
        Raise TypeError
      else if power =? 0 then __init__ fuel (py "") (Some (max self))
      else if power =? 1 then Ok self
      else p <- pow depth' fuel self (power - 1) ;; __mul__ fuel p self
  end.

Definition __pow__ (fuel : nat) (self : t) (power : Z) : res t :=
  pow fuel fuel self power.

End Perm.

(** ** The generated group *)

(** [x in l] for a list of permutations: [==] against every entry, from the
    left, until one holds. *)
Fixpoint contains (x : Perm.t) (l : list Perm.t) : res bool :=
  match l with
  | [] => Ok false
  | y :: l' => b <- Perm.__eq__ y x ;; if b then Ok true else contains x l'
  end.

(** The [for (sigma, tau) in product(group, group)] loop. *)
Fixpoint products (fuel : nat) (group : list Perm.t)
    (pairs : list (Perm.t * Perm.t)) (new : list Perm.t) : res (list Perm.t) :=
  match pairs with
  | [] => Ok new
  | (sigma, tau) :: rest =>
      prod <- Perm.__mul__ fuel sigma tau ;;
      known <- contains prod group ;;
      if known then products fuel group rest new
      else
        found <- contains prod new ;;
        if found then products fuel group rest new
        else products fuel group rest (new ++ [prod])
  end.

(** The [while size != len(group)] loop. *)
Fixpoint closure (fuel inner : nat) (group : list Perm.t) (size : nat)
    : res (list Perm.t) :=
  if Nat.eqb size (length group) then Ok group
  else
    match fuel with
    | O => Timeout
    | S fuel' =>
        new <- products inner group (list_prod group group) [] ;;
        closure fuel' inner (group ++ new) (length group)
    end.

(** [sorted(l)]: a stable sort by [__lt__], written as insertion from the
    right. *)
Fixpoint insert (x : Perm.t) (l : list Perm.t) : res (list Perm.t) :=
  match l with
  | [] => Ok [x]
  | y :: l' =>
      b <- Perm.__lt__ y x ;;
      if b then (r <- insert x l' ;; Ok (y :: r)) else Ok (x :: l)
  end.

Fixpoint sorted (l : list Perm.t) : res (list Perm.t) :=
  match l with
  | [] => Ok []
  | x :: l' => r <- sorted l' ;; insert x r
  end.

Definition generate_group (fuel : nat) (elements : list Perm.t)
    : res (list Perm.t) :=
  group <- closure fuel fuel elements 0 ;;
  sorted group.

(** ** The sign *)

Definition sgn (sigma : Perm.t) : Z :=
  let sigma := split (strip (Perm.__str__ sigma)) in
  (-1) ^ sum (map (fun s => Z.of_nat (length s) + 1) sigma).

(** The public operations under the names of the specification. *)
Definition construct := Perm.__init__.
Definition multiply := Perm.__mul__.
Definition power := Perm.__pow__.
Definition equals := Perm.__eq__.
Definition fullText := Perm.__repr__.
Definition reducedText := Perm.__str__.
Definition sign := sgn.
Definition generateGroup := generate_group.

(** ** What the statements below talk about *)

(** A computation with fuel returns [v]: it does so whenever the fuel is
    large enough. *)
Definition returns {A : Type} (c : nat -> res A) (v : A) : Prop :=
  exists fuel, forall fuel', (fuel <= fuel')%nat -> c fuel' = Ok v.

(** It raises [e], in the same sense. *)
Definition raises {A : Type} (c : nat -> res A) (e : exn) : Prop :=
  exists fuel, forall fuel', (fuel <= fuel')%nat -> c fuel' = Raise e.

(** It neither returns nor raises, however much fuel it gets. *)
Definition diverges {A : Type} (c : nat -> res A) : Prop :=
  forall fuel, c fuel = Timeout.

(** More fuel does not change a result that is there already. *)
Definition mono {A : Type} (c : nat -> res A) : Prop :=
  forall f f', (f <= f')%nat -> c f <> Timeout -> c f' = c f.

(** The identity of S_n, as [inverse], [order] and [__pow__] build it. *)
Definition identity (fuel : nat) (n : Z) : res Perm.t :=
  Perm.__init__ fuel (py "") (Some n).

(** The loops of [inverse] and [order] run side by side: [x] goes through
    the powers of [self], [n] counts them. *)
Fixpoint walk (fuel inner : nat) (self x : Perm.t) (n : Z)
    : res (Perm.t * Z) :=
  match fuel with
  | O => Timeout
  | S fuel' =>
      new <- Perm.__mul__ inner x self ;;
      e <- Perm.__init__ inner (py "") (Some (Perm.max self)) ;;
      b <- Perm.__ne__ new e ;;
      if b then walk fuel' inner self new (n + 1) else Ok (x, n)
  end.

(** The digits of a text read as one number, the other characters left out:
    the encoding of the specification's sentence on equality. *)
Definition digits_only (s : list ascii) : res Z := int_str (filter is_digit s).

(** A [Perm] object is what [__init__] returned for some text and some
    optional ground size: Python has no other way to make one. *)
Definition constructed (p : Perm.t) : Prop :=
  exists fuel description maximum, Perm.__init__ fuel description maximum = Ok p.

(** The number that a list of decimal digits denotes, by place value. *)
Fixpoint decimal (ds : list Z) : Z :=
  match ds with
  | [] => 0
  | d :: ds' => d * 10 ^ Z.of_nat (length ds') + decimal ds'
  end.

(** The number a text denotes when each digit counts as itself and every
    other character as a zero. *)
Definition zero_filled_value (s : list ascii) : Z :=
  decimal (map (fun c => if is_digit c then Z.of_N (N_of_ascii c) - 48 else 0) s).

(** [e], [f e], ..., the first [k] points on the path of [e] under [f]. *)
Definition trace (f : Z -> Z) (e : Z) (k : nat) : list Z :=
  map (fun j => Nat.iter j f e) (seq 0 k).

(** [f] is a permutation of {1..n}. *)
Definition permutes (f : Z -> Z) (n : Z) : Prop :=
  (forall x, 1 <= x <= n -> 1 <= f x <= n) /\
  (forall x y, 1 <= x <= n -> 1 <= y <= n -> f x = f y -> x = y).

(** The canonical decomposition of [f] on {1..n}: every point is in exactly
    one cycle, the cycles come in the order of their first entries, every cycle
    starts at its smallest entry, and every entry is followed by its image
    (the last one by the first). *)
Record canonical (f : Z -> Z) (n : Z) (cs : list (list Z)) : Prop := {
  can_cover : forall x, 1 <= x <= n <-> In x (concat cs);
  can_once : NoDup (concat cs);
  can_order : StronglySorted Z.lt (map (hd 0) cs);
  can_least : Forall (fun c => c <> [] /\ Forall (fun x => hd 0 c <= x) c) cs;
  can_cycle : Forall (fun c => forall i, (i < length c)%nat ->
                f (nth i c 0) = nth (S i mod length c) c 0) cs
}.

(** The text of a list of cycles. *)
Definition text_of (cs : list (list Z)) : list ascii :=
  py "(" ++ join (py ")(") (map (fun c => concat (map str c)) cs) ++ py ")".

(** The text [t], with the optional ground size [m], describes the mapping
    [f] on the ground set {1..n}. *)
Definition describes (t : list ascii) (m : option Z) (n : Z) (f : Z -> Z)
    : Prop :=
  exists d, Perm.parse t = Ok d /\ Perm.ground m d = Ok n /\
    forall x, 1 <= x <= n -> Perm.image d x = Ok (f x).

(** [e] comes back to itself after [k] steps of [f] and not before. *)
Definition returns_after (f : Z -> Z) (n : Z) (e : Z) (k : nat) : Prop :=
  1 <= e <= n /\ (1 <= k)%nat /\ Nat.iter k f e = e /\
  forall j, (0 < j < k)%nat -> Nat.iter j f e <> e.

(** The points that the lists of [result] hold, their closing entries
    apart. *)
Definition placed (result : list (list Z)) : list Z :=
  concat (map (@removelast Z) result).

(** What the outer loop of [apply] keeps true of [result]. *)
Record inv (f : Z -> Z) (n : Z) (result : list (list Z)) : Prop := {
  inv_orbits : Forall (fun r => exists e k,
                 returns_after f n e k /\ r = trace f e (S k)) result;
  inv_once : NoDup (placed result);
  inv_sum : sum (map (fun i => Z.of_nat (length i) - 1) result)
            = Z.of_nat (length (placed result));
  inv_heads : forall r x, In r result -> 1 <= x <= n ->
                ~ In x (placed result) -> hd 0 r < x;
  inv_order : StronglySorted Z.lt (map (hd 0) result);
  inv_least : Forall (fun r => Forall (fun x => hd 0 r <= x) r) result
}.
Arguments inv_orbits {f n} result _.
Arguments inv_once {f n} result _.
Arguments inv_sum {f n} result _.
Arguments inv_heads {f n} result _.
Arguments inv_order {f n} result _.
Arguments inv_least {f n} result _.

(** The transposition of 1 and 2, a sample mapping. *)
Definition swap12 (x : Z) : Z := if x =? 1 then 2 else if x =? 2 then 1 else x.

(** ** Well-formed permutations *)

(** A cycle as [__init__] stores it, and back. *)
Definition double (c : list Z) : list Z := c ++ c.
Definition half (d : list Z) : list Z := firstn (Nat.div2 (length d)) d.

(** The cycles of a permutation, written once. *)
Definition cycles_of (p : Perm.t) : list (list Z) :=
  map half (Perm.description p).

(** The entry after the first [x] in the cycle [c], its first entry after
    the last one; [x] itself when [c] does not hold it. *)
Definition next (c : list Z) (x : Z) : Z :=
  match Perm.step (double c) x with
  | Ok v => v
  | _ => x
  end.

(** [x] sent through the cycles [cs] in turn. *)
Definition via (cs : list (list Z)) (x : Z) : Z :=
  fold_left (fun y c => next c y) cs x.

(** Where a permutation sends [x]: through its cycles, as [apply] does. *)
Definition action (p : Perm.t) (x : Z) : Z :=
  match Perm.image (Perm.description p) x with
  | Ok v => v
  | _ => x
  end.

Fixpoint nodupb (l : list Z) : bool :=
  match l with
  | [] => true
  | x :: l' => negb (mem x l') && nodupb l'
  end.

Definition same_cycles (a b : list (list Z)) : bool :=
  if list_eq_dec (list_eq_dec Z.eq_dec) a b then true else false.

Definition same_text (a b : list ascii) : bool :=
  if list_eq_dec ascii_dec a b then true else false.

(** The permutations the notation is made for: a ground size from 1 to 9,
    cycles of pairwise distinct points of the ground set, and the text that
    [apply] writes for them. *)
Definition well_formed (p : Perm.t) : bool :=
  (1 <=? Perm.max p) && (Perm.max p <=? 9)
  && same_cycles (Perm.description p) (map double (cycles_of p))
  && forallb (fun x => (1 <=? x) && (x <=? Perm.max p)) (concat (cycles_of p))
  && nodupb (concat (cycles_of p))
  && match Perm.apply 9 (Perm.max p) (Perm.description p) with
     | Ok s => same_text s (Perm.string p)
     | _ => false
     end.

Record WF (p : Perm.t) : Prop := {
  wf_size : 1 <= Perm.max p <= 9;
  wf_double : Perm.description p = map double (cycles_of p);
  wf_range : forall x, In x (concat (cycles_of p)) -> 1 <= x <= Perm.max p;
  wf_once : NoDup (concat (cycles_of p));
  wf_string : Perm.apply 9 (Perm.max p) (Perm.description p) = Ok (Perm.string p)
}.

(** The first position of [x] in [l] ([length l] when there is none). *)
Fixpoint pos (x : Z) (l : list Z) : nat :=
  match l with
  | [] => O
  | y :: l' => if x =? y then O else S (pos x l')
  end.

(** The character of a digit. *)
Definition digit_char (x : Z) : ascii := ascii_of_N (Z.to_N (x + 48)).

(** The text of a cycle of single digits. *)
Definition digits (c : list Z) : list ascii := map digit_char c.

(** The permutation that the canonical cycles [cs] of ground size [m]
    make. *)
Definition of_cycles (m : Z) (cs : list (list Z)) : Perm.t :=
  {| Perm.description := map double cs; Perm.max := m; Perm.string := text_of cs |}.

(** The product of two well-formed permutations (for which fuel 9 is
    enough). *)
Definition product (a b : Perm.t) : Perm.t :=
  match Perm.__mul__ 9 a b with
  | Ok c => c
  | _ => a
  end.

(** [x], [x * x], [(x * x) * x], ...: the power of exponent [j + 1]. *)
Definition power_succ (x : Perm.t) (j : nat) : Perm.t :=
  Nat.iter j (fun y => product y x) x.

(** The identity of S_n as a value. *)
Definition one (n : Z) : Perm.t :=
  match identity 9 n with
  | Ok e => e
  | _ => of_cycles n []
  end.

(** The number of a permutation's text, as [__hash__] computes it. *)
Definition code (p : Perm.t) : Z := zero_filled_value (Perm.string p).

(** The value of a computation that is known to return. *)
Definition unwrap (r : res Perm.t) : Perm.t :=
  match r with
  | Ok p => p
  | _ => of_cycles 0 []
  end.

(** The identity of S_10, its square, and the square times the identity. *)
Definition ten_0 : Perm.t := Eval vm_compute in unwrap (identity 10 10).
Definition ten_1 : Perm.t := Eval vm_compute in unwrap (Perm.__mul__ 10 ten_0 ten_0).
Definition ten_2 : Perm.t := Eval vm_compute in unwrap (Perm.__mul__ 10 ten_1 ten_0).

(** The codes of [universe] that no permutation of [group] has. *)
Definition missing (universe : list Z) (group : list Perm.t) : list Z :=
  filter (fun h => negb (mem h (map code group))) universe.

(** The conditions of [canonical] that do not mention the ground set. *)
Definition ordered_cycles (f : Z -> Z) (cs : list (list Z)) : Prop :=
  NoDup (concat cs) /\
  StronglySorted Z.lt (map (hd 0) cs) /\
  Forall (fun c => c <> [] /\ Forall (fun x => hd 0 c <= x) c) cs /\
  Forall (fun c => forall i, (i < length c)%nat ->
            f (nth i c 0) = nth (S i mod length c) c 0) cs.

(** The digits that [__hash__] reads off the text of the cycles [cs]: a zero
    for every parenthesis. *)
Definition zero_filled_digits (cs : list (list Z)) : list Z :=
  [0] ++ join [0; 0] cs ++ [0].

(** [y] is a well-formed power of [x], of exponent 1 or more. *)
Definition is_power (x y : Perm.t) : Prop :=
  WF y /\ Perm.max y = Perm.max x /\
  exists m, forall z, action y z = Nat.iter (S m) (action x) z.

(** The codes of the products of members of [g] are codes of members. *)
Definition closed (g : list Perm.t) : Prop :=
  forall a b, In a g -> In b g -> In (code (product a b)) (map code g).

(** ** More notions for the statements *)

(** What the generators [gens] generate: the generators themselves and the
    products, by [__mul__], of what they generate. *)
Inductive generated (gens : list Perm.t) : Perm.t -> Prop :=
| generated_gen x : In x gens -> generated gens x
| generated_mul a b p :
    generated gens a -> generated gens b ->
    returns (fun fuel => multiply fuel a b) p -> generated gens p.

(** A cycle of two points or more: the cycles that the reduced text keeps. *)
Definition moves (c : list Z) : bool := (2 <=? length c)%nat.

(** One cycle of single digits between its parentheses. *)
Definition wrap (c : list Z) : list ascii := py "(" ++ digits c ++ py ")".

(** What the outer loop of [apply] keeps true of [result] whatever the
    cycles are: every list is the path of a point of the ground set up to
    its first return, and no point is in two of them. *)
Record closed_paths (f : Z -> Z) (n : Z) (result : list (list Z)) : Prop := {
  cp_orbits : Forall (fun r => exists e k,
                returns_after f n e k /\ r = trace f e (S k)) result;
  cp_once : NoDup (placed result);
  cp_sum : sum (map (fun i => Z.of_nat (length i) - 1) result)
           = Z.of_nat (length (placed result))
}.
Arguments cp_orbits {f n} result _.
Arguments cp_once {f n} result _.
Arguments cp_sum {f n} result _.

(** [hs] holds one point of every orbit of [f] on {1..n}, and one only. *)
Definition orbit_heads (f : Z -> Z) (n : Z) (hs : list Z) : Prop :=
  NoDup hs /\ (forall h, In h hs -> 1 <= h <= n) /\
  (forall x, 1 <= x <= n -> exists h i, In h hs /\ x = Nat.iter i f h) /\
  (forall h h' i, In h hs -> In h' hs -> Nat.iter i f h = h' -> h = h').

(** * Properties *)

(** *** More fuel changes nothing *)

Lemma mono_const {A} (r : res A) : mono (fun _ => r).
Proof. intros f f' _ _. reflexivity. Qed.

Lemma mono_bind {A B} (c : nat -> res A) (k : A -> nat -> res B) :
  mono c -> (forall a, mono (k a)) -> mono (fun f => a <- c f ;; k a f).
Proof.
  intros Hc Hk f f' Hle Hne. cbv beta in *.
  destruct (c f) as [a| |] eqn:E.
  - rewrite (Hc f f' Hle) by congruence. rewrite E. cbn in *. now apply Hk.
  - rewrite (Hc f f' Hle) by congruence. rewrite E. reflexivity.
  - now cbn in Hne.
Qed.

Lemma orbit_mono cycles element cur : mono (fun f => Perm.orbit f cycles element cur).
Proof.
  intros f. revert cur. induction f as [|f IH]; intros cur f' Hle Hne; cbv beta in *.
  - cbn in Hne. destruct (count element cur <? 2) eqn:C; [congruence|].
    destruct f'; cbn; rewrite C; reflexivity.
  - destruct f' as [|f']; [lia|]. cbn in *.
    destruct (count element cur <? 2); [|reflexivity].
    destruct (Perm.image cycles (last cur 0)) as [new| |]; cbn in *; try reflexivity.
    apply IH; [lia|assumption].
Qed.

Lemma apply_loop_mono maximum cycles result :
  forall f i f' i', (f <= f')%nat -> (i <= i')%nat ->
    Perm.apply_loop f i maximum cycles result <> Timeout ->
    Perm.apply_loop f' i' maximum cycles result = Perm.apply_loop f i maximum cycles result.
Proof.
  intros f. revert result. induction f as [|f IH]; intros result i f' i' Hle Hi Hne.
  - cbn in Hne. destruct (_ <? maximum) eqn:C; [congruence|].
    destruct f'; cbn; rewrite C; reflexivity.
  - destruct f' as [|f']; [lia|]. cbn in *.
    destruct (_ <? maximum); [|reflexivity].
    destruct (py_min _) as [element| |]; cbn in *; try reflexivity.
    destruct (Perm.orbit i cycles element [element]) as [r| |] eqn:E; cbn in *.
    + rewrite (orbit_mono cycles element [element] i i' Hi) by congruence.
      rewrite E. cbn. apply IH; [lia|lia|assumption].
    + rewrite (orbit_mono cycles element [element] i i' Hi) by congruence.
      rewrite E. reflexivity.
    + congruence.
Qed.

Lemma apply_mono maximum cycles : mono (fun f => Perm.apply f maximum cycles).
Proof.
  intros f f' Hle Hne. unfold Perm.apply in *.
  destruct (Perm.apply_loop f f maximum cycles []) eqn:E; cbn in Hne; try congruence.
  - rewrite (apply_loop_mono _ _ _ f f f' f') by (congruence || lia). now rewrite E.
  - rewrite (apply_loop_mono _ _ _ f f f' f') by (congruence || lia). now rewrite E.
Qed.

Lemma init_mono description maximum : mono (fun f => Perm.__init__ f description maximum).
Proof.
  unfold Perm.__init__.
  apply (mono_bind (fun _ => Perm.parse description)); [apply mono_const|]. intros d.
  apply (mono_bind (fun _ => Perm.ground maximum d)); [apply mono_const|]. intros m.
  apply (mono_bind (fun f => Perm.apply f m d)); [apply apply_mono|]. intros s.
  apply mono_const.
Qed.

Lemma mul_mono self other : mono (fun f => Perm.__mul__ f self other).
Proof.
  unfold Perm.__mul__.
  apply (mono_bind (fun f => Perm.apply f _ _)); [apply apply_mono|]. intros s.
  apply init_mono.
Qed.

Lemma walk_mono self : forall f x n i f' i', (f <= f')%nat -> (i <= i')%nat ->
  walk f i self x n <> Timeout -> walk f' i' self x n = walk f i self x n.
Proof.
  induction f as [|f IH]; intros x n i f' i' Hle Hi Hne; [now cbn in Hne|].
  destruct f' as [|f']; [lia|]. cbn [walk] in *.
  destruct (Perm.__mul__ i x self) as [new| |] eqn:E; cbn [bind] in Hne; try congruence;
    rewrite (mul_mono x self i i' Hi) by congruence; rewrite E; cbn [bind]; [|reflexivity].
  destruct (Perm.__init__ i (py "") (Some (Perm.max self))) as [e| |] eqn:E2;
    cbn [bind] in Hne; try congruence;
    rewrite (init_mono _ _ i i' Hi) by congruence; rewrite E2; cbn [bind]; [|reflexivity].
  destruct (Perm.__ne__ new e) as [[|]| |]; cbn [bind] in *; try reflexivity.
  apply IH; [lia|lia|assumption].
Qed.

(** The two loops in terms of [walk]. *)
Lemma inverse_loop_walk self : forall fuel inner x n,
  Perm.inverse_loop fuel inner self x = (xn <- walk fuel inner self x n ;; Ok (fst xn)).
Proof.
  induction fuel as [|fuel IH]; intros inner x n; [reflexivity|].
  cbn [Perm.inverse_loop walk].
  destruct (Perm.__mul__ inner x self); cbn [bind]; try reflexivity.
  destruct (Perm.__init__ inner (py "") (Some (Perm.max self))); cbn [bind]; try reflexivity.
  destruct (Perm.__ne__ _ _) as [[|]| |]; cbn [bind]; try reflexivity. apply IH.
Qed.

Lemma order_loop_walk self : forall fuel inner x n,
  Perm.order_loop fuel inner self x n = (xn <- walk fuel inner self x n ;; Ok (snd xn + 1)).
Proof.
  induction fuel as [|fuel IH]; intros inner x n; [reflexivity|].
  cbn [Perm.order_loop walk].
  destruct (Perm.__mul__ inner x self); cbn [bind]; try reflexivity.
  destruct (Perm.__init__ inner (py "") (Some (Perm.max self))); cbn [bind]; try reflexivity.
  destruct (Perm.__ne__ _ _) as [[|]| |]; cbn [bind]; try reflexivity. apply IH.
Qed.

Lemma inverse_walk fuel self :
  Perm.inverse fuel self = (xn <- walk fuel fuel self self 1 ;; Ok (fst xn)).
Proof. apply inverse_loop_walk. Qed.

Lemma order_walk fuel self :
  Perm.order fuel self = (xn <- walk fuel fuel self self 1 ;; Ok (snd xn + 1)).
Proof. apply order_loop_walk. Qed.

Lemma inverse_mono self : mono (fun f => Perm.inverse f self).
Proof.
  intros f f' Hle Hne. cbv beta in *. rewrite !inverse_walk in *.
  destruct (walk f f self self 1) eqn:E; cbn in Hne; try congruence;
  rewrite (walk_mono self f self 1 f f' f') by (congruence || lia); now rewrite E.
Qed.

Lemma order_mono self : mono (fun f => Perm.order f self).
Proof.
  intros f f' Hle Hne. cbv beta in *. rewrite !order_walk in *.
  destruct (walk f f self self 1) eqn:E; cbn in Hne; try congruence;
  rewrite (walk_mono self f self 1 f f' f') by (congruence || lia); now rewrite E.
Qed.

Lemma pow_mono2 self : forall d power f d' f', (d <= d')%nat -> (f <= f')%nat ->
  Perm.pow d f self power <> Timeout -> Perm.pow d' f' self power = Perm.pow d f self power.
Proof.
  induction d as [|d IH]; intros power f d' f' Hd Hf Hne; [now cbn in Hne|].
  destruct d' as [|d']; [lia|]. cbn [Perm.pow] in *.
  destruct (power <? 0).
  - destruct (Perm.pow d f self (- power)) as [p| |] eqn:E; cbn [bind] in Hne; try congruence;
      rewrite (IH (- power) f d' f') by (congruence || lia); rewrite E; cbn [bind];
      [|reflexivity].
    destruct (Perm.inverse f p) as [i| |] eqn:E2; cbn [bind] in Hne; try congruence;
      rewrite (inverse_mono p f f' Hf) by congruence; rewrite E2; reflexivity.
  - destruct (power =? 0); [apply init_mono; assumption|].
    destruct (power =? 1); [reflexivity|].
    destruct (Perm.pow d f self (power - 1)) as [p| |] eqn:E; cbn [bind] in Hne; try congruence;
      rewrite (IH (power - 1) f d' f') by (congruence || lia); rewrite E; cbn [bind];
      [|reflexivity].
    apply mul_mono; assumption.
Qed.

Lemma pow_mono self power : mono (fun f => Perm.__pow__ f self power).
Proof. intros f f' Hle Hne. apply pow_mono2; assumption. Qed.

Lemma products_mono group pairs : forall new, mono (fun f => products f group pairs new).
Proof.
  induction pairs as [|[sigma tau] rest IH]; intros new; cbn; [apply mono_const|].
  apply (mono_bind _ (fun prod f => known <- contains prod group ;; if known then products f group rest new
      else found <- contains prod new ;; if found then products f group rest new
        else products f group rest (new ++ [prod]))); [apply mul_mono|].
  intros prod f f' Hle Hne. cbv beta in *.
  destruct (contains prod group) as [[|]| |]; cbn in *; try reflexivity; [now apply IH|].
  destruct (contains prod new) as [[|]| |]; cbn in *; try reflexivity; now apply IH.
Qed.

Lemma closure_mono : forall f group size i f' i', (f <= f')%nat -> (i <= i')%nat ->
  closure f i group size <> Timeout -> closure f' i' group size = closure f i group size.
Proof.
  induction f as [|f IH]; intros group size i f' i' Hle Hi Hne.
  - cbn in Hne. destruct (Nat.eqb size (length group)) eqn:C; [|congruence].
    destruct f'; cbn; rewrite C; reflexivity.
  - destruct f' as [|f']; [lia|]. cbn in *.
    destruct (Nat.eqb size (length group)); [reflexivity|].
    destruct (products i group (list_prod group group) []) as [new| |] eqn:E; cbn in Hne; try congruence;
      rewrite (products_mono group _ [] i i' Hi) by congruence; rewrite E; cbn; [|reflexivity].
    apply IH; [lia|lia|assumption].
Qed.

Lemma generate_group_mono elements : mono (fun f => generate_group f elements).
Proof.
  intros f f' Hle Hne. unfold generate_group in *.
  destruct (closure f f elements 0) eqn:E; cbn in Hne; try congruence;
  rewrite (closure_mono f elements 0%nat f f' f') by (congruence || lia); now rewrite E.
Qed.

(** A result computed with some fuel is the result. *)
Lemma mono_returns {A} (c : nat -> res A) (fuel : nat) (v : A) :
  mono c -> c fuel = Ok v -> returns c v.
Proof.
  intros Hm E. exists fuel. intros f' Hle. rewrite (Hm fuel f' Hle); congruence.
Qed.

Lemma mono_raises {A} (c : nat -> res A) (fuel : nat) (e : exn) :
  mono c -> c fuel = Raise e -> raises c e.
Proof.
  intros Hm E. exists fuel. intros f' Hle. rewrite (Hm fuel f' Hle); congruence.
Qed.

Lemma returns_fun {A} (c : nat -> res A) (v w : A) : returns c v -> returns c w -> v = w.
Proof.
  intros [f1 H1] [f2 H2]. specialize (H1 (Nat.max f1 f2) (Nat.le_max_l _ _)).
  specialize (H2 (Nat.max f1 f2) (Nat.le_max_r _ _)). congruence.
Qed.

(** A result by evaluation with the fuel [n]. *)
Ltac by_run n lem := apply (mono_returns _ n); [apply lem | vm_compute; reflexivity].

(** *** Small facts on lists *)

Lemma mem_In x l : mem x l = true <-> In x l.
Proof.
  unfold mem. rewrite existsb_exists. split.
  - intros (y & Hy & E). apply Z.eqb_eq in E. now subst.
  - intros H. exists x. split; [assumption|apply Z.eqb_refl].
Qed.

Lemma sum_snoc l a : sum (l ++ [a]) = sum l + a.
Proof. unfold sum. rewrite fold_left_app. reflexivity. Qed.

Lemma range_In lo hi x : In x (range lo hi) <-> lo <= x < hi.
Proof.
  unfold range. rewrite in_map_iff. split.
  - intros (i & <- & Hi). apply in_seq in Hi. lia.
  - intros H. exists (Z.to_nat (x - lo)). split; [lia|]. apply in_seq. lia.
Qed.

Lemma range_NoDup lo hi : NoDup (range lo hi).
Proof.
  unfold range. apply NoDup_map_NoDup_ForallPairs; [|apply seq_NoDup].
  intros i j _ _ E. lia.
Qed.

Lemma range_length lo hi : length (range lo hi) = Z.to_nat (hi - lo).
Proof. unfold range. now rewrite length_map, length_seq. Qed.

Lemma fold_min_spec l : forall x,
  In (fold_left Z.min l x) (x :: l) /\ Forall (fun y => fold_left Z.min l x <= y) (x :: l).
Proof.
  induction l as [|a l IH]; intros x; cbn [fold_left].
  - split; [now left|]. constructor; [lia|constructor].
  - destruct (IH (Z.min x a)) as [Hin Hall]. split.
    + destruct Hin as [E|Hin]; [|right; now right].
      rewrite <- E. destruct (Z.min_spec x a) as [[_ ->]|[_ ->]]; [now left|right; now left].
    + inversion Hall as [|? ? H1 H2]; subst. constructor; [lia|]. constructor; [lia|assumption].
Qed.

Lemma py_min_spec l m : py_min l = Ok m -> In m l /\ forall y, In y l -> m <= y.
Proof.
  destruct l as [|x l]; [discriminate|]. cbn. intros [= <-].
  destruct (fold_min_spec l x) as [H1 H2]. split; [assumption|].
  intros y Hy. rewrite Forall_forall in H2. now apply H2.
Qed.

Lemma py_min_nonempty l : l <> [] -> exists m, py_min l = Ok m.
Proof. destruct l; [congruence|]. intros _. eexists. reflexivity. Qed.

Lemma snoc_sorted (l : list Z) (a : Z) :
  StronglySorted Z.lt l -> (forall x, In x l -> x < a) -> StronglySorted Z.lt (l ++ [a]).
Proof.
  induction 1 as [|x l Hs IH Hx]; intros Ha; cbn.
  - constructor; constructor.
  - constructor.
    + apply IH. intros y Hy. apply Ha. now right.
    + apply Forall_app. split; [assumption|]. constructor; [|constructor].
      apply Ha. now left.
Qed.

(** *** The first return of a point *)

Section Orbits.

Variables (cycles : list (list Z)) (n : Z) (f : Z -> Z).
Hypothesis Himage : forall x, 1 <= x <= n -> Perm.image cycles x = Ok (f x).
Hypothesis Hperm : permutes f n.

Local Abbreviation iter k x := (Nat.iter k f x).
Local Abbreviation back e k := (returns_after f n e k).
Local Abbreviation Inv result := (inv f n result).

Lemma iter_range k x : 1 <= x <= n -> 1 <= iter k x <= n.
Proof.
  intros Hx. induction k as [|k IH]; cbn; [assumption|]. now apply (proj1 Hperm).
Qed.

Lemma iter_inj k x y : 1 <= x <= n -> 1 <= y <= n -> iter k x = iter k y -> x = y.
Proof.
  intros Hx Hy. induction k as [|k IH]; cbn; [trivial|].
  intros E. apply IH. apply (proj2 Hperm); auto using iter_range.
Qed.

Lemma iter_add a b x : iter (a + b) x = iter a (iter b x).
Proof. apply Nat.iter_add. Qed.

Lemma trace_S e k : trace f e (S k) = trace f e k ++ [iter k e].
Proof. unfold trace. rewrite seq_S, map_app. reflexivity. Qed.

Lemma trace_In e k x : In x (trace f e k) <-> exists j, (j < k)%nat /\ x = iter j e.
Proof.
  unfold trace. rewrite in_map_iff. split.
  - intros (j & <- & Hj). apply in_seq in Hj. exists j. split; [lia|reflexivity].
  - intros (j & Hj & ->). exists j. split; [reflexivity|]. apply in_seq. lia.
Qed.

Lemma trace_length e k : length (trace f e k) = k.
Proof. unfold trace. now rewrite length_map, length_seq. Qed.

Lemma trace_nth e k i : (i < k)%nat -> nth i (trace f e k) 0 = iter i e.
Proof.
  induction k as [|k IH]; intros Hi; [lia|]. rewrite trace_S.
  destruct (Nat.eq_dec i k) as [->|Hne].
  - rewrite app_nth2 by (rewrite trace_length; lia).
    rewrite trace_length, Nat.sub_diag. reflexivity.
  - rewrite app_nth1 by (rewrite trace_length; lia). apply IH. lia.
Qed.

Lemma trace_range e k x : 1 <= e <= n -> In x (trace f e k) -> 1 <= x <= n.
Proof. intros He Hx. apply trace_In in Hx as (j & _ & ->). now apply iter_range. Qed.

Lemma first_return_search (e : Z) (N : nat) :
  (exists k, (1 <= k <= N)%nat /\ iter k e = e /\ forall j, (0 < j < k)%nat -> iter j e <> e)
  \/ (forall k, (1 <= k <= N)%nat -> iter k e <> e).
Proof.
  induction N as [|N [IH|IH]].
  - right. intros k Hk. lia.
  - left. destruct IH as (k & Hk & H). exists k. split; [lia|assumption].
  - destruct (Z.eq_dec (iter (S N) e) e) as [E|E].
    + left. exists (S N). split; [lia|]. split; [assumption|].
      intros j Hj. apply IH. lia.
    + right. intros k Hk. destruct (Nat.eq_dec k (S N)) as [->|]; [assumption|].
      apply IH. lia.
Qed.

Lemma first_return e : 1 <= e <= n ->
  exists k, (k <= Z.to_nat n)%nat /\ back e k.
Proof.
  intros He. destruct (first_return_search e (Z.to_nat n)) as [(k & Hk & H1 & H2)|Hno].
  - exists k. split; [lia|]. repeat split; try assumption; lia.
  - exfalso.
    assert (Hnd : NoDup (trace f e (S (Z.to_nat n)))).
    { unfold trace. apply NoDup_map_NoDup_ForallPairs; [|apply seq_NoDup].
      intros i j Hi Hj E. apply in_seq in Hi, Hj.
      destruct (Nat.lt_trichotomy i j) as [L|[L|L]]; [|assumption|]; exfalso.
      - apply (Hno (j - i)%nat); [lia|].
        apply (iter_inj i); [now apply iter_range|assumption|].
        rewrite <- iter_add. replace (i + (j - i))%nat with j by lia. now symmetry.
      - apply (Hno (i - j)%nat); [lia|].
        apply (iter_inj j); [now apply iter_range|assumption|].
        rewrite <- iter_add. replace (j + (i - j))%nat with i by lia. assumption. }
    apply NoDup_incl_length with (l' := range 1 (n + 1)) in Hnd.
    + rewrite trace_length, range_length in Hnd. lia.
    + intros x Hx. apply range_In. apply trace_range in Hx; [lia|assumption].
Qed.

Lemma count_trace e k : back e k ->
  forall i, (1 <= i <= k)%nat -> count e (trace f e i) = 1.
Proof.
  intros (He & Hk & Hret & Hfirst) i Hi. unfold count.
  induction i as [|i IH]; [lia|].
  destruct (Nat.eq_dec i 0) as [->|Hne].
  - cbn. destruct (Z.eq_dec e e); [reflexivity|congruence].
  - rewrite trace_S, count_occ_app. cbn [count_occ].
    destruct (Z.eq_dec (iter i e) e) as [E|_]; [exfalso; apply (Hfirst i); [lia|assumption]|].
    rewrite Nat.add_0_r. apply IH. lia.
Qed.

Lemma count_trace_closed e k : back e k -> count e (trace f e (S k)) = 2.
Proof.
  intros H. pose proof (count_trace e k H k) as Hc. destruct H as (He & Hk & Hret & Hfirst).
  unfold count in *. rewrite trace_S, count_occ_app. cbn [count_occ].
  destruct (Z.eq_dec (iter k e) e); [|congruence]. specialize (Hc ltac:(lia)). lia.
Qed.

(** The inner loop follows [e] until it is back. *)
Lemma orbit_run e k : back e k ->
  forall m i fuel, (i + m = S k)%nat -> (1 <= i)%nat -> (m <= fuel)%nat ->
    Perm.orbit fuel cycles e (trace f e i) = Ok (trace f e (S k)).
Proof.
  intros H m. induction m as [|m IH]; intros i fuel Him Hi Hfuel.
  - replace i with (S k) by lia. pose proof (count_trace_closed e k H) as Hc.
    destruct fuel; cbn [Perm.orbit]; rewrite Hc; reflexivity.
  - destruct fuel as [|fuel]; [lia|]. cbn [Perm.orbit].
    rewrite (count_trace e k H i) by lia. change (1 <? 2) with true. cbv iota.
    destruct i as [|i]; [lia|]. rewrite trace_S at 1. rewrite last_last.
    rewrite Himage by (apply iter_range; apply H). cbn [bind].
    change (f (iter i e)) with (iter (S i) e). rewrite <- trace_S.
    apply IH; lia.
Qed.

Lemma orbit_returns e k fuel : back e k -> (k <= fuel)%nat ->
  Perm.orbit fuel cycles e [e] = Ok (trace f e (S k)).
Proof.
  intros H Hfuel. apply (orbit_run e k H k 1%nat fuel); lia.
Qed.

(** *** The outer loop *)

Lemma placed_snoc result r : placed (result ++ [r]) = placed result ++ removelast r.
Proof. unfold placed. rewrite map_app, concat_app. cbn. now rewrite app_nil_r. Qed.

Lemma removelast_trace e k : removelast (trace f e (S k)) = trace f e k.
Proof. rewrite trace_S. apply removelast_last. Qed.

Lemma hd_trace e k : hd 0 (trace f e (S k)) = e.
Proof. reflexivity. Qed.

Lemma trace_closed_In e k x : back e k ->
  In x (trace f e (S k)) <-> In x (trace f e k).
Proof.
  intros (He & Hk & Hret & _). rewrite trace_S, in_app_iff. split; [|now left].
  intros [H|[<-|[]]]; [assumption|]. apply trace_In. exists 0%nat. split; [lia|]. now rewrite Hret.
Qed.

Lemma inv_nil : Inv [].
Proof. constructor; cbn; try constructor. intros r x []. Qed.

Lemma placed_In result x : Inv result ->
  In x (placed result) <-> exists r, In r result /\ In x r.
Proof.
  intros Hinv. unfold placed. rewrite in_concat. split.
  - intros (c & Hc & Hx). apply in_map_iff in Hc as (r & <- & Hr). exists r. split; [assumption|].
    pose proof (inv_orbits _ Hinv) as Ho. rewrite Forall_forall in Ho.
    destruct (Ho r Hr) as (e & k & Hek & ->). rewrite removelast_trace in Hx.
    now apply trace_closed_In.
  - intros (r & Hr & Hx). exists (removelast r). split; [now apply in_map|].
    pose proof (inv_orbits _ Hinv) as Ho. rewrite Forall_forall in Ho.
    destruct (Ho r Hr) as (e & k & Hek & ->). rewrite removelast_trace.
    now apply trace_closed_In.
Qed.

Lemma placed_range result x : Inv result -> In x (placed result) -> 1 <= x <= n.
Proof.
  intros Hinv Hx. apply placed_In in Hx as (r & Hr & Hx); [|assumption].
  pose proof (inv_orbits _ Hinv) as Ho. rewrite Forall_forall in Ho.
  destruct (Ho r Hr) as (e & k & Hek & ->). eapply trace_range; [apply Hek|eassumption].
Qed.

Lemma unplaced_spec result x : Inv result ->
  Perm.unplaced result x = true <-> ~ In x (placed result).
Proof.
  intros Hinv. unfold Perm.unplaced. rewrite negb_true_iff, <- not_true_iff_false.
  rewrite existsb_exists, placed_In by assumption.
  split; intros H (r & Hr & Hx); apply H; exists r; (split; [assumption|]); now apply mem_In.
Qed.

(** Every placed point is the image of a placed point. *)
Lemma placed_pre result y : Inv result -> In y (placed result) ->
  exists x, In x (placed result) /\ f x = y.
Proof.
  intros Hinv Hy. apply placed_In in Hy as (r & Hr & Hy); [|assumption].
  pose proof (inv_orbits _ Hinv) as Ho. rewrite Forall_forall in Ho.
  destruct (Ho r Hr) as (e & k & Hek & ->).
  apply (trace_closed_In e k y Hek) in Hy. apply trace_In in Hy as (j & Hj & ->).
  assert (Hin : forall i, (i < k)%nat -> In (iter i e) (placed result)).
  { intros i Hi. apply placed_In; [assumption|]. exists (trace f e (S k)). split; [assumption|].
    apply trace_In. exists i. split; [lia|reflexivity]. }
  destruct j as [|j].
  - exists (iter (k - 1) e). split; [apply Hin; destruct Hek as (_ & ? & _); lia|].
    destruct Hek as (_ & Hk & Hret & _). change (f (iter (k - 1) e)) with (iter (S (k - 1)) e).
    replace (S (k - 1)) with k by lia. assumption.
  - exists (iter j e). split; [apply Hin; lia|reflexivity].
Qed.

(** The path of an unplaced point stays unplaced. *)
Lemma fresh_path result e : Inv result -> 1 <= e <= n -> ~ In e (placed result) ->
  forall j, ~ In (iter j e) (placed result).
Proof.
  intros Hinv He Hfresh j. induction j as [|j IH]; [assumption|].
  intros Hin. apply IH. destruct (placed_pre result _ Hinv Hin) as (x & Hx & E).
  replace (iter j e) with x; [assumption|].
  apply (proj2 Hperm); [now apply (placed_range result)|now apply iter_range|exact E].
Qed.

Lemma trace_NoDup e k : back e k -> NoDup (trace f e k).
Proof.
  intros (He & Hk & Hret & Hfirst). unfold trace.
  apply NoDup_map_NoDup_ForallPairs; [|apply seq_NoDup].
  intros i j Hi Hj E. apply in_seq in Hi, Hj.
  destruct (Nat.lt_trichotomy i j) as [L|[L|L]]; [|assumption|]; exfalso.
  - apply (Hfirst (j - i)%nat); [lia|].
    apply (iter_inj i); [now apply iter_range|assumption|].
    rewrite <- iter_add. replace (i + (j - i))%nat with j by lia. now symmetry.
  - apply (Hfirst (i - j)%nat); [lia|].
    apply (iter_inj j); [now apply iter_range|assumption|].
    rewrite <- iter_add. replace (j + (i - j))%nat with i by lia. assumption.
Qed.

Lemma inv_snoc result e k :
  Inv result -> back e k -> ~ In e (placed result) ->
  (forall x, 1 <= x <= n -> ~ In x (placed result) -> e <= x) ->
  Inv (result ++ [trace f e (S k)]).
Proof.
  intros Hinv Hek Hfresh Hmin.
  assert (He : 1 <= e <= n) by apply Hek.
  assert (Hpath : forall x, In x (trace f e k) -> ~ In x (placed result)).
  { intros x Hx. apply trace_In in Hx as (j & _ & ->). now apply fresh_path. }
  constructor.
  - apply Forall_app. split; [apply Hinv|]. constructor; [|constructor]. now exists e, k.
  - rewrite placed_snoc, removelast_trace.
    apply NoDup_app; [apply Hinv|now apply trace_NoDup|].
    intros x Hx Hx'. now apply (Hpath x).
  - rewrite map_app, placed_snoc, removelast_trace, length_app. cbn [map].
    rewrite sum_snoc, (inv_sum _ Hinv), !trace_length. lia.
  - intros r x Hr Hx Hnot. rewrite placed_snoc, removelast_trace, in_app_iff in Hnot.
    apply in_app_iff in Hr as [Hr|[<-|[]]].
    + apply (inv_heads _ Hinv); tauto.
    + rewrite hd_trace. assert (e <= x) by (apply Hmin; tauto).
      assert (e <> x); [|lia]. intros <-. apply Hnot. right.
      apply trace_In. exists 0%nat. split; [destruct Hek as (_ & ? & _); lia|reflexivity].
  - rewrite map_app. cbn [map]. rewrite hd_trace. apply snoc_sorted; [apply Hinv|].
    intros x Hx. apply in_map_iff in Hx as (r & <- & Hr). now apply (inv_heads _ Hinv).
  - apply Forall_app. split; [apply Hinv|]. constructor; [|constructor].
    rewrite hd_trace. apply Forall_forall. intros x Hx.
    apply (trace_closed_In e k x Hek) in Hx. apply Hmin.
    + eapply trace_range; eassumption.
    + now apply Hpath.
Qed.

Lemma placed_length result : Inv result -> (length (placed result) <= Z.to_nat n)%nat.
Proof.
  intros Hinv. replace (Z.to_nat n) with (length (range 1 (n + 1)))
    by (rewrite range_length; f_equal; lia).
  apply NoDup_incl_length; [apply Hinv|].
  intros x Hx. apply range_In. apply placed_range in Hx; [lia|assumption].
Qed.

Lemma unplaced_exists result : Inv result -> Z.of_nat (length (placed result)) < n ->
  filter (Perm.unplaced result) (range 1 (n + 1)) <> [].
Proof.
  intros Hinv Hlt Hnil.
  assert (Hincl : incl (range 1 (n + 1)) (placed result)).
  { intros x Hx. destruct (in_dec Z.eq_dec x (placed result)) as [|Hno]; [assumption|].
    exfalso. assert (Hf : In x (filter (Perm.unplaced result) (range 1 (n + 1)))).
    { apply filter_In. split; [assumption|]. now apply unplaced_spec. }
    rewrite Hnil in Hf. destruct Hf. }
  apply NoDup_incl_length in Hincl; [|apply range_NoDup].
  rewrite range_length in Hincl. lia.
Qed.

(** The outer loop places every point of {1..n}. *)
Lemma apply_loop_run : forall m fuel inner result,
  Inv result -> (Z.to_nat n - length (placed result) <= m)%nat ->
  (m <= fuel)%nat -> (Z.to_nat n <= inner)%nat ->
  exists result', Perm.apply_loop fuel inner n cycles result = Ok result' /\
    Inv result' /\ ~ Z.of_nat (length (placed result')) < n.
Proof.
  induction m as [|m IH]; intros fuel inner result Hinv Hm Hfuel Hinner.
  - exists result. assert (Hdone : ~ Z.of_nat (length (placed result)) < n) by lia.
    split; [|now split].
    destruct fuel; cbn [Perm.apply_loop]; rewrite (inv_sum _ Hinv);
      apply Z.ltb_nlt in Hdone; rewrite Hdone; reflexivity.
  - destruct (Z.ltb_spec (Z.of_nat (length (placed result))) n) as [Hlt|Hge].
    + destruct fuel as [|fuel]; [lia|]. cbn [Perm.apply_loop]. rewrite (inv_sum _ Hinv).
      apply Z.ltb_lt in Hlt as Hlt'. rewrite Hlt'.
      destruct (py_min_nonempty _ (unplaced_exists result Hinv Hlt)) as (e & Emin).
      rewrite Emin. cbn [bind]. apply py_min_spec in Emin as (Hein & Hemin).
      apply filter_In in Hein as (Hrange & Hun). apply range_In in Hrange.
      apply unplaced_spec in Hun; [|assumption].
      assert (He : 1 <= e <= n) by lia.
      destruct (first_return e He) as (k & Hk & Hek).
      rewrite (orbit_returns e k inner Hek) by lia. cbn [bind].
      assert (Hinv' : Inv (result ++ [trace f e (S k)])).
      { apply inv_snoc; try assumption. intros x Hx Hnot. apply Hemin.
        apply filter_In. split; [apply range_In; lia|now apply unplaced_spec]. }
      apply IH; try assumption; [|lia].
      rewrite placed_snoc, removelast_trace, length_app, trace_length.
      destruct Hek as (_ & ? & _). lia.
    + exists result. split; [|split; [assumption|lia]].
      destruct fuel; cbn [Perm.apply_loop]; rewrite (inv_sum _ Hinv);
        apply Z.ltb_ge in Hge; rewrite Hge; reflexivity.
Qed.

Lemma inv_canonical result : Inv result -> ~ Z.of_nat (length (placed result)) < n ->
  canonical f n (map (@removelast Z) result).
Proof.
  intros Hinv Hdone. pose proof (inv_orbits _ Hinv) as Ho. rewrite Forall_forall in Ho.
  constructor.
  - intros x. split; [|now apply placed_range].
    intros Hx. apply (@NoDup_length_incl Z (placed result) (range 1 (n + 1)) (inv_once _ Hinv)).
    + rewrite range_length. lia.
    + intros y Hy. apply range_In. apply placed_range in Hy; [lia|assumption].
    + apply range_In. lia.
  - apply Hinv.
  - rewrite map_map. rewrite (map_ext_in _ (hd 0)); [apply Hinv|].
    intros r Hr. destruct (Ho r Hr) as (e & k & Hek & ->). rewrite removelast_trace.
    destruct Hek as (_ & Hk & _). destruct k; [lia|reflexivity].
  - apply Forall_forall. intros c Hc. apply in_map_iff in Hc as (r & <- & Hr).
    destruct (Ho r Hr) as (e & k & Hek & ->). rewrite removelast_trace.
    pose proof (inv_least _ Hinv) as Hl. rewrite Forall_forall in Hl. specialize (Hl _ Hr).
    rewrite hd_trace in Hl. rewrite Forall_forall in Hl.
    destruct Hek as (He & Hk & Hret & Hfirst). destruct k as [|k]; [lia|].
    split; [discriminate|]. rewrite hd_trace. apply Forall_forall. intros x Hx.
    apply Hl. rewrite (trace_S e (S k)). apply in_app_iff. now left.
  - apply Forall_forall. intros c Hc. apply in_map_iff in Hc as (r & <- & Hr).
    destruct (Ho r Hr) as (e & k & Hek & ->). rewrite removelast_trace, trace_length.
    intros i Hi. rewrite trace_nth by assumption.
    destruct Hek as (He & Hk & Hret & Hfirst).
    destruct (Nat.eq_dec (S i) k) as [E|Hne].
    + rewrite E, Nat.Div0.mod_same, trace_nth by lia. cbn [Nat.iter].
      rewrite <- Hret at 2. rewrite <- E. reflexivity.
    + rewrite Nat.mod_small, trace_nth by lia. reflexivity.
Qed.

(** [apply] writes the canonical decomposition of the mapping. *)
Lemma apply_canonical fuel : (Z.to_nat n <= fuel)%nat ->
  exists cs, Perm.apply fuel n cycles = Ok (text_of cs) /\ canonical f n cs.
Proof.
  intros Hfuel.
  destruct (apply_loop_run (Z.to_nat n) fuel fuel [] inv_nil) as (result & E & Hinv & Hdone);
    try lia.
  exists (map (@removelast Z) result). split; [|now apply inv_canonical].
  unfold Perm.apply. rewrite E. cbn [bind]. unfold Perm.render, text_of.
  now rewrite map_map.
Qed.

End Orbits.

(** *** There is one canonical decomposition *)

Lemma canonical_ordered f n cs : canonical f n cs -> ordered_cycles f cs.
Proof. intros [_ H1 H2 H3 H4]. repeat split; assumption. Qed.

Section One_cycle.

Variables (f : Z -> Z) (c : list Z).
Hypothesis Hcycle : forall i, (i < length c)%nat ->
  f (nth i c 0) = nth (S i mod length c) c 0.

Lemma cycle_entries i : (i < length c)%nat -> nth i c 0 = Nat.iter i f (hd 0 c).
Proof.
  induction i as [|i IH]; intros Hi.
  - destruct c; [cbn in Hi; lia|reflexivity].
  - rewrite Nat.iter_succ, <- IH by lia. rewrite Hcycle by lia.
    now rewrite Nat.mod_small.
Qed.

Lemma cycle_closes : c <> [] -> Nat.iter (length c) f (hd 0 c) = hd 0 c.
Proof.
  intros Hne.
  assert (EL : exists k, length c = S k).
  { destruct c as [|x l]; [congruence|]. now exists (length l). }
  destruct EL as (k & EL).
  replace (Nat.iter (length c) f (hd 0 c)) with (Nat.iter (S k) f (hd 0 c)) by now rewrite EL.
  rewrite Nat.iter_succ, <- cycle_entries by lia. rewrite Hcycle by lia.
  rewrite <- EL, Nat.Div0.mod_same. destruct c; [congruence|reflexivity].
Qed.

End One_cycle.

Lemma same_head_shorter f c c' :
  (forall i, (i < length c)%nat -> f (nth i c 0) = nth (S i mod length c) c 0) ->
  (forall i, (i < length c')%nat -> f (nth i c' 0) = nth (S i mod length c') c' 0) ->
  c <> [] -> NoDup c' -> hd 0 c = hd 0 c' -> (length c' <= length c)%nat.
Proof.
  intros Hc Hc' Hne Hnd Hhd.
  destruct (le_lt_dec (length c') (length c)) as [|Hlt]; [assumption|exfalso].
  assert (HL : (0 < length c)%nat) by (destruct c; [congruence|cbn; lia]).
  pose proof (cycle_entries f c' Hc' (length c) Hlt) as E.
  rewrite <- Hhd, (cycle_closes f c Hc Hne), Hhd in E.
  assert (E0 : nth 0 c' 0 = hd 0 c') by (destruct c'; reflexivity).
  rewrite <- E0 in E. apply (proj1 (NoDup_nth c' 0) Hnd) in E; lia.
Qed.

Lemma same_head_same_cycle f c c' :
  (forall i, (i < length c)%nat -> f (nth i c 0) = nth (S i mod length c) c 0) ->
  (forall i, (i < length c')%nat -> f (nth i c' 0) = nth (S i mod length c') c' 0) ->
  c <> [] -> c' <> [] -> NoDup c -> NoDup c' -> hd 0 c = hd 0 c' -> c = c'.
Proof.
  intros Hc Hc' Hne Hne' Hnd Hnd' Hhd.
  assert (HL : length c = length c').
  { apply Nat.le_antisymm; eapply same_head_shorter; eauto. }
  apply (nth_ext c c' 0 0 HL). intros i Hi.
  rewrite (cycle_entries f c Hc i Hi), (cycle_entries f c' Hc' i) by lia. now rewrite Hhd.
Qed.

Lemma first_head_least f c cs x : ordered_cycles f (c :: cs) ->
  In x (concat (c :: cs)) -> hd 0 c <= x.
Proof.
  intros (_ & Hs & Hl & _) Hx. cbn in Hx. apply in_app_iff in Hx as [Hx|Hx].
  - inversion Hl as [|? ? [_ Hmin] _]; subst. rewrite Forall_forall in Hmin. now apply Hmin.
  - apply in_concat in Hx as (c2 & Hc2 & Hx).
    inversion Hs as [|? ? _ Hlt]; subst. rewrite Forall_forall in Hlt.
    assert (hd 0 c < hd 0 c2) by (apply Hlt; now apply in_map).
    inversion Hl as [|? ? _ Hl']; subst. rewrite Forall_forall in Hl'.
    destruct (Hl' c2 Hc2) as [_ Hmin]. rewrite Forall_forall in Hmin.
    specialize (Hmin x Hx). lia.
Qed.

Lemma ordered_tail f c cs : ordered_cycles f (c :: cs) -> ordered_cycles f cs.
Proof.
  intros (H1 & H2 & H3 & H4). repeat split.
  - cbn in H1. now apply NoDup_app_remove_l in H1.
  - now inversion H2.
  - now inversion H3.
  - now inversion H4.
Qed.

Lemma ordered_unique f : forall cs cs',
  ordered_cycles f cs -> ordered_cycles f cs' ->
  (forall x, In x (concat cs) <-> In x (concat cs')) -> cs = cs'.
Proof.
  induction cs as [|c cs IH]; intros cs' H H' Hsame.
  - destruct cs' as [|c' cs']; [reflexivity|exfalso].
    destruct H' as (_ & _ & Hl & _). inversion Hl as [|? ? [Hne _] _]; subst.
    destruct c' as [|x c']; [congruence|]. apply (Hsame x). cbn. now left.
  - destruct cs' as [|c' cs'].
    { exfalso. destruct H as (_ & _ & Hl & _). inversion Hl as [|? ? [Hne _] _]; subst.
      destruct c as [|x c]; [congruence|]. apply (Hsame x). cbn. now left. }
    assert (Hne : c <> []) by (destruct H as (_ & _ & Hl & _); now inversion Hl).
    assert (Hne' : c' <> []) by (destruct H' as (_ & _ & Hl & _); now inversion Hl).
    assert (Hin : In (hd 0 c) (concat (c :: cs))).
    { cbn. apply in_app_iff. left. destruct c; [congruence|now left]. }
    assert (Hin' : In (hd 0 c') (concat (c' :: cs'))).
    { cbn. apply in_app_iff. left. destruct c'; [congruence|now left]. }
    assert (Hhd : hd 0 c = hd 0 c').
    { apply Z.le_antisymm.
      - apply (first_head_least f c cs); [assumption|]. now apply Hsame.
      - apply (first_head_least f c' cs'); [assumption|]. now apply Hsame. }
    assert (Ec : c = c').
    { destruct H as (Hnd & _ & _ & Hcyc). destruct H' as (Hnd' & _ & _ & Hcyc').
      cbn in Hnd, Hnd'. apply (same_head_same_cycle f).
      - now inversion Hcyc.
      - now inversion Hcyc'.
      - assumption.
      - assumption.
      - now apply NoDup_app_remove_r in Hnd.
      - now apply NoDup_app_remove_r in Hnd'.
      - assumption. }
    subst c'. f_equal. apply IH; [eapply ordered_tail; eassumption..|].
    assert (Hdis : forall ds, NoDup (concat (c :: ds)) ->
              forall x, In x (concat ds) -> ~ In x c).
    { intros ds Hnd x Hx Hxc. cbn in Hnd. clear - Hnd Hx Hxc.
      induction c as [|y c IHc]; [destruct Hxc|]. cbn in Hnd. inversion Hnd; subst.
      destruct Hxc as [->|Hxc]; [|now apply IHc].
      apply H1. apply in_app_iff. now right. }
    intros x. split; intros Hx.
    + assert (Hx' : In x (concat (c :: cs'))) by (apply Hsame; cbn; apply in_app_iff; now right).
      cbn in Hx'. apply in_app_iff in Hx' as [Hx'|Hx']; [|assumption].
      exfalso. now apply (Hdis cs (proj1 H) x).
    + assert (Hx' : In x (concat (c :: cs))) by (apply Hsame; cbn; apply in_app_iff; now right).
      cbn in Hx'. apply in_app_iff in Hx' as [Hx'|Hx']; [|assumption].
      exfalso. now apply (Hdis cs' (proj1 H') x).
Qed.

(** The canonical decomposition of a mapping is unique. *)
Lemma canonical_unique f n cs cs' : canonical f n cs -> canonical f n cs' -> cs = cs'.
Proof.
  intros H H'. apply (ordered_unique f); [eapply canonical_ordered; eassumption..|].
  intros x. now rewrite <- (can_cover _ _ _ H), <- (can_cover _ _ _ H').
Qed.

(** *** [apply] only looks at the mapping on the ground set *)

Section Same_mapping.

Variables (c1 c2 : list (list Z)) (n : Z).
Hypothesis Hsame : forall x, 1 <= x <= n -> Perm.image c1 x = Perm.image c2 x.
Hypothesis Hstay : forall x v, 1 <= x <= n -> Perm.image c1 x = Ok v -> 1 <= v <= n.

Lemma orbit_same fuel element : forall cur, 1 <= last cur 0 <= n ->
  Perm.orbit fuel c1 element cur = Perm.orbit fuel c2 element cur.
Proof.
  induction fuel as [|fuel IH]; intros cur Hlast; cbn [Perm.orbit]; [reflexivity|].
  destruct (count element cur <? 2); [|reflexivity].
  rewrite <- (Hsame _ Hlast).
  destruct (Perm.image c1 (last cur 0)) as [new| |] eqn:E; cbn [bind]; try reflexivity.
  apply IH. rewrite last_last. eapply Hstay; eassumption.
Qed.

Lemma apply_loop_same fuel inner : forall result,
  Perm.apply_loop fuel inner n c1 result = Perm.apply_loop fuel inner n c2 result.
Proof.
  induction fuel as [|fuel IH]; intros result; cbn [Perm.apply_loop]; [reflexivity|].
  destruct (_ <? n); [|reflexivity].
  destruct (py_min _) as [element| |] eqn:E; cbn [bind]; try reflexivity.
  apply py_min_spec in E as [Hin _]. apply filter_In in Hin as [Hin _].
  apply range_In in Hin.
  rewrite (orbit_same inner element [element]) by (cbn; lia).
  destruct (Perm.orbit inner c2 element [element]); cbn [bind]; try reflexivity.
  apply IH.
Qed.

Lemma apply_same fuel : Perm.apply fuel n c1 = Perm.apply fuel n c2.
Proof. unfold Perm.apply. now rewrite apply_loop_same. Qed.

End Same_mapping.

(** C2: two texts that describe the same permutation [f] of {1..n} are
    constructed into permutations with the same full text, and that text is
    the canonical decomposition of [f], of which there is one: every point
    of {1..n} in exactly one cycle, the cycles in the order of their smallest
    entries, each cycle starting at its smallest entry. *)
Theorem construct_canonical_unique (n : Z) (f : Z -> Z) (t1 t2 : list ascii)
    (m1 m2 : option Z) :
  permutes f n -> describes t1 m1 n f -> describes t2 m2 n f ->
  exists p1 p2 cs,
    returns (fun fuel => construct fuel t1 m1) p1 /\
    returns (fun fuel => construct fuel t2 m2) p2 /\
    fullText p1 = fullText p2 /\
    fullText p1 = text_of cs /\ canonical f n cs /\
    forall cs', canonical f n cs' -> cs' = cs.
Proof.
  intros Hperm (d1 & P1 & G1 & I1) (d2 & P2 & G2 & I2).
  destruct (apply_canonical d1 n f I1 Hperm (Z.to_nat n) (Nat.le_refl _)) as (cs & A1 & Hcan).
  assert (A2 : Perm.apply (Z.to_nat n) n d2 = Ok (text_of cs)).
  { rewrite <- A1. symmetry. apply apply_same.
    - intros x Hx. now rewrite I1, I2.
    - intros x v Hx E. rewrite I1 in E by assumption. injection E as <-.
      now apply (proj1 Hperm). }
  exists {| Perm.description := d1; Perm.max := n; Perm.string := text_of cs |},
         {| Perm.description := d2; Perm.max := n; Perm.string := text_of cs |}, cs.
  split; [|split; [|split; [reflexivity|split; [reflexivity|split; [exact Hcan|]]]]];
    [| |intros cs' Hcan'; now apply (canonical_unique f n)].
  - apply (mono_returns _ (Z.to_nat n)); [apply init_mono|].
    unfold construct, Perm.__init__. rewrite P1. cbn [bind]. rewrite G1. cbn [bind].
    rewrite A1. reflexivity.
  - apply (mono_returns _ (Z.to_nat n)); [apply init_mono|].
    unfold construct, Perm.__init__. rewrite P2. cbn [bind]. rewrite G2. cbn [bind].
    rewrite A2. reflexivity.
Qed.

(** The texts "(12)(3)" and "(21)" with ground size 3. *)
Lemma construct_canonical_unique_witness :
  exists p1 p2 cs,
    returns (fun fuel => construct fuel (py "(12)(3)") None) p1 /\
    returns (fun fuel => construct fuel (py "(21)") (Some 3)) p2 /\
    fullText p1 = fullText p2 /\
    fullText p1 = text_of cs /\ canonical swap12 3 cs /\
    forall cs', canonical swap12 3 cs' -> cs' = cs.
Proof.
  apply (construct_canonical_unique 3 swap12).
  - split.
    + intros x Hx. unfold swap12. destruct (x =? 1) eqn:E1; [lia|].
      destruct (x =? 2) eqn:E2; lia.
    + intros x y Hx Hy. unfold swap12.
      destruct (x =? 1) eqn:E1; destruct (y =? 1) eqn:E2;
      destruct (x =? 2) eqn:E3; destruct (y =? 2) eqn:E4; lia.
  - eexists. split; [reflexivity|]. split; [reflexivity|].
    intros x Hx. assert (H : x = 1 \/ x = 2 \/ x = 3) by lia.
    destruct H as [->|[->| ->]]; reflexivity.
  - eexists. split; [reflexivity|]. split; [reflexivity|].
    intros x Hx. assert (H : x = 1 \/ x = 2 \/ x = 3) by lia.
    destruct H as [->|[->| ->]]; reflexivity.
Defined.

(** *** Equality and the hash *)

Lemma is_digit_int_char c : is_digit c = true -> int_char c = Ok (Z.of_N (N_of_ascii c) - 48).
Proof. unfold int_char. now intros ->. Qed.

Lemma mapM_zero_filled s :
  mapM int_char (map (fun c => if is_digit c then c else "0"%char) s)
  = Ok (map (fun c => if is_digit c then Z.of_N (N_of_ascii c) - 48 else 0) s).
Proof.
  induction s as [|c s IH]; [reflexivity|]. cbn [map mapM].
  destruct (is_digit c) eqn:D.
  - rewrite (is_digit_int_char c D). cbn [bind]. rewrite IH. reflexivity.
  - change (int_char "0") with (Ok 0). cbn [bind]. rewrite IH. reflexivity.
Qed.

Lemma horner_decimal ds : forall acc,
  fold_left (fun acc d => 10 * acc + d) ds acc = acc * 10 ^ Z.of_nat (length ds) + decimal ds.
Proof.
  induction ds as [|d ds IH]; intros acc; cbn [fold_left decimal length].
  - cbn. lia.
  - rewrite IH. rewrite Nat2Z.inj_succ, Z.pow_succ_r by lia. ring.
Qed.

Lemma hash_value (p : Perm.t) :
  Perm.string p <> [] -> Perm.__hash__ p = Ok (zero_filled_value (Perm.string p)).
Proof.
  intros Hne. unfold Perm.__hash__, zero_filled_value.
  destruct (Perm.string p) as [|c s]; [congruence|].
  pose proof (mapM_zero_filled (c :: s)) as H. cbn [map] in H |- *.
  unfold int_str. rewrite H. cbn [bind]. rewrite horner_decimal. f_equal; lia.
Qed.

Lemma apply_nonempty fuel maximum cycles s : Perm.apply fuel maximum cycles = Ok s -> s <> [].
Proof.
  unfold Perm.apply. destruct (Perm.apply_loop _ _ _ _ _); cbn; try discriminate.
  intros [= <-]. discriminate.
Qed.

Lemma constructed_string p : constructed p -> Perm.string p <> [].
Proof.
  intros (fuel & d & m & H). unfold Perm.__init__ in H.
  destruct (Perm.parse d); cbn in H; try discriminate.
  destruct (Perm.ground m a); cbn in H; try discriminate.
  destruct (Perm.apply fuel a0 a) eqn:E; cbn in H; try discriminate.
  injection H as <-. cbn. eapply apply_nonempty; eauto.
Qed.

(** C3, as the code has it: the hash of a permutation is the number its full
    text denotes once every parenthesis is read as the digit 0 (they are not
    removed), and [equals] holds exactly when these numbers agree. *)
Theorem equals_iff_zero_filled (a b : Perm.t) :
  constructed a -> constructed b ->
  Perm.__hash__ a = Ok (zero_filled_value (fullText a)) /\
  Perm.__hash__ b = Ok (zero_filled_value (fullText b)) /\
  exists r, equals a b = Ok r /\
    (r = true <-> zero_filled_value (fullText a) = zero_filled_value (fullText b)).
Proof.
  intros Ha Hb. apply constructed_string in Ha, Hb.
  pose proof (hash_value a Ha) as Ea. pose proof (hash_value b Hb) as Eb.
  unfold fullText, Perm.__repr__, equals, Perm.__eq__. rewrite Ea, Eb. cbn [bind].
  repeat split; try reflexivity.
  eexists; split; [reflexivity|]. apply Z.eqb_eq.
Qed.

(** "(12)(3)" and "(1)(23)" are told apart: 120030 against 100230. *)
Lemma equals_iff_zero_filled_witness :
  exists a b, Perm.__init__ 9 (py "(12)(3)") None = Ok a /\
    Perm.__init__ 9 (py "(1)(23)") None = Ok b /\
    equals a b = Ok false /\ Perm.__hash__ a = Ok 120030 /\ Perm.__hash__ b = Ok 100230.
Proof.
  eexists; eexists. split; [vm_compute; reflexivity|]. split; [vm_compute; reflexivity|].
  match goal with |- equals ?a ?b = _ /\ _ =>
    assert (Ha : constructed a) by (exists 9%nat, (py "(12)(3)"), None; vm_compute; reflexivity);
    assert (Hb : constructed b) by (exists 9%nat, (py "(1)(23)"), None; vm_compute; reflexivity);
    destruct (equals_iff_zero_filled a b Ha Hb) as (E1 & E2 & r & E3 & E4)
  end.
  split; [|split].
  - rewrite E3. destruct r; [|reflexivity]. destruct E4 as [E4 _]. specialize (E4 eq_refl).
    vm_compute in E4. discriminate.
  - rewrite E1. reflexivity.
  - rewrite E2. reflexivity.
Defined.

(** C3 as stated fails: with the parentheses removed both texts read 123,
    yet the permutations are not equal and the hash is not 123. *)
Lemma equals_digits_only_counterexample :
  exists a b, returns (fun fuel => construct fuel (py "(12)(3)") None) a /\
    returns (fun fuel => construct fuel (py "(1)(23)") None) b /\
    digits_only (fullText a) = Ok 123 /\ digits_only (fullText b) = Ok 123 /\
    equals a b = Ok false /\ Perm.__hash__ a = Ok 120030.
Proof.
  eexists; eexists.
  split; [apply (mono_returns _ 9%nat); [apply init_mono|vm_compute; reflexivity]|].
  split; [apply (mono_returns _ 9%nat); [apply init_mono|vm_compute; reflexivity]|].
  repeat split; vm_compute; reflexivity.
Qed.

(** *** One cycle *)

Lemma pos_In x l : In x l -> (pos x l < length l)%nat /\ nth (pos x l) l 0 = x.
Proof.
  induction l as [|y l IH]; [intros []|]. intros H. cbn [pos].
  destruct (Z.eqb_spec x y) as [->|Hne]; cbn; [split; [lia|reflexivity]|].
  destruct H as [->|H]; [congruence|]. destruct (IH H). split; [lia|assumption].
Qed.

Lemma index_pos x l : In x l -> index x l = Ok (pos x l).
Proof.
  induction l as [|y l IH]; [intros []|]. intros H. cbn [pos index].
  destruct (Z.eqb_spec x y) as [->|Hne]; [reflexivity|].
  destruct H as [->|H]; [congruence|]. rewrite (IH H). reflexivity.
Qed.

Lemma pos_app x l l' : In x l -> pos x (l ++ l') = pos x l.
Proof.
  induction l as [|y l IH]; [intros []|]. intros H. cbn [pos app].
  destruct (Z.eqb_spec x y) as [->|Hne]; [reflexivity|].
  destruct H as [->|H]; [congruence|]. now rewrite IH.
Qed.

Lemma pos_nth l i : NoDup l -> (i < length l)%nat -> pos (nth i l 0) l = i.
Proof.
  intros Hnd. revert i. induction Hnd as [|y l Hy Hnd IH]; intros i Hi; [cbn in Hi; lia|].
  destruct i as [|i]; cbn [nth pos].
  - now rewrite Z.eqb_refl.
  - cbn in Hi. destruct (Z.eqb_spec (nth i l 0) y) as [E|_].
    + exfalso. apply Hy. rewrite <- E. apply nth_In. lia.
    + f_equal. apply IH. lia.
Qed.

(** On a doubled cycle [step] never fails. *)
Lemma step_double c x : Perm.step (double c) x = Ok (next c x).
Proof.
  unfold next. unfold Perm.step. destruct (mem x (double c)) eqn:M; [|reflexivity].
  apply mem_In in M. unfold double in *.
  assert (Hin : In x c) by (apply in_app_iff in M; tauto).
  rewrite index_pos by assumption. cbn [bind]. rewrite pos_app by assumption.
  destruct (pos_In x c Hin) as [Hlt _]. unfold getitem.
  destruct (nth_error (c ++ c) (S (pos x c))) eqn:E; [reflexivity|].
  apply nth_error_None in E. rewrite length_app in E. lia.
Qed.

Lemma next_out c x : ~ In x c -> next c x = x.
Proof.
  intros H. unfold next, Perm.step. destruct (mem x (double c)) eqn:M; [|reflexivity].
  apply mem_In in M. unfold double in M. apply in_app_iff in M. tauto.
Qed.

Lemma next_at c x : In x c -> next c x = nth (S (pos x c) mod length c) c 0.
Proof.
  intros Hin. unfold next, Perm.step.
  assert (M : mem x (double c) = true) by (apply mem_In, in_app_iff; now left).
  rewrite M. unfold double. rewrite index_pos by (apply in_app_iff; now left). cbn [bind].
  rewrite pos_app by assumption. destruct (pos_In x c Hin) as [Hlt _].
  unfold getitem. destruct (Nat.eq_dec (S (pos x c)) (length c)) as [E|Hne].
  - rewrite E, Nat.Div0.mod_same.
    rewrite nth_error_app2 by lia. rewrite Nat.sub_diag.
    destruct c; [cbn in Hlt; lia|reflexivity].
  - rewrite Nat.mod_small by lia. rewrite nth_error_app1 by lia.
    rewrite (nth_error_nth' c 0) by lia. reflexivity.
Qed.

Lemma next_nth c i : NoDup c -> (i < length c)%nat ->
  next c (nth i c 0) = nth (S i mod length c) c 0.
Proof.
  intros Hnd Hi. rewrite next_at by (apply nth_In; lia). now rewrite pos_nth.
Qed.

Lemma next_In c x : In x c -> In (next c x) c.
Proof.
  intros Hin. rewrite next_at by assumption. apply nth_In.
  apply Nat.mod_upper_bound. destruct c; [destruct Hin|discriminate].
Qed.

Lemma next_inj c x y : NoDup c -> In x c -> In y c -> next c x = next c y -> x = y.
Proof.
  intros Hnd Hx Hy E.
  destruct (pos_In x c Hx) as [Lx Ex]. destruct (pos_In y c Hy) as [Ly Ey].
  rewrite !next_at in E by assumption.
  assert (Hpos : length c <> 0%nat) by lia.
  apply (proj1 (NoDup_nth c 0) Hnd) in E; try (apply Nat.mod_upper_bound; assumption).
  assert (pos x c = pos y c).
  { destruct (Nat.eq_dec (S (pos x c)) (length c)) as [E1|N1];
    destruct (Nat.eq_dec (S (pos y c)) (length c)) as [E2|N2].
    - lia.
    - rewrite E1, Nat.Div0.mod_same, (Nat.mod_small (S (pos y c))) in E by lia. lia.
    - rewrite E2, Nat.Div0.mod_same, (Nat.mod_small (S (pos x c))) in E by lia. lia.
    - rewrite !Nat.mod_small in E by lia. lia. }
  congruence.
Qed.

(** *** Disjoint cycles *)

Lemma image_double cs x : Perm.image (map double cs) x = Ok (via cs x).
Proof.
  revert x. induction cs as [|c cs IH]; intros x; [reflexivity|].
  cbn [map Perm.image]. rewrite step_double. cbn [bind]. rewrite IH. reflexivity.
Qed.

Lemma via_out cs x : ~ In x (concat cs) -> via cs x = x.
Proof.
  revert x. induction cs as [|c cs IH]; intros x H; [reflexivity|].
  cbn in H. rewrite in_app_iff in H. unfold via. cbn [fold_left].
  rewrite next_out by tauto. apply IH. tauto.
Qed.

Lemma via_in cs c x : NoDup (concat cs) -> In c cs -> In x c -> via cs x = next c x.
Proof.
  revert x. induction cs as [|a cs IH]; intros x Hnd Hc Hx; [destruct Hc|].
  cbn in Hnd. unfold via. cbn [fold_left].
  assert (Hdis : forall z, In z a -> ~ In z (concat cs)).
  { intros z Hz Hz'. revert Hnd Hz Hz'. clear. induction a as [|y a IH]; cbn; [tauto|].
    intros Hnd [->|Hz] Hz'.
    - inversion Hnd; subst. apply H1. apply in_app_iff. tauto.
    - inversion Hnd; subst. now apply IH. }
  destruct Hc as [->|Hc].
  - apply via_out. apply Hdis. now apply next_In.
  - assert (Hxa : ~ In x a).
    { intros Hxa. apply (Hdis x Hxa). apply in_concat. now exists c. }
    rewrite next_out by assumption. apply IH; try assumption.
    now apply NoDup_app_remove_l in Hnd.
Qed.

Lemma concat_cases (cs : list (list Z)) x :
  (exists c, In c cs /\ In x c) \/ ~ In x (concat cs).
Proof.
  destruct (in_dec Z.eq_dec x (concat cs)) as [H|H]; [left|now right].
  apply in_concat in H as (c & ? & ?). now exists c.
Qed.

Lemma same_cycle (cs : list (list Z)) c c' z : NoDup (concat cs) -> In c cs -> In c' cs ->
  In z c -> In z c' -> c = c'.
Proof.
  induction cs as [|a cs IH]; intros Hnd Hc Hc' Hz Hz'; [destruct Hc|].
  cbn in Hnd.
  assert (Hdis : forall b y, In b cs -> In y a -> In y b -> False).
  { intros b y Hb Hya Hyb. revert Hnd Hya. clear - Hb Hyb.
    induction a as [|w a IH]; cbn; [tauto|]. intros Hnd [->|Hya].
    - inversion Hnd; subst. apply H1. apply in_app_iff. right. apply in_concat. now exists b.
    - inversion Hnd; subst. now apply IH. }
  destruct Hc as [->|Hc]; destruct Hc' as [->|Hc']; try reflexivity.
  - exfalso. eapply (Hdis c' z); eassumption.
  - exfalso. eapply (Hdis c z); eassumption.
  - apply IH; try assumption. now apply NoDup_app_remove_l in Hnd.
Qed.

Lemma NoDup_concat_each (cs : list (list Z)) c : NoDup (concat cs) -> In c cs -> NoDup c.
Proof.
  induction cs as [|a cs IH]; intros Hnd Hc; [destruct Hc|]. cbn in Hnd.
  destruct Hc as [->|Hc].
  - now apply NoDup_app_remove_r in Hnd.
  - apply IH; [|assumption]. now apply NoDup_app_remove_l in Hnd.
Qed.

(** Disjoint cycles within {1..n} act as a permutation of {1..m}, n <= m. *)
Lemma via_permutes cs n m : NoDup (concat cs) ->
  (forall x, In x (concat cs) -> 1 <= x <= n) -> n <= m -> permutes (via cs) m.
Proof.
  intros Hnd Hrange Hnm.
  assert (Hvia : forall x c, In c cs -> In x c -> In (via cs x) c).
  { intros x c Hc Hx. rewrite (via_in cs c x) by assumption. now apply next_In. }
  split.
  - intros x Hx. destruct (concat_cases cs x) as [(c & Hc & Hxc)|Hout].
    + specialize (Hvia x c Hc Hxc).
      assert (1 <= via cs x <= n); [|lia]. apply Hrange. apply in_concat. now exists c.
    + now rewrite via_out.
  - intros x y _ _ E.
    destruct (concat_cases cs x) as [(c & Hc & Hxc)|Hx];
    destruct (concat_cases cs y) as [(c' & Hc' & Hyc)|Hy].
    + pose proof (Hvia x c Hc Hxc) as H1. pose proof (Hvia y c' Hc' Hyc) as H2.
      rewrite E in H1. assert (c = c') by (eapply same_cycle; eassumption). subst c'.
      rewrite !(via_in cs c) in E by assumption.
      apply (next_inj c); [eapply NoDup_concat_each; eassumption|assumption..].
    + exfalso. apply Hy. rewrite (via_out cs y Hy) in E. rewrite <- E.
      apply in_concat. exists c. split; [assumption|]. now apply Hvia.
    + exfalso. apply Hx. rewrite (via_out cs x Hx) in E. rewrite E.
      apply in_concat. exists c'. split; [assumption|]. now apply Hvia.
    + now rewrite !via_out in E.
Qed.

Lemma concat_rev_perm (cs : list (list Z)) : Permutation (concat cs) (concat (rev cs)).
Proof.
  induction cs as [|c cs IH]; [constructor|]. cbn. rewrite concat_app. cbn.
  rewrite app_nil_r. etransitivity; [|apply Permutation_app_comm].
  now apply Permutation_app_head.
Qed.

Lemma NoDup_concat_rev (cs : list (list Z)) : NoDup (concat cs) -> NoDup (concat (rev cs)).
Proof. apply Permutation_NoDup, concat_rev_perm. Qed.

(** The order of disjoint cycles does not matter. *)
Lemma via_rev cs x : NoDup (concat cs) -> via (rev cs) x = via cs x.
Proof.
  intros Hnd. destruct (concat_cases cs x) as [(c & Hc & Hxc)|Hout].
  - rewrite (via_in cs c) by assumption.
    apply via_in; [now apply NoDup_concat_rev|now apply in_rev in Hc|assumption].
  - rewrite (via_out cs) by assumption. apply via_out.
    intros H. apply Hout. apply in_concat in H as (c & Hc & Hx).
    apply in_concat. exists c. split; [now apply in_rev|assumption].
Qed.

(** *** Reading back the text of single-digit cycles *)

Lemma digit_cases x : 0 <= x <= 9 ->
  x = 0 \/ x = 1 \/ x = 2 \/ x = 3 \/ x = 4 \/ x = 5 \/ x = 6 \/ x = 7 \/ x = 8 \/ x = 9.
Proof. lia. Qed.

Ltac each_digit x H :=
  apply digit_cases in H;
  repeat (destruct H as [H|H]); subst x; reflexivity.

Lemma str_digit x : 0 <= x <= 9 -> str x = [digit_char x].
Proof. intros H. each_digit x H. Qed.

Lemma int_char_digit x : 0 <= x <= 9 -> int_char (digit_char x) = Ok x.
Proof. intros H. each_digit x H. Qed.

Lemma digit_char_not_close x : 0 <= x <= 9 -> (digit_char x =? ")")%char = false.
Proof. intros H. each_digit x H. Qed.

Lemma digit_char_not_paren x : 0 <= x <= 9 -> is_paren (digit_char x) = false.
Proof. intros H. each_digit x H. Qed.

Lemma digit_char_is_digit x : 0 <= x <= 9 -> is_digit (digit_char x) = true.
Proof. intros H. each_digit x H. Qed.

Lemma concat_str c : Forall (fun x => 0 <= x <= 9) c -> concat (map str c) = digits c.
Proof.
  induction 1 as [|x c Hx _ IH]; [reflexivity|]. cbn. now rewrite str_digit, IH.
Qed.

Lemma mapM_digits c : Forall (fun x => 0 <= x <= 9) c -> mapM int_char (digits c) = Ok c.
Proof.
  induction 1 as [|x c Hx _ IH]; [reflexivity|]. cbn [digits map mapM].
  rewrite int_char_digit by assumption. cbn [bind]. fold (digits c). now rewrite IH.
Qed.

Lemma split_cons c s : (c =? ")")%char = false -> split (c :: s) = cons_piece c (split s).
Proof. intros H. destruct s; cbn [split]; rewrite ?H; reflexivity. Qed.

Lemma split_digits c : Forall (fun x => 0 <= x <= 9) c -> split (digits c) = [digits c].
Proof.
  induction 1 as [|x c Hx _ IH]; [reflexivity|]. cbn [digits map].
  rewrite split_cons by now apply digit_char_not_close. fold (digits c). now rewrite IH.
Qed.

Lemma split_digits_app c rest : Forall (fun x => 0 <= x <= 9) c ->
  split (digits c ++ py ")(" ++ rest) = digits c :: split rest.
Proof.
  induction 1 as [|x c Hx _ IH]; [reflexivity|]. cbn [digits map app].
  rewrite split_cons by now apply digit_char_not_close. fold (digits c). now rewrite IH.
Qed.

Lemma join_cons {A : Type} (sep a b : list A) l :
  join sep (a :: b :: l) = a ++ sep ++ join sep (b :: l).
Proof. reflexivity. Qed.

Lemma split_join cs : cs <> [] -> Forall (Forall (fun x => 0 <= x <= 9)) cs ->
  split (join (py ")(") (map digits cs)) = map digits cs.
Proof.
  intros Hne Hall. induction Hall as [|c cs Hc Hcs IH]; [congruence|].
  destruct cs as [|c' cs].
  - cbn. now apply split_digits.
  - cbn [map]. rewrite join_cons. change (digits c' :: map digits cs) with (map digits (c' :: cs)).
    rewrite split_digits_app by assumption. rewrite IH by discriminate. reflexivity.
Qed.

Lemma rstrip_app s t :
  rstrip (s ++ t) = match rstrip t with [] => rstrip s | r => s ++ r end.
Proof.
  induction s as [|c s IH]; cbn [app rstrip].
  - now destruct (rstrip t).
  - rewrite IH. destruct (rstrip t) as [|a r]; [reflexivity|].
    destruct (s ++ a :: r) eqn:E; [|reflexivity]. now destruct s.
Qed.

Lemma rstrip_keep s c : is_paren c = false -> rstrip (s ++ [c]) = s ++ [c].
Proof. intros H. rewrite rstrip_app. cbn. now rewrite H. Qed.

Lemma join_digits_shape cs : cs <> [] -> Forall (fun c => c <> []) cs ->
  Forall (Forall (fun x => 0 <= x <= 9)) cs ->
  exists a s b, is_paren a = false /\ is_paren b = false /\
    join (py ")(") (map digits cs) = a :: s /\
    join (py ")(") (map digits cs) = removelast (a :: s) ++ [b].
Proof.
  intros Hne Hnn Hall. induction Hall as [|c cs Hc Hcs IH]; [congruence|].
  inversion Hnn as [|? ? Hc0 Hnn']; subst.
  assert (Hd : exists a s b, is_paren a = false /\ is_paren b = false /\
            digits c = a :: s /\ digits c = removelast (a :: s) ++ [b]).
  { destruct c as [|x c]; [congruence|]. clear - Hc.
    exists (digit_char x), (digits c), (last (digits (x :: c)) "0"%char).
    inversion Hc as [|? ? Hx Hc']; subst.
    split; [now apply digit_char_not_paren|]. split.
    - assert (In (last (digits (x :: c)) "0"%char) (digits (x :: c))).
      { destruct (exists_last (l := digits (x :: c))) as (l' & z & E); [discriminate|].
        rewrite E, last_last. apply in_app_iff. right. now left. }
      apply in_map_iff in H as (y & <- & Hy). apply digit_char_not_paren.
      rewrite Forall_forall in Hc. now apply Hc.
    - split; [reflexivity|]. apply app_removelast_last. discriminate. }
  destruct cs as [|c' cs]; [exact Hd|].
  destruct Hd as (a & s & _ & Ha & _ & Ed & _).
  destruct IH as (a' & s' & b' & _ & Hb' & E1 & E2); [discriminate|assumption|].
  cbn [map]. rewrite join_cons. change (digits c' :: map digits cs) with (map digits (c' :: cs)).
  rewrite Ed. cbn [app]. exists a, (s ++ py ")(" ++ a' :: s'), b'.
  split; [assumption|]. split; [assumption|]. rewrite E1. split; [reflexivity|].
  rewrite E1 in E2.
  change (a :: s ++ py ")(" ++ a' :: s') with ((a :: s) ++ (py ")(" ++ a' :: s')).
  rewrite (app_assoc (a :: s)). rewrite removelast_app by discriminate.
  rewrite <- (app_assoc _ (removelast (a' :: s'))). f_equal. exact E2.
Qed.

Lemma strip_text cs : cs <> [] -> Forall (fun c => c <> []) cs ->
  Forall (Forall (fun x => 0 <= x <= 9)) cs ->
  strip (py "(" ++ join (py ")(") (map digits cs) ++ py ")")
  = join (py ")(") (map digits cs).
Proof.
  intros Hne Hnn Hall.
  destruct (join_digits_shape cs Hne Hnn Hall) as (a & s & b & Ha & Hb & E1 & E2).
  unfold strip. change (lstrip (py "(" ++ ?x)) with (lstrip x).
  rewrite E1 at 1. cbn [app lstrip]. rewrite Ha.
  change (a :: s ++ py ")") with ((a :: s) ++ py ")"). rewrite <- E1.
  rewrite rstrip_app. change (rstrip (py ")")) with (@nil ascii). cbv iota.
  rewrite E2 at 1. rewrite rstrip_keep by assumption. now rewrite <- E2.
Qed.

Lemma mapM_double cs : Forall (Forall (fun x => 0 <= x <= 9)) cs ->
  mapM (fun i => mapM int_char (i ++ i)) (map digits cs) = Ok (map double cs).
Proof.
  induction 1 as [|c cs Hc _ IH]; [reflexivity|]. cbn [map mapM].
  unfold digits at 1 2. rewrite <- map_app. fold (digits (c ++ c)).
  rewrite mapM_digits by (apply Forall_app; now split). cbn [bind].
  rewrite IH. reflexivity.
Qed.

Lemma text_of_digits cs : Forall (Forall (fun x => 0 <= x <= 9)) cs ->
  text_of cs = py "(" ++ join (py ")(") (map digits cs) ++ py ")".
Proof.
  intros Hall. unfold text_of. do 3 f_equal. apply map_ext_in.
  intros c Hc. apply concat_str. rewrite Forall_forall in Hall. now apply Hall.
Qed.

(** The text of non-empty single-digit cycles is read back as these cycles,
    doubled. *)
Lemma parse_text_of cs : cs <> [] -> Forall (fun c => c <> []) cs ->
  Forall (Forall (fun x => 0 <= x <= 9)) cs ->
  Perm.parse (text_of cs) = Ok (map double cs).
Proof.
  intros Hne Hnn Hall. unfold Perm.parse. rewrite text_of_digits by assumption.
  rewrite strip_text, split_join by assumption. now apply mapM_double.
Qed.

(** *** Well-formed permutations and their products *)

Lemma fold_max_spec l : forall x,
  In (fold_left Z.max l x) (x :: l) /\ Forall (fun y => y <= fold_left Z.max l x) (x :: l).
Proof.
  induction l as [|a l IH]; intros x; cbn [fold_left].
  - split; [now left|]. constructor; [lia|constructor].
  - destruct (IH (Z.max x a)) as [Hin Hall]. split.
    + destruct Hin as [E|Hin]; [|right; now right].
      rewrite <- E. destruct (Z.max_spec x a) as [[_ ->]|[_ ->]]; [right; now left|now left].
    + inversion Hall as [|? ? H1 H2]; subst. constructor; [lia|]. constructor; [lia|assumption].
Qed.

Lemma py_max_spec l m : py_max l = Ok m -> In m l /\ forall y, In y l -> y <= m.
Proof.
  destruct l as [|x l]; [discriminate|]. cbn. intros [= <-].
  destruct (fold_max_spec l x) as [H1 H2]. split; [assumption|].
  intros y Hy. rewrite Forall_forall in H2. now apply H2.
Qed.

Lemma py_max_nonempty l : l <> [] -> exists m, py_max l = Ok m.
Proof. destruct l; [congruence|]. intros _. eexists. reflexivity. Qed.

Lemma mapM_py_max d : Forall (fun c => c <> []) d ->
  exists ms, mapM py_max d = Ok ms /\ length ms = length d /\
    forall v, In v ms <-> exists c, In c d /\ py_max c = Ok v.
Proof.
  induction 1 as [|c d Hc _ (ms & E & L & IH)].
  - exists []. split; [reflexivity|]. split; [reflexivity|].
    intros v. split; [intros []|]. now intros (c & [] & _).
  - destruct (py_max_nonempty c Hc) as (v & Ev). exists (v :: ms). cbn [mapM].
    rewrite Ev. cbn [bind]. rewrite E. split; [reflexivity|]. split; [cbn; lia|].
    intros w. cbn [In]. rewrite IH. split.
    + intros [<-|(c' & Hc' & E')]; [exists c; split; [now left|assumption]|].
      exists c'. split; [now right|assumption].
    + intros (c' & [<-|Hc'] & E'); [left; congruence|]. right. now exists c'.
Qed.

(** The ground size that [__init__] works out by itself is the largest
    entry. *)
Lemma ground_largest d n : d <> [] -> Forall (fun c => c <> []) d ->
  In n (concat d) -> (forall x, In x (concat d) -> x <= n) ->
  Perm.ground None d = Ok n.
Proof.
  intros Hne Hnn Hin Hmax. cbn [Perm.ground].
  destruct (mapM_py_max d Hnn) as (ms & E & L & Hms). rewrite E. cbn [bind].
  destruct (py_max_nonempty ms) as (M & EM).
  { destruct ms; [destruct d; [congruence|discriminate]|discriminate]. }
  rewrite EM. f_equal. apply py_max_spec in EM as (HM & HMmax).
  apply Hms in HM as (c & Hc & Ec). apply py_max_spec in Ec as (HMc & _).
  assert (M <= n) by (apply Hmax, in_concat; now exists c).
  apply in_concat in Hin as (c' & Hc' & Hn).
  destruct (py_max_nonempty c') as (v & Ev); [now destruct c'|].
  assert (Hv : In v ms) by (apply Hms; now exists c').
  apply py_max_spec in Ev as (_ & Hv'). specialize (Hv' n Hn). specialize (HMmax v Hv). lia.
Qed.

Lemma half_double c : half (double c) = c.
Proof.
  unfold half, double. rewrite length_app.
  replace (Nat.div2 (length c + length c)) with (length c).
  - rewrite firstn_app, Nat.sub_diag, firstn_all. cbn. apply app_nil_r.
  - replace (length c + length c)%nat with (2 * length c)%nat by lia.
    now rewrite Nat.div2_double.
Qed.

Lemma map_half_double cs : map half (map double cs) = cs.
Proof. rewrite map_map. rewrite <- (map_id cs) at 2. apply map_ext. apply half_double. Qed.

Lemma concat_double_In cs x : In x (concat (map double cs)) <-> In x (concat cs).
Proof.
  rewrite !in_concat. split.
  - intros (d & Hd & Hx). apply in_map_iff in Hd as (c & <- & Hc). exists c.
    split; [assumption|]. unfold double in Hx. apply in_app_iff in Hx. tauto.
  - intros (c & Hc & Hx). exists (double c). split; [now apply in_map|].
    unfold double. apply in_app_iff. now left.
Qed.

Lemma nodupb_NoDup l : nodupb l = true -> NoDup l.
Proof.
  induction l as [|x l IH]; cbn; [constructor|]. intros H.
  apply andb_true_iff in H as [H1 H2]. constructor; [|now apply IH].
  intros Hin. apply mem_In in Hin. rewrite Hin in H1. discriminate.
Qed.

Lemma well_formed_WF p : well_formed p = true -> WF p.
Proof.
  unfold well_formed. intros H.
  repeat (apply andb_true_iff in H as [H ?]).
  constructor.
  - lia.
  - unfold same_cycles in *. now destruct (list_eq_dec _ _ _).
  - intros x Hx. rewrite forallb_forall in H2. specialize (H2 x Hx). lia.
  - now apply nodupb_NoDup.
  - destruct (Perm.apply 9 _ _) as [s| |]; try discriminate.
    unfold same_text in *. destruct (list_eq_dec _ s _); [congruence|discriminate].
Qed.

Section Well_formed.

Variable p : Perm.t.
Hypothesis Hwf : WF p.

Lemma wf_image x : Perm.image (Perm.description p) x = Ok (via (cycles_of p) x).
Proof. rewrite (wf_double p Hwf). apply image_double. Qed.

Lemma wf_image_rev x : Perm.image (rev (Perm.description p)) x = Ok (via (cycles_of p) x).
Proof.
  rewrite (wf_double p Hwf), <- map_rev, image_double. f_equal.
  apply via_rev. apply Hwf.
Qed.

Lemma wf_action x : action p x = via (cycles_of p) x.
Proof. unfold action. now rewrite wf_image. Qed.

Lemma wf_permutes m : Perm.max p <= m -> permutes (action p) m.
Proof.
  intros Hm. destruct (via_permutes (cycles_of p) (Perm.max p) m) as [H1 H2];
    [apply Hwf|apply Hwf|assumption|].
  split.
  - intros x Hx. rewrite wf_action. now apply H1.
  - intros x y Hx Hy. rewrite !wf_action. now apply H2.
Qed.

Lemma wf_fixes x : ~ 1 <= x <= Perm.max p -> action p x = x.
Proof.
  intros Hx. rewrite wf_action. apply via_out. intros H. apply Hx. now apply (wf_range p Hwf).
Qed.

Lemma wf_fuel fuel : (9 <= fuel)%nat ->
  Perm.apply fuel (Perm.max p) (Perm.description p) = Ok (Perm.string p).
Proof.
  intros Hfuel. rewrite <- (wf_string p Hwf).
  apply (apply_mono _ _ 9%nat fuel Hfuel). rewrite (wf_string p Hwf). discriminate.
Qed.

End Well_formed.

Lemma permutes_compose f g m : permutes f m -> permutes g m -> permutes (fun x => f (g x)) m.
Proof.
  intros [F1 F2] [G1 G2]. split.
  - intros x Hx. auto.
  - intros x y Hx Hy E. apply G2; try assumption. apply F2; auto.
Qed.

Lemma canonical_shape g m cs : 1 <= m <= 9 -> canonical g m cs ->
  cs <> [] /\ Forall (fun c => c <> []) cs /\ Forall (Forall (fun x => 0 <= x <= 9)) cs.
Proof.
  intros Hm Hcan. split; [|split].
  - intros ->. assert (H : In 1 (concat (@nil (list Z)))) by (apply (can_cover _ _ _ Hcan); lia).
    destruct H.
  - eapply Forall_impl; [|apply (can_least _ _ _ Hcan)]. cbn. tauto.
  - apply Forall_forall. intros c Hc. apply Forall_forall. intros x Hx.
    assert (1 <= x <= m); [|lia]. apply (can_cover _ _ _ Hcan). apply in_concat. now exists c.
Qed.

Lemma via_canonical g m cs x : canonical g m cs -> 1 <= x <= m -> via cs x = g x.
Proof.
  intros Hcan Hx. apply (can_cover _ _ _ Hcan) in Hx.
  apply in_concat in Hx as (c & Hc & Hx).
  rewrite (via_in cs c x (can_once _ _ _ Hcan) Hc Hx).
  destruct (In_nth c x 0 Hx) as (i & Hi & <-).
  rewrite next_nth by (assumption || (eapply NoDup_concat_each; [apply Hcan|assumption])).
  pose proof (can_cycle _ _ _ Hcan) as Hcyc. rewrite Forall_forall in Hcyc.
  symmetry. now apply Hcyc.
Qed.

(** Whatever cycles describe the permutation [g] of {1..m}, the text that
    [apply] writes for them is constructed into the canonical cycles of [g]. *)
Lemma normalise cycles m g : 1 <= m <= 9 -> permutes g m ->
  (forall x, 1 <= x <= m -> Perm.image cycles x = Ok (g x)) ->
  exists cs, canonical g m cs /\ WF (of_cycles m cs) /\
    forall fuel, (9 <= fuel)%nat ->
      Perm.apply fuel m cycles = Ok (text_of cs) /\
      Perm.__init__ fuel (text_of cs) None = Ok (of_cycles m cs).
Proof.
  intros Hm Hperm Himg.
  destruct (apply_canonical cycles m g Himg Hperm 9%nat) as (cs & A9 & Hcan); [lia|].
  destruct (canonical_shape g m cs Hm Hcan) as (Hne & Hnn & Hdig).
  assert (Hsame : forall fuel, Perm.apply fuel m (map double cs) = Perm.apply fuel m cycles).
  { intros fuel. symmetry. apply apply_same.
    - intros x Hx. rewrite Himg, image_double by assumption. f_equal. symmetry.
      now apply (via_canonical g m).
    - intros x v Hx E. rewrite Himg in E by assumption. injection E as <-.
      now apply (proj1 Hperm). }
  assert (Hfuel : forall fuel, (9 <= fuel)%nat -> Perm.apply fuel m cycles = Ok (text_of cs)).
  { intros fuel Hf. rewrite <- A9. apply (apply_mono _ _ 9%nat fuel Hf). rewrite A9. discriminate. }
  exists cs. split; [assumption|]. split.
  - constructor; unfold cycles_of, of_cycles; cbn [Perm.max Perm.description Perm.string].
    + assumption.
    + now rewrite map_half_double.
    + rewrite map_half_double. intros x Hx. now apply (can_cover _ _ _ Hcan).
    + rewrite map_half_double. apply Hcan.
    + rewrite Hsame. assumption.
  - intros fuel Hf. split; [now apply Hfuel|].
    unfold Perm.__init__. rewrite parse_text_of by assumption. cbn [bind].
    rewrite (ground_largest _ m).
    + cbn [bind]. rewrite Hsame, Hfuel by assumption. reflexivity.
    + destruct cs; [congruence|discriminate].
    + apply Forall_forall. intros d Hd. apply in_map_iff in Hd as (c & <- & Hc).
      rewrite Forall_forall in Hnn. specialize (Hnn c Hc). unfold double. now destruct c.
    + apply (proj2 (concat_double_In cs m)). apply (can_cover _ _ _ Hcan). lia.
    + intros x Hx. apply (proj1 (concat_double_In cs x)) in Hx.
      apply (can_cover _ _ _ Hcan) in Hx. lia.
Qed.

Lemma of_cycles_action g m cs x : canonical g m cs -> WF (of_cycles m cs) ->
  (forall y, ~ 1 <= y <= m -> g y = y) -> action (of_cycles m cs) x = g x.
Proof.
  intros Hcan Hwf Hout. rewrite wf_action by assumption.
  unfold cycles_of, of_cycles. cbn [Perm.description]. rewrite map_half_double.
  destruct (Z_le_dec 1 x) as [H1|H1]; [destruct (Z_le_dec x m) as [H2|H2]|].
  - apply (via_canonical g m); [assumption|lia].
  - rewrite Hout by lia. apply via_out. intros H. apply (can_cover _ _ _ Hcan) in H. lia.
  - rewrite Hout by lia. apply via_out. intros H. apply (can_cover _ _ _ Hcan) in H. lia.
Qed.

(** The product of two well-formed permutations. *)
Lemma mul_WF sigma tau : WF sigma -> WF tau ->
  exists rho, WF rho /\ Perm.max rho = Z.max (Perm.max sigma) (Perm.max tau) /\
    (forall x, action rho x = action sigma (action tau x)) /\
    forall fuel, (9 <= fuel)%nat -> Perm.__mul__ fuel sigma tau = Ok rho.
Proof.
  intros Hs Ht. set (m := Z.max (Perm.max sigma) (Perm.max tau)).
  set (g := fun x => action sigma (action tau x)).
  assert (Hm : 1 <= m <= 9).
  { pose proof (wf_size _ Hs). pose proof (wf_size _ Ht). lia. }
  assert (Hperm : permutes g m).
  { unfold g. apply (permutes_compose (action sigma) (action tau));
      apply wf_permutes; try assumption; lia. }
  destruct (normalise (rev (Perm.description tau) ++ rev (Perm.description sigma)) m g Hm Hperm)
    as (cs & Hcan & Hwf & Hrun).
  { intros x _. clear - Hs Ht.
    assert (Happ : forall a b y, Perm.image (a ++ b) y = (z <- Perm.image a y ;; Perm.image b z)).
    { induction a as [|c a IH]; intros b y; [reflexivity|]. cbn [app Perm.image].
      destruct (Perm.step c y); cbn [bind]; [apply IH|reflexivity|reflexivity]. }
    rewrite Happ, (wf_image_rev _ Ht). cbn [bind]. rewrite (wf_image_rev _ Hs).
    unfold g. now rewrite !wf_action. }
  exists (of_cycles m cs). split; [assumption|]. split; [reflexivity|]. split.
  - intros x. apply (of_cycles_action g m); try assumption.
    intros y Hy. unfold g. rewrite (wf_fixes _ Ht) by lia. apply (wf_fixes _ Hs). lia.
  - intros fuel Hf. unfold Perm.__mul__. fold m.
    destruct (Hrun fuel Hf) as [-> E]. cbn [bind]. exact E.
Qed.

Lemma NoDup_nodupb l : NoDup l -> nodupb l = true.
Proof.
  induction 1 as [|x l Hx _ IH]; [reflexivity|]. cbn. rewrite IH, andb_true_r.
  apply negb_true_iff. destruct (mem x l) eqn:M; [|reflexivity].
  apply mem_In in M. contradiction.
Qed.

Lemma WF_well_formed p : WF p -> well_formed p = true.
Proof.
  intros [H1 H2 H3 H4 H5]. unfold well_formed.
  rewrite H5. unfold same_text, same_cycles.
  destruct (list_eq_dec ascii_dec _ _); [|congruence].
  destruct (list_eq_dec _ _ _); [|congruence].
  rewrite NoDup_nodupb by assumption.
  replace (forallb _ _) with true.
  - replace (1 <=? Perm.max p) with true by (symmetry; apply Z.leb_le; lia).
    replace (Perm.max p <=? 9) with true by (symmetry; apply Z.leb_le; lia). reflexivity.
  - symmetry. apply forallb_forall. intros x Hx. specialize (H3 x Hx).
    apply andb_true_iff. split; apply Z.leb_le; lia.
Qed.

(** C1 for the ground sizes 1 to 9: the product of [sigma] and [tau] sends
    every point [x] to [sigma (tau x)], it has the larger of the two ground
    sizes, and each factor leaves the points above its own ground size where
    they are; and (1324) times (14) equals (243). *)
Theorem multiply_composes :
  (forall sigma tau, well_formed sigma = true -> well_formed tau = true ->
     exists rho, returns (fun fuel => multiply fuel sigma tau) rho /\
       well_formed rho = true /\
       Perm.max rho = Z.max (Perm.max sigma) (Perm.max tau) /\
       (forall x, action rho x = action sigma (action tau x)) /\
       (forall x, Perm.max sigma < x -> action sigma x = x) /\
       (forall x, Perm.max tau < x -> action tau x = x)) /\
  (exists a b c p,
     returns (fun fuel => construct fuel (py "(1324)") None) a /\
     returns (fun fuel => construct fuel (py "(14)") None) b /\
     returns (fun fuel => construct fuel (py "(243)") None) c /\
     returns (fun fuel => multiply fuel a b) p /\
     equals p c = Ok true /\ fullText p = py "(1)(243)").
Proof.
  split.
  - intros sigma tau Hs Ht. apply well_formed_WF in Hs, Ht.
    destruct (mul_WF sigma tau Hs Ht) as (rho & Hwf & Hmax & Hact & Hrun).
    exists rho. split; [exists 9%nat; exact Hrun|].
    split; [now apply WF_well_formed|]. split; [assumption|]. split; [assumption|].
    split; intros x Hx; apply wf_fixes; (assumption || lia).
  - do 4 eexists. split; [by_run 9%nat init_mono|]. split; [by_run 9%nat init_mono|].
    split; [by_run 9%nat init_mono|]. split; [by_run 9%nat mul_mono|].
    split; vm_compute; reflexivity.
Qed.

(** (1324) times (14) in S_4. *)
Lemma multiply_composes_witness :
  exists rho,
    returns (fun fuel => multiply fuel
       {| Perm.description := [[1; 3; 2; 4; 1; 3; 2; 4]]; Perm.max := 4;
          Perm.string := py "(1324)" |}
       {| Perm.description := [[1; 4; 1; 4]]; Perm.max := 4;
          Perm.string := py "(14)(2)(3)" |}) rho /\
    Perm.max rho = 4 /\ action rho 4 = 3.
Proof.
  destruct (proj1 multiply_composes
       {| Perm.description := [[1; 3; 2; 4; 1; 3; 2; 4]]; Perm.max := 4;
          Perm.string := py "(1324)" |}
       {| Perm.description := [[1; 4; 1; 4]]; Perm.max := 4;
          Perm.string := py "(14)(2)(3)" |} eq_refl eq_refl)
    as (rho & Hrun & _ & Hmax & Hact & _).
  exists rho. split; [exact Hrun|]. split; [exact Hmax|]. rewrite Hact. reflexivity.
Defined.

(** *** Evaluations *)

(** C4 at the identity of S_3: [order] returns 2, although the first power is
    the identity already. *)
Theorem order_identity_two :
  exists e, returns (fun fuel => identity fuel 3) e /\
    returns (fun fuel => Perm.order fuel e) 2 /\
    returns (fun fuel => power fuel e 1) e /\ equals e e = Ok true.
Proof.
  eexists. split; [by_run 9%nat init_mono|].
  split; [by_run 9%nat order_mono|].
  split; [by_run 9%nat pow_mono|]. vm_compute; reflexivity.
Qed.

(** C5 at the transposition (12) and the exponent -1: [inverse] returns, the
    power raises a TypeError. *)
Theorem power_minus_one_raises :
  exists x, returns (fun fuel => construct fuel (py "(12)") None) x /\
    returns (fun fuel => Perm.inverse fuel x) x /\
    raises (fun fuel => power fuel x (-1)) TypeError.
Proof.
  eexists. split; [by_run 9%nat init_mono|].
  split; [by_run 9%nat inverse_mono|].
  apply (mono_raises _ 9%nat); [apply pow_mono|vm_compute; reflexivity].
Qed.

(** No negative power ever returns. *)
Lemma power_negative_never_returns (fuel : nat) (x : Perm.t) (k : Z) :
  k < 0 -> forall v, power fuel x k <> Ok v.
Proof.
  intros Hk v. unfold power, Perm.__pow__. apply Z.ltb_lt in Hk.
  destruct fuel as [|depth]; [discriminate|]. cbn [Perm.pow]. rewrite Hk.
  destruct (Perm.pow depth (S depth) x (- k)) as [p| |]; cbn [bind]; try discriminate.
  destruct (Perm.inverse (S depth) p); cbn [bind]; discriminate.
Qed.

(** C8: (1234) and (123)(4) generate 24 permutations, 12 of them of sign
    +1. *)
Theorem generate_S4_A4 :
  exists a b group,
    returns (fun fuel => construct fuel (py "(1234)") None) a /\
    returns (fun fuel => construct fuel (py "(123)(4)") None) b /\
    returns (fun fuel => generateGroup fuel [a; b]) group /\
    length group = 24%nat /\
    length (filter (fun sigma => sign sigma =? 1) group) = 12%nat.
Proof.
  eexists; eexists; eexists.
  split; [by_run 9%nat init_mono|].
  split; [by_run 9%nat init_mono|].
  split; [by_run 9%nat generate_group_mono|].
  split; vm_compute; reflexivity.
Qed.

(** C10 for the ground sizes 1 to 9: the reduced text of the identity is
    "e" and its sign is +1. *)
Theorem sign_identity (n : Z) :
  1 <= n <= 9 ->
  exists e, returns (fun fuel => identity fuel n) e /\
    reducedText e = py "e" /\ sign e = 1.
Proof.
  intros Hn.
  assert (H : n = 1 \/ n = 2 \/ n = 3 \/ n = 4 \/ n = 5 \/ n = 6 \/ n = 7 \/ n = 8 \/ n = 9) by lia.
  repeat (destruct H as [-> | H]); try subst n;
    (eexists; split; [by_run 9%nat init_mono|split; vm_compute; reflexivity]).
Qed.

(** The identity of S_4. *)
Lemma sign_identity_witness :
  exists e, returns (fun fuel => identity fuel 4) e /\ reducedText e = py "e" /\ sign e = 1.
Proof. apply (sign_identity 4). lia. Defined.

(** C10 fails at the ground size 10: the reduced text is "(10)" and the sign
    is -1. *)
Lemma sign_identity_ten :
  exists e, returns (fun fuel => identity fuel 10) e /\
    reducedText e = py "(10)" /\ sign e = -1.
Proof.
  eexists. split; [by_run 10%nat init_mono|]. split; vm_compute; reflexivity.
Qed.

(** C1 fails at the ground size 10: the square of the identity of S_10 has
    ground size 9. *)
Lemma multiply_ground_size_ten :
  exists e p, returns (fun fuel => identity fuel 10) e /\
    returns (fun fuel => multiply fuel e e) p /\
    Perm.max e = 10 /\ Perm.max p = 9.
Proof.
  eexists; eexists. split; [by_run 10%nat init_mono|].
  split; [by_run 10%nat mul_mono|]. split; reflexivity.
Qed.

(** C9 fails at the empty text without ground size: it holds no character
    at all, and the construction raises (the maximum of an empty list). *)
Lemma construct_empty_raises :
  concat (split (strip (py ""))) = [] /\
  raises (fun fuel => construct fuel (py "") None) (ValueError empty_sequence).
Proof.
  split; [reflexivity|].
  apply (mono_raises _ 0%nat); [apply init_mono|reflexivity].
Qed.

(** The analysis that the source prints for (1324): order 4, inverse (1423),
    sign -1, and the group it generates. *)
Example sample_analysis :
  exists sigma i group,
    returns (fun fuel => construct fuel (py "(1324)") None) sigma /\
    returns (fun fuel => Perm.order fuel sigma) 4 /\
    returns (fun fuel => Perm.inverse fuel sigma) i /\
    reducedText i = py "(1423)" /\ sign sigma = -1 /\
    returns (fun fuel => generateGroup fuel [sigma]) group /\
    map reducedText group = [py "e"; py "(12)(34)"; py "(1423)"; py "(1324)"].
Proof.
  do 3 eexists. split; [by_run 9%nat init_mono|]. split; [by_run 9%nat order_mono|].
  split; [by_run 9%nat inverse_mono|]. split; [reflexivity|]. split; [reflexivity|].
  split; [by_run 9%nat generate_group_mono|]. reflexivity.
Qed.

(** The listing of S_4 that the source prints, in its order. *)
Example sample_listing :
  exists a b group,
    returns (fun fuel => construct fuel (py "(1234)") None) a /\
    returns (fun fuel => construct fuel (py "(123)(4)") None) b /\
    returns (fun fuel => generateGroup fuel [a; b]) group /\
    map reducedText group =
      map py ["e"; "(14)"; "(13)"; "(12)"; "(24)"; "(23)"; "(34)"; "(143)"; "(142)";
              "(14)(23)"; "(134)"; "(132)"; "(13)(24)"; "(124)"; "(123)"; "(12)(34)";
              "(243)"; "(234)"; "(1432)"; "(1423)"; "(1342)"; "(1324)"; "(1243)";
              "(1234)"].
Proof.
  do 3 eexists. split; [by_run 9%nat init_mono|]. split; [by_run 9%nat init_mono|].
  split; [by_run 9%nat generate_group_mono|]. vm_compute. reflexivity.
Qed.

(** *** The identity and the powers *)

Lemma one_spec n : 1 <= n <= 9 ->
  identity 9 n = Ok (one n) /\ well_formed (one n) = true /\
  Perm.max (one n) = n /\ Perm.description (one n) = [[]].
Proof.
  intros Hn.
  assert (H : n = 1 \/ n = 2 \/ n = 3 \/ n = 4 \/ n = 5 \/ n = 6 \/ n = 7 \/ n = 8 \/ n = 9) by lia.
  repeat (destruct H as [H|H]); subst n; repeat split; vm_compute; reflexivity.
Qed.

Lemma one_WF n : 1 <= n <= 9 -> WF (one n).
Proof. intros Hn. apply well_formed_WF. now apply one_spec. Qed.

Lemma one_run n fuel : 1 <= n <= 9 -> (9 <= fuel)%nat -> identity fuel n = Ok (one n).
Proof.
  intros Hn Hf. destruct (one_spec n Hn) as (E & _).
  rewrite <- E. apply (init_mono _ _ 9%nat fuel Hf). unfold identity in E. rewrite E. discriminate.
Qed.

Lemma one_action n x : 1 <= n <= 9 -> action (one n) x = x.
Proof.
  intros Hn. destruct (one_spec n Hn) as (_ & _ & _ & E). unfold action. now rewrite E.
Qed.

Lemma product_spec a b : WF a -> WF b ->
  WF (product a b) /\ Perm.max (product a b) = Z.max (Perm.max a) (Perm.max b) /\
  (forall x, action (product a b) x = action a (action b x)) /\
  forall fuel, (9 <= fuel)%nat -> Perm.__mul__ fuel a b = Ok (product a b).
Proof.
  intros Ha Hb. destruct (mul_WF a b Ha Hb) as (rho & Hwf & Hmax & Hact & Hrun).
  assert (E : product a b = rho) by (unfold product; now rewrite (Hrun 9%nat)).
  rewrite E. auto.
Qed.

Section Powers.

Variable x : Perm.t.
Hypothesis Hx : WF x.

Lemma power_succ_S j : power_succ x (S j) = product (power_succ x j) x.
Proof. reflexivity. Qed.

Lemma power_succ_spec j :
  WF (power_succ x j) /\ Perm.max (power_succ x j) = Perm.max x /\
  forall y, action (power_succ x j) y = Nat.iter (S j) (action x) y.
Proof.
  induction j as [|j (IH1 & IH2 & IH3)];
    [split; [exact Hx|split; [reflexivity|intros y; reflexivity]]|].
  rewrite power_succ_S.
  destruct (product_spec (power_succ x j) x IH1 Hx) as (H1 & H2 & H3 & _).
  split; [assumption|]. split; [lia|].
  intros y. rewrite H3, IH3. symmetry. apply (Nat.iter_succ_r (S j)).
Qed.

Lemma pow_run j : forall depth fuel, (j < depth)%nat -> (9 <= fuel)%nat ->
  Perm.pow depth fuel x (Z.of_nat (S j)) = Ok (power_succ x j).
Proof.
  induction j as [|j IH]; intros depth fuel Hd Hf;
    (destruct depth as [|depth]; [lia|]); cbn [Perm.pow].
  - reflexivity.
  - replace (Z.of_nat (S (S j)) <? 0) with false by (symmetry; apply Z.ltb_ge; lia).
    replace (Z.of_nat (S (S j)) =? 0) with false by (symmetry; apply Z.eqb_neq; lia).
    replace (Z.of_nat (S (S j)) =? 1) with false by (symmetry; apply Z.eqb_neq; lia).
    replace (Z.of_nat (S (S j)) - 1) with (Z.of_nat (S j)) by lia.
    rewrite IH by lia. cbn [bind]. rewrite power_succ_S.
    apply product_spec; [apply power_succ_spec|assumption|assumption].
Qed.

End Powers.

(** *** Equal actions, equal texts *)

Lemma same_action_string a b : WF a -> WF b -> Perm.max a = Perm.max b ->
  (forall y, action a y = action b y) -> Perm.string a = Perm.string b.
Proof.
  intros Ha Hb Hmax Hact.
  pose proof (wf_string a Ha) as Sa. pose proof (wf_string b Hb) as Sb.
  rewrite <- Hmax in Sb.
  rewrite (apply_same (Perm.description a) (Perm.description b) (Perm.max a)) in Sa.
  - congruence.
  - intros y _. rewrite (wf_image a Ha), (wf_image b Hb). f_equal.
    rewrite <- !wf_action by assumption. apply Hact.
  - intros y v Hy E. rewrite (wf_image a Ha) in E. injection E as <-.
    rewrite <- wf_action by assumption. apply (wf_permutes a Ha (Perm.max a)); [lia|assumption].
Qed.

Lemma WF_hash p : WF p -> Perm.__hash__ p = Ok (code p).
Proof.
  intros Hp. apply hash_value. eapply apply_nonempty. apply (wf_string p Hp).
Qed.

Lemma WF_eq a b : WF a -> WF b -> Perm.__eq__ a b = Ok (code a =? code b).
Proof. intros Ha Hb. unfold Perm.__eq__. now rewrite !WF_hash. Qed.

Lemma WF_ne a b : WF a -> WF b -> Perm.__ne__ a b = Ok (negb (code a =? code b)).
Proof. intros Ha Hb. unfold Perm.__ne__. now rewrite WF_eq. Qed.

Lemma WF_lt a b : WF a -> WF b -> Perm.__lt__ a b = Ok (code b <? code a).
Proof. intros Ha Hb. unfold Perm.__lt__. now rewrite !WF_hash. Qed.

(** *** Every permutation has a power that is the identity *)

Lemma divide_fact k N : (1 <= k <= N)%nat -> Nat.divide k (fact N).
Proof.
  induction N as [|N IH]; intros Hk; [lia|]. cbn [fact].
  destruct (Nat.eq_dec k (S N)) as [->|Hne].
  - apply Nat.divide_factor_l.
  - apply Nat.divide_mul_r. apply IH. lia.
Qed.

Lemma iter_multiple (f : Z -> Z) k y : Nat.iter k f y = y ->
  forall q, Nat.iter (q * k) f y = y.
Proof.
  intros E q. induction q as [|q IH]; [reflexivity|].
  cbn [Nat.mul]. rewrite Nat.iter_add. now rewrite IH.
Qed.

Lemma finite_order f n : permutes f n ->
  exists K, (1 <= K)%nat /\ forall y, 1 <= y <= n -> Nat.iter K f y = y.
Proof.
  intros Hperm. exists (fact (Z.to_nat n)). split; [apply lt_O_fact|].
  intros y Hy. destruct (first_return n f Hperm y Hy) as (k & Hk & _ & Hk1 & Hret & _).
  destruct (divide_fact k (Z.to_nat n)) as (q & ->); [lia|].
  now apply iter_multiple.
Qed.

Lemma iter_fixed (f : Z -> Z) y k : f y = y -> Nat.iter k f y = y.
Proof. intros E. induction k as [|k IH]; [reflexivity|]. rewrite Nat.iter_succ. now rewrite IH. Qed.

(** *** The walk through the powers *)

Section Walk.

Variable x : Perm.t.
Hypothesis Hx : WF x.

Local Abbreviation n := (Perm.max x).
Local Abbreviation pw j := (power_succ x j).

Lemma size_ok : 1 <= n <= 9.
Proof. apply Hx. Qed.

Lemma walk_step fuel inner j cnt : (9 <= inner)%nat ->
  walk (S fuel) inner x (pw j) cnt =
  if negb (code (pw (S j)) =? code (one n))
  then walk fuel inner x (pw (S j)) (cnt + 1)
  else Ok (pw j, cnt).
Proof.
  intros Hi. cbn [walk].
  destruct (power_succ_spec x Hx j) as (Hj & _).
  destruct (product_spec (pw j) x Hj Hx) as (Hp & _ & _ & Hrun).
  rewrite Hrun by assumption. cbn [bind]. fold (identity inner n).
  rewrite one_run by (assumption || apply size_ok). cbn [bind].
  rewrite WF_ne by (assumption || apply one_WF, size_ok). reflexivity.
Qed.

Lemma walk_run : forall d j cnt fuel inner,
  code (pw (S (j + d))) = code (one n) -> (d < fuel)%nat -> (9 <= inner)%nat ->
  exists j', (j <= j' <= j + d)%nat /\ code (pw (S j')) = code (one n) /\
    (forall i, (j <= i < j')%nat -> code (pw (S i)) <> code (one n)) /\
    walk fuel inner x (pw j) cnt = Ok (pw j', cnt + Z.of_nat (j' - j)).
Proof.
  induction d as [|d IH]; intros j cnt fuel inner Hd Hfuel Hinner;
    (destruct fuel as [|fuel]; [lia|]); rewrite walk_step by assumption.
  - rewrite Nat.add_0_r in Hd. rewrite Hd, Z.eqb_refl. cbn [negb].
    exists j. split; [lia|]. split; [assumption|]. split; [intros i Hi; lia|].
    rewrite Nat.sub_diag. do 2 f_equal. lia.
  - destruct (Z.eqb_spec (code (pw (S j))) (code (one n))) as [E|Hne]; cbn [negb].
    + exists j. split; [lia|]. split; [assumption|]. split; [intros i Hi; lia|].
      rewrite Nat.sub_diag. do 2 f_equal. lia.
    + destruct (IH (S j) (cnt + 1) fuel inner) as (j' & Hj' & Hstop & Hfirst & Hrun);
        [now replace (S j + d)%nat with (j + S d)%nat by lia|lia|assumption|].
      exists j'. split; [lia|]. split; [assumption|]. split.
      * intros i Hi. destruct (Nat.eq_dec i j) as [->|]; [assumption|]. apply Hfirst. lia.
      * rewrite Hrun. do 2 f_equal. lia.
Qed.

(** Some power is the identity. *)
Lemma walk_ends : exists J, code (pw (S J)) = code (one n).
Proof.
  destruct (finite_order (action x) n (wf_permutes x Hx n (Z.le_refl _))) as (K & HK & Hid).
  exists (2 * K - 2)%nat. unfold code. f_equal.
  destruct (power_succ_spec x Hx (S (2 * K - 2))) as (Hw & Hmax & Hact).
  apply same_action_string; try assumption.
  - apply one_WF, size_ok.
  - rewrite Hmax. symmetry. apply one_spec, size_ok.
  - intros y. rewrite Hact, one_action by apply size_ok.
    replace (S (S (2 * K - 2))) with (2 * K)%nat by lia.
    destruct (Z_le_dec 1 y) as [H1|H1]; [destruct (Z_le_dec y n) as [H2|H2]|].
    + apply iter_multiple. apply Hid. lia.
    + apply iter_fixed. apply wf_fixes; [assumption|lia].
    + apply iter_fixed. apply wf_fixes; [assumption|lia].
Qed.

(** [inverse] and [order] stop at the first power whose successor is the
    identity. *)
Lemma walk_result : exists j,
  code (pw (S j)) = code (one n) /\
  (forall i, (i < j)%nat -> code (pw (S i)) <> code (one n)) /\
  forall fuel, (9 + j < fuel)%nat ->
    Perm.inverse fuel x = Ok (pw j) /\ Perm.order fuel x = Ok (Z.of_nat j + 2).
Proof.
  destruct walk_ends as (J & HJ).
  destruct (walk_run J 0%nat 1 (S J) 9%nat HJ) as (j & Hj & Hstop & Hfirst & Hrun); try lia.
  exists j. split; [assumption|]. split; [intros i Hi; apply Hfirst; lia|].
  intros fuel Hfuel.
  destruct (walk_run j 0%nat 1 fuel fuel Hstop) as (j' & Hj' & Hstop' & Hfirst' & Hrun');
    try lia.
  assert (j' = j).
  { destruct (Nat.lt_trichotomy j j') as [L|[L|L]]; [lia|congruence|].
    exfalso. apply (Hfirst j'); [lia|assumption]. }
  subst j'. rewrite inverse_walk, order_walk. change (pw 0) with x in Hrun'.
  rewrite Hrun'. cbn [bind fst snd]. split; [reflexivity|]. f_equal. lia.
Qed.

End Walk.

(** C6 for the ground sizes 1 to 9: [inverse] returns, and the product of a
    permutation with its inverse equals the identity of its ground size. *)
Theorem multiply_inverse_identity (x : Perm.t) :
  well_formed x = true ->
  exists i p e,
    returns (fun fuel => Perm.inverse fuel x) i /\
    returns (fun fuel => multiply fuel x i) p /\
    returns (fun fuel => identity fuel (Perm.max x)) e /\
    equals p e = Ok true.
Proof.
  intros Hx. apply well_formed_WF in Hx.
  destruct (walk_result x Hx) as (j & Hstop & _ & Hrun).
  destruct (power_succ_spec x Hx j) as (Hj & Hjmax & Hjact).
  destruct (power_succ_spec x Hx (S j)) as (HS & HSmax & HSact).
  destruct (product_spec x (power_succ x j) Hx Hj) as (Hp & Hpmax & Hpact & Hprun).
  pose proof (size_ok x Hx) as Hn.
  exists (power_succ x j), (product x (power_succ x j)), (one (Perm.max x)).
  split; [exists (S (9 + j)); intros fuel Hf; apply Hrun; lia|].
  split; [exists 9%nat; exact Hprun|].
  split; [exists 9%nat; intros fuel Hf; now apply one_run|].
  unfold equals. rewrite WF_eq by (assumption || now apply one_WF).
  f_equal. apply Z.eqb_eq. rewrite <- Hstop. unfold code. f_equal.
  apply same_action_string; try assumption; [lia|].
  intros y. rewrite Hpact, Hjact, HSact. reflexivity.
Qed.

(** The 4-cycle (1324). *)
Lemma multiply_inverse_identity_witness :
  exists i p e,
    returns (fun fuel => Perm.inverse fuel
      {| Perm.description := [[1; 3; 2; 4; 1; 3; 2; 4]]; Perm.max := 4;
         Perm.string := py "(1324)" |}) i /\
    returns (fun fuel => multiply fuel
      {| Perm.description := [[1; 3; 2; 4; 1; 3; 2; 4]]; Perm.max := 4;
         Perm.string := py "(1324)" |} i) p /\
    returns (fun fuel => identity fuel 4) e /\
    equals p e = Ok true.
Proof.
  apply (multiply_inverse_identity
    {| Perm.description := [[1; 3; 2; 4; 1; 3; 2; 4]]; Perm.max := 4;
       Perm.string := py "(1324)" |}).
  reflexivity.
Defined.

Lemma mono_cases {A} (c : nat -> res A) (F : nat) (v : A) :
  mono c -> c F = Ok v -> forall f, c f = Timeout \/ c f = Ok v.
Proof.
  intros Hm E f. destruct (c f) as [w| |] eqn:Ef; [right|exfalso|now left].
  - destruct (Nat.le_ge_cases f F) as [L|L].
    + rewrite <- E, <- Ef. symmetry. apply Hm; [assumption|congruence].
    + rewrite <- E, <- Ef. apply Hm; [assumption|congruence].
  - destruct (Nat.le_ge_cases f F) as [L|L].
    + pose proof (Hm f F L) as H. rewrite E, Ef in H. discriminate H. discriminate.
    + pose proof (Hm F f L) as H. rewrite E, Ef in H. discriminate H. discriminate.
Qed.

Lemma walk_ten fuel inner : forall y cnt, y = ten_0 \/ y = ten_1 \/ y = ten_2 ->
  walk fuel inner ten_0 y cnt = Timeout.
Proof.
  induction fuel as [|fuel IH]; intros y cnt Hy; [reflexivity|]. cbn [walk].
  assert (Hnew : exists y', (y' = ten_1 \/ y' = ten_2) /\
            (Perm.__mul__ inner y ten_0 = Timeout \/ Perm.__mul__ inner y ten_0 = Ok y')).
  { destruct Hy as [->|[->| ->]].
    - exists ten_1. split; [now left|].
      apply (mono_cases (fun f => Perm.__mul__ f ten_0 ten_0) 10%nat);
        [apply mul_mono|vm_compute; reflexivity].
    - exists ten_2. split; [now right|].
      apply (mono_cases (fun f => Perm.__mul__ f ten_1 ten_0) 10%nat);
        [apply mul_mono|vm_compute; reflexivity].
    - exists ten_2. split; [now right|].
      apply (mono_cases (fun f => Perm.__mul__ f ten_2 ten_0) 10%nat);
        [apply mul_mono|vm_compute; reflexivity]. }
  destruct Hnew as (y' & Hy' & [-> | ->]); [reflexivity|]. cbn [bind].
  change (Perm.max ten_0) with 10.
  destruct (mono_cases (fun f => Perm.__init__ f (py "") (Some 10)) 10%nat ten_0
              (init_mono _ _) eq_refl inner) as [-> | ->]; [reflexivity|]. cbn [bind].
  assert (Hne : Perm.__ne__ y' ten_0 = Ok true) by (destruct Hy' as [-> | ->]; reflexivity).
  rewrite Hne. cbn [bind]. apply IH. tauto.
Qed.

(** C6 fails at the ground size 10: the identity of S_10 has no inverse, the
    loop of [inverse] never meets the identity again. *)
Lemma inverse_identity_ten_diverges :
  exists e, returns (fun fuel => identity fuel 10) e /\
    Perm.max e = 10 /\
    diverges (fun fuel => Perm.inverse fuel e).
Proof.
  exists ten_0. split; [apply (mono_returns _ 10%nat); [apply init_mono|reflexivity]|].
  split; [reflexivity|].
  intros fuel. rewrite inverse_walk, walk_ten by tauto. reflexivity.
Qed.

(** *** The closure loop stops *)

Lemma contains_WF x l : WF x -> Forall WF l ->
  contains x l = Ok (existsb (fun y => code y =? code x) l).
Proof.
  intros Hx. induction 1 as [|y l Hy _ IH]; [reflexivity|]. cbn [contains existsb].
  rewrite WF_eq by assumption. cbn [bind].
  destruct (code y =? code x); [reflexivity|exact IH].
Qed.

Lemma existsb_code x l :
  existsb (fun y => code y =? code x) l = mem (code x) (map code l).
Proof.
  unfold mem. induction l as [|y l IH]; [reflexivity|]. cbn [existsb map].
  now rewrite IH, (Z.eqb_sym (code y)).
Qed.

(** One pass over the pairs: what is added is well formed and was not in
    the group. *)
Lemma products_run inner group : (9 <= inner)%nat -> Forall WF group ->
  forall pairs new,
    Forall (fun st => WF (fst st) /\ WF (snd st)) pairs -> Forall WF new ->
    exists ext, products inner group pairs new = Ok (new ++ ext) /\
      Forall WF ext /\ forall y, In y ext -> ~ In (code y) (map code group).
Proof.
  intros Hinner Hgroup pairs.
  induction pairs as [|[sigma tau] rest IH]; intros new Hpairs Hnew.
  - exists []. rewrite app_nil_r. split; [reflexivity|]. split; [constructor|intros y []].
  - inversion Hpairs as [|? ? [Hs Ht] Hrest]; subst. cbn [fst snd] in Hs, Ht.
    cbn [products].
    destruct (product_spec sigma tau Hs Ht) as (Hp & _ & _ & Hrun).
    rewrite Hrun by assumption. cbn [bind].
    rewrite contains_WF by assumption. cbn [bind].
    destruct (existsb _ group) eqn:Eg; [now apply IH|].
    rewrite contains_WF by assumption. cbn [bind].
    destruct (existsb _ new) eqn:En; [now apply IH|].
    destruct (IH (new ++ [product sigma tau]) Hrest) as (ext & E & Hext & Hfresh).
    { apply Forall_app. split; [assumption|]. now constructor. }
    exists (product sigma tau :: ext). rewrite E, <- app_assoc. split; [reflexivity|].
    split; [now constructor|]. intros y [<-|Hy]; [|now apply Hfresh].
    rewrite existsb_code in Eg. intros Hin. apply mem_In in Hin. congruence.
Qed.

Lemma list_prod_WF group : Forall WF group ->
  Forall (fun st => WF (fst st) /\ WF (snd st)) (list_prod group group).
Proof.
  intros H. rewrite Forall_forall in *. intros [a b] Hab.
  apply in_prod_iff in Hab. cbn. split; apply H; tauto.
Qed.

Lemma filter_shrinks (p q : Z -> bool) (l : list Z) (a : Z) :
  (forall x, q x = true -> p x = true) -> In a l -> p a = true -> q a = false ->
  (length (filter q l) < length (filter p l))%nat.
Proof.
  intros Hqp. induction l as [|x l IH]; [intros []|]. intros Hin Hpa Hqa.
  assert (Hle : forall l', (length (filter q l') <= length (filter p l'))%nat).
  { induction l' as [|y l' IH']; [reflexivity|]. cbn.
    destruct (q y) eqn:Q; [rewrite (Hqp y Q); cbn; lia|].
    destruct (p y); cbn; lia. }
  cbn. destruct Hin as [->|Hin].
  - rewrite Hpa, Hqa. cbn. specialize (Hle l). lia.
  - specialize (IH Hin Hpa Hqa). destruct (q x) eqn:Q; [rewrite (Hqp x Q); cbn; lia|].
    destruct (p x); cbn; lia.
Qed.

Lemma missing_shrinks universe group y ext :
  In (code y) universe -> ~ In (code y) (map code group) ->
  (length (missing universe (group ++ y :: ext)) < length (missing universe group))%nat.
Proof.
  intros Hu Hfresh. unfold missing. apply (filter_shrinks _ _ _ (code y)).
  - intros h Hh. apply negb_true_iff in Hh. apply negb_true_iff.
    destruct (mem h (map code group)) eqn:M; [|reflexivity].
    apply mem_In in M. rewrite <- Hh. symmetry. apply mem_In.
    rewrite map_app. apply in_app_iff. now left.
  - assumption.
  - apply negb_true_iff. destruct (mem _ _) eqn:M; [|reflexivity].
    apply mem_In in M. contradiction.
  - apply negb_false_iff. apply mem_In. rewrite map_app. apply in_app_iff. right. now left.
Qed.

Section Closure.

Variable universe : list Z.
Hypothesis Huniverse : forall p, WF p -> In (code p) universe.

Lemma closure_run : forall k group size fuel inner,
  Forall WF group -> (length (missing universe group) <= k)%nat ->
  (k < fuel)%nat -> (9 <= inner)%nat ->
  exists g, closure fuel inner group size = Ok g /\ Forall WF g.
Proof.
  induction k as [|k IH]; intros group size fuel inner Hgroup Hk Hfuel Hinner;
    (destruct fuel as [|fuel]; [lia|]); cbn [closure];
    (destruct (Nat.eqb size (length group)); [now exists group|]);
    destruct (products_run inner group Hinner Hgroup (list_prod group group) []
                (list_prod_WF group Hgroup) (Forall_nil _)) as (ext & E & Hext & Hfresh);
    rewrite E; cbn [bind app];
    (destruct ext as [|y ext];
     [rewrite app_nil_r; exists group; split; [|assumption];
      destruct fuel; cbn [closure]; now rewrite Nat.eqb_refl|]).
  - exfalso.
    assert (Hy : (length (missing universe (group ++ y :: ext))
                  < length (missing universe group))%nat).
    { apply missing_shrinks; [apply Huniverse; now inversion Hext|apply Hfresh; now left]. }
    lia.
  - apply IH; [apply Forall_app; now split| |lia|assumption].
    assert (Hy : (length (missing universe (group ++ y :: ext))
                  < length (missing universe group))%nat).
    { apply missing_shrinks; [apply Huniverse; now inversion Hext|apply Hfresh; now left]. }
    lia.
Qed.

End Closure.

Lemma insert_WF x : WF x -> forall l, Forall WF l ->
  exists l', insert x l = Ok l' /\ Forall WF l'.
Proof.
  intros Hx. induction 1 as [|y l Hy Hl (l' & E & Hl')].
  - exists [x]. split; [reflexivity|]. now constructor.
  - cbn [insert]. rewrite WF_lt by assumption. cbn [bind].
    destruct (code x <? code y).
    + rewrite E. cbn [bind]. exists (y :: l'). split; [reflexivity|]. now constructor.
    + exists (x :: y :: l). split; [reflexivity|].
      constructor; [assumption|constructor; assumption].
Qed.

Lemma sorted_WF l : Forall WF l -> exists l', sorted l = Ok l' /\ Forall WF l'.
Proof.
  induction 1 as [|x l Hx Hl (l' & E & Hl')].
  - exists []. split; [reflexivity|constructor].
  - cbn [sorted]. rewrite E. cbn [bind]. now apply insert_WF.
Qed.

(** *** The codes of well-formed permutations are bounded *)

Lemma WF_canonical p : WF p ->
  exists cs, canonical (action p) (Perm.max p) cs /\ Perm.string p = text_of cs.
Proof.
  intros Hp.
  destruct (apply_canonical (Perm.description p) (Perm.max p) (action p)) with (fuel := 9%nat)
    as (cs & E & Hcan).
  - intros x _. rewrite (wf_image p Hp). f_equal. symmetry. now apply wf_action.
  - apply wf_permutes; [assumption|lia].
  - pose proof (wf_size p Hp). lia.
  - exists cs. split; [assumption|]. rewrite (wf_string p Hp) in E. congruence.
Qed.

Lemma decimal_bound ds : Forall (fun d => 0 <= d <= 9) ds ->
  0 <= decimal ds < 10 ^ Z.of_nat (length ds).
Proof.
  induction 1 as [|d ds Hd _ IH]; [cbn; lia|]. cbn [decimal length].
  rewrite Nat2Z.inj_succ, Z.pow_succ_r by lia.
  assert (0 < 10 ^ Z.of_nat (length ds)) by (apply Z.pow_pos_nonneg; lia). nia.
Qed.

Lemma zero_filled_bound s : 0 <= zero_filled_value s < 10 ^ Z.of_nat (length s).
Proof.
  unfold zero_filled_value. rewrite <- (length_map (fun c => if is_digit c
    then Z.of_N (N_of_ascii c) - 48 else 0) s). apply decimal_bound.
  apply Forall_forall. intros d Hd. apply in_map_iff in Hd as (c & <- & _).
  destruct (is_digit c) eqn:D; [|lia]. unfold is_digit in D.
  apply andb_true_iff in D as [D1 D2]. apply N.leb_le in D1, D2. lia.
Qed.

Lemma join_length {A : Type} (sep : list A) (l : list (list A)) :
  (length (join sep l) <= length (concat l) + length sep * length l)%nat.
Proof.
  induction l as [|s l IH]; [cbn; lia|]. destruct l as [|s' l].
  - cbn. rewrite app_nil_r. lia.
  - rewrite join_cons. cbn [concat length]. rewrite !length_app.
    cbn [concat length] in IH. rewrite length_app in IH. lia.
Qed.

Lemma concat_nonempty_length (cs : list (list Z)) :
  Forall (fun c => c <> []) cs -> (length cs <= length (concat cs))%nat.
Proof.
  induction 1 as [|c cs Hc _ IH]; [reflexivity|]. cbn. rewrite length_app.
  destruct c; [congruence|]. cbn. lia.
Qed.

Lemma text_length g m cs : 1 <= m <= 9 -> canonical g m cs ->
  (length (text_of cs) <= 29)%nat.
Proof.
  intros Hm Hcan. destruct (canonical_shape g m cs Hm Hcan) as (Hne & Hnn & Hdig).
  rewrite text_of_digits by assumption.
  assert (Hn : (length (concat cs) <= 9)%nat).
  { replace 9%nat with (length (range 1 10)) by reflexivity.
    apply NoDup_incl_length; [apply Hcan|]. intros x Hx. apply range_In.
    apply (can_cover _ _ _ Hcan) in Hx. lia. }
  pose proof (concat_nonempty_length cs Hnn) as Hc.
  pose proof (join_length (py ")(") (map digits cs)) as Hj.
  assert (Hd : length (concat (map digits cs)) = length (concat cs)).
  { clear. induction cs as [|c cs IH]; [reflexivity|]. cbn. rewrite !length_app, IH.
    unfold digits. now rewrite length_map. }
  rewrite Hd, length_map in Hj. change (length (py ")(")) with 2%nat in Hj.
  rewrite !length_app. change (length (py "(")) with 1%nat.
  change (length (py ")")) with 1%nat. lia.
Qed.

Lemma WF_code_bound p : WF p -> 0 <= code p < 10 ^ 29.
Proof.
  intros Hp. destruct (WF_canonical p Hp) as (cs & Hcan & E).
  pose proof (text_length _ _ cs (wf_size p Hp) Hcan) as HL.
  pose proof (zero_filled_bound (Perm.string p)) as Hb. rewrite E in Hb. unfold code.
  rewrite E. split; [lia|]. eapply Z.lt_le_trans; [apply Hb|].
  apply Z.pow_le_mono_r; lia.
Qed.

Lemma generate_group_total_in (universe : list Z) elements :
  (forall p, WF p -> In (code p) universe) -> Forall WF elements ->
  exists group, returns (fun fuel => generate_group fuel elements) group /\
    Forall WF group.
Proof.
  intros Hu Hel. remember (length (missing universe elements)) as k eqn:Ek.
  destruct (closure_run universe Hu k elements 0%nat (10 + k)%nat (10 + k)%nat Hel)
    as (g & E & Hg); [lia|lia|lia|].
  destruct (sorted_WF g Hg) as (g' & E' & Hg').
  exists g'. split; [|assumption].
  apply (mono_returns _ (10 + k)%nat); [apply generate_group_mono|].
  unfold generate_group. rewrite E. cbn [bind]. exact E'.
Qed.

(** [generate_group] returns for every list of well-formed generators. *)
Lemma generate_group_total elements : Forall WF elements ->
  exists group, returns (fun fuel => generate_group fuel elements) group /\
    Forall WF group.
Proof.
  apply (generate_group_total_in (range 0 (10 ^ 29))).
  intros p Hp. apply (proj2 (range_In 0 (10 ^ 29) (code p))). now apply WF_code_bound.
Qed.

(** *** What construction can raise *)

Lemma mapM_app {A B : Type} (f : A -> res B) (l l' : list A) :
  mapM f (l ++ l') = (a <- mapM f l ;; b <- mapM f l' ;; Ok (a ++ b)).
Proof.
  induction l as [|x l IH]; cbn [app mapM bind].
  - destruct (mapM f l'); reflexivity.
  - destruct (f x); cbn [bind]; try reflexivity. rewrite IH.
    destruct (mapM f l); cbn [bind]; try reflexivity.
    destruct (mapM f l'); reflexivity.
Qed.

(** The value of a digit character. *)
Lemma mapM_int_char s :
  (forallb is_digit s = true /\
   mapM int_char s = Ok (map (fun c => Z.of_N (N_of_ascii c) - 48) s)) \/
  (forallb is_digit s = false /\ mapM int_char s = Raise (ValueError invalid_literal)).
Proof.
  induction s as [|c s IH]; [left; split; reflexivity|]. cbn [forallb mapM map].
  unfold int_char. destruct (is_digit c); cbn [andb bind]; [|right; split; reflexivity].
  fold int_char.
  destruct IH as [[-> ->]|[-> ->]]; [left|right]; split; reflexivity.
Qed.

(** [parse] either finds digits only, and gives doubled cycles, or raises the
    error of [int]. *)
Lemma parse_cases t :
  (forallb is_digit (concat (split (strip t))) = true /\
   exists cs, Perm.parse t = Ok (map double cs)) \/
  (forallb is_digit (concat (split (strip t))) = false /\
   Perm.parse t = Raise (ValueError invalid_literal)).
Proof.
  unfold Perm.parse. induction (split (strip t)) as [|i pieces IH].
  - left. split; [reflexivity|]. now exists [].
  - cbn [concat mapM]. rewrite forallb_app, mapM_app.
    destruct (mapM_int_char i) as [[-> ->]|[-> ->]]; cbn [andb bind]; [|right; split; reflexivity].
    destruct IH as [[-> (cs & ->)]|[-> ->]]; cbn [bind]; [left|right]; split; try reflexivity.
    now exists (map (fun c => Z.of_N (N_of_ascii c) - 48) i :: cs).
Qed.

Lemma orbit_double_raise cs fuel element : forall cur e,
  Perm.orbit fuel (map double cs) element cur <> Raise e.
Proof.
  induction fuel as [|fuel IH]; intros cur e; cbn [Perm.orbit];
    (destruct (count element cur <? 2); [|discriminate]); [discriminate|].
  rewrite image_double. cbn [bind]. apply IH.
Qed.

Lemma apply_double_raise cs fuel maximum e :
  Perm.apply fuel maximum (map double cs) = Raise e -> e = ValueError empty_sequence.
Proof.
  unfold Perm.apply.
  assert (H : forall outer result, Perm.apply_loop outer fuel maximum (map double cs) result
            = Raise e -> e = ValueError empty_sequence).
  { induction outer as [|outer IH]; intros result; cbn [Perm.apply_loop];
      (destruct (_ <? maximum); [|discriminate]); [discriminate|].
    destruct (py_min _) as [element| |] eqn:Emin; cbn [bind]; try discriminate.
    - destruct (Perm.orbit fuel (map double cs) element [element]) as [r| |] eqn:Eo;
        cbn [bind]; try discriminate; [apply IH|].
      now apply orbit_double_raise in Eo.
    - unfold py_min in Emin. destruct (filter _ _); [|discriminate]. congruence. }
  destruct (Perm.apply_loop fuel fuel maximum (map double cs) []) eqn:E; cbn [bind];
    try discriminate. intros [= <-]. eapply H. exact E.
Qed.

Lemma mapM_py_max_raise d e : mapM py_max d = Raise e -> e = ValueError empty_sequence.
Proof.
  induction d as [|c d IH]; [discriminate|]. cbn [mapM].
  destruct c as [|x c]; cbn [py_max bind]; [congruence|].
  destruct (mapM py_max d); cbn [bind]; try discriminate. intros [= <-]. now apply IH.
Qed.

Lemma ground_raise m d e : Perm.ground m d = Raise e -> e = ValueError empty_sequence.
Proof.
  destruct m as [m|]; [discriminate|]. cbn [Perm.ground].
  destruct (mapM py_max d) as [ms| |] eqn:E; cbn [bind]; try discriminate.
  - destruct ms; cbn; [congruence|discriminate].
  - intros [= <-]. now apply mapM_py_max_raise in E.
Qed.

Lemma mapM_py_max_empty d : In [] d -> mapM py_max d = Raise (ValueError empty_sequence).
Proof.
  induction d as [|c d IH]; [intros []|]. intros [->|H]; [reflexivity|]. cbn [mapM].
  destruct c; [reflexivity|]. cbn [py_max bind]. now rewrite IH.
Qed.

(** *** Construction of well-formed input *)

Lemma construct_proper t m cs n :
  Perm.parse t = Ok (map double cs) -> Perm.ground m (map double cs) = Ok n ->
  1 <= n <= 9 -> (forall x, In x (concat cs) -> 1 <= x <= n) -> NoDup (concat cs) ->
  exists p, returns (fun fuel => construct fuel t m) p /\ WF p.
Proof.
  intros P G Hn Hrange Hnd.
  destruct (apply_canonical (map double cs) n (via cs)) with (fuel := 9%nat) as (cs' & A & Hcan).
  - intros x _. apply image_double.
  - now apply (via_permutes cs n n).
  - lia.
  - exists {| Perm.description := map double cs; Perm.max := n; Perm.string := text_of cs' |}.
    split.
    + apply (mono_returns _ 9%nat); [apply init_mono|].
      unfold construct, Perm.__init__. rewrite P. cbn [bind]. rewrite G. cbn [bind].
      rewrite A. reflexivity.
    + constructor; unfold cycles_of; cbn [Perm.max Perm.description Perm.string];
        rewrite ?map_half_double; auto.
Qed.

(** *** Powers and signs *)

Lemma power_total x k : WF x -> 0 <= k ->
  exists p, returns (fun fuel => power fuel x k) p /\ WF p.
Proof.
  intros Hx Hk. unfold power, Perm.__pow__.
  destruct (Z.eqb_spec k 0) as [->|Hne].
  - exists (one (Perm.max x)). split; [|apply one_WF, Hx].
    exists 9%nat. intros fuel Hf. destruct fuel as [|depth]; [lia|]. cbn [Perm.pow].
    change (0 <? 0) with false. change (0 =? 0) with true. cbv iota.
    apply one_run; [apply Hx|assumption].
  - exists (power_succ x (Z.to_nat k - 1)). split; [|now apply power_succ_spec].
    exists (9 + Z.to_nat k)%nat. intros fuel Hf.
    replace k with (Z.of_nat (S (Z.to_nat k - 1))) at 1 by lia.
    apply pow_run; [assumption|lia|lia].
Qed.

Lemma minus_one_power k : 0 <= k -> (-1) ^ k = 1 \/ (-1) ^ k = -1.
Proof.
  intros Hk. pattern k. apply natlike_ind; [now left| |assumption].
  intros j Hj [IH|IH]; rewrite Z.pow_succ_r, IH by assumption; [now right|now left].
Qed.

Lemma sum_nonneg l : Forall (fun x => 0 <= x) l -> 0 <= sum l.
Proof.
  unfold sum. assert (H : forall acc, 0 <= acc -> Forall (fun x => 0 <= x) l ->
                          0 <= fold_left Z.add l acc).
  { induction l as [|x l IH]; intros acc Hacc Hall; [assumption|]. cbn.
    inversion Hall; subst. apply IH; [lia|assumption]. }
  apply H. lia.
Qed.

Lemma sgn_unit sigma : sgn sigma = 1 \/ sgn sigma = -1.
Proof.
  unfold sgn. apply minus_one_power. apply sum_nonneg.
  apply Forall_forall. intros x Hx. apply in_map_iff in Hx as (s & <- & _). lia.
Qed.

(** *** Failures and totality *)

Lemma forallb_false {A : Type} (p : A -> bool) (l : list A) :
  forallb p l = false -> exists x, In x l /\ p x = false.
Proof.
  induction l as [|x l IH]; [discriminate|]. cbn. destruct (p x) eqn:E.
  - intros H. destruct (IH H) as (y & Hy & Ey). exists y. split; [now right|assumption].
  - intros _. exists x. split; [now left|assumption].
Qed.

Lemma construct_parse_error fuel t m :
  construct fuel t m = Raise (ValueError invalid_literal) <->
  exists c, In c (concat (split (strip t))) /\ is_digit c = false.
Proof.
  unfold construct, Perm.__init__. split.
  - intros H. destruct (parse_cases t) as [[_ (cs & E)]|[D _]].
    + exfalso. rewrite E in H. cbn [bind] in H.
      destruct (Perm.ground m (map double cs)) as [n| |] eqn:G; cbn [bind] in H;
        try discriminate.
      * destruct (Perm.apply fuel n (map double cs)) as [s| |] eqn:A; cbn [bind] in H;
          try discriminate. injection H as ->. apply apply_double_raise in A. discriminate.
      * injection H as ->. apply ground_raise in G. discriminate.
    + now apply forallb_false.
  - intros (c & Hc & Dc). destruct (parse_cases t) as [[D _]|[_ ->]]; [|reflexivity].
    rewrite forallb_forall in D. rewrite (D c Hc) in Dc. discriminate.
Qed.

Lemma construct_empty_cycle fuel t d :
  Perm.parse t = Ok d -> In [] d ->
  construct fuel t None = Raise (ValueError empty_sequence).
Proof.
  intros P Hin. unfold construct, Perm.__init__. rewrite P. cbn [bind Perm.ground].
  now rewrite mapM_py_max_empty.
Qed.

Lemma forallb_WF l : forallb well_formed l = true <-> Forall WF l.
Proof.
  rewrite forallb_forall, Forall_forall. split; intros H x Hx.
  - apply well_formed_WF. now apply H.
  - apply WF_well_formed. now apply H.
Qed.

(** C9, as the code has it.  The error of [int] is raised exactly for the
    texts with a character that is no digit; without a ground size a text
    with an empty cycle raises too (the maximum of an empty list); on
    well-formed input the construction returns a well-formed permutation, and
    on well-formed permutations [multiply], [equals], the comparison,
    [inverse], [order], the powers of exponent 0 and more and
    [generateGroup] return; [sign] is +1 or -1 throughout. *)
Theorem failures_and_totality :
  (forall fuel t m,
     construct fuel t m = Raise (ValueError invalid_literal) <->
     exists c, In c (concat (split (strip t))) /\ is_digit c = false) /\
  (forall fuel t d, Perm.parse t = Ok d -> In [] d ->
     construct fuel t None = Raise (ValueError empty_sequence)) /\
  (forall t m cs n,
     Perm.parse t = Ok (map double cs) -> Perm.ground m (map double cs) = Ok n ->
     1 <= n <= 9 -> (forall x, In x (concat cs) -> 1 <= x <= n) -> NoDup (concat cs) ->
     exists p, returns (fun fuel => construct fuel t m) p /\ well_formed p = true) /\
  (forall a b, well_formed a = true -> well_formed b = true ->
     (exists p, returns (fun fuel => multiply fuel a b) p /\ well_formed p = true) /\
     (exists r, equals a b = Ok r) /\ (exists r, Perm.__lt__ a b = Ok r)) /\
  (forall a, well_formed a = true ->
     (exists i, returns (fun fuel => Perm.inverse fuel a) i /\ well_formed i = true) /\
     (exists k, returns (fun fuel => Perm.order fuel a) k) /\
     (forall k, 0 <= k ->
        exists p, returns (fun fuel => power fuel a k) p /\ well_formed p = true)) /\
  (forall a, sign a = 1 \/ sign a = -1) /\
  (forall elements, forallb well_formed elements = true ->
     exists group, returns (fun fuel => generateGroup fuel elements) group /\
       forallb well_formed group = true).
Proof.
  split; [exact construct_parse_error|].
  split; [exact construct_empty_cycle|].
  split.
  { intros t m cs n P G Hn Hrange Hnd.
    destruct (construct_proper t m cs n P G Hn Hrange Hnd) as (p & Hp & Hwf).
    exists p. split; [assumption|now apply WF_well_formed]. }
  split.
  { intros a b Ha Hb. apply well_formed_WF in Ha, Hb.
    destruct (product_spec a b Ha Hb) as (Hp & _ & _ & Hrun).
    split; [|split].
    - exists (product a b). split; [exists 9%nat; exact Hrun|now apply WF_well_formed].
    - eexists. unfold equals. now rewrite WF_eq.
    - eexists. now rewrite WF_lt. }
  split.
  { intros a Ha. apply well_formed_WF in Ha.
    destruct (walk_result a Ha) as (j & _ & _ & Hrun).
    split; [|split].
    - exists (power_succ a j). split.
      + exists (S (9 + j)). intros fuel Hf. apply Hrun. lia.
      + apply WF_well_formed. now apply power_succ_spec.
    - exists (Z.of_nat j + 2). exists (S (9 + j)). intros fuel Hf. apply Hrun. lia.
    - intros k Hk. destruct (power_total a k Ha Hk) as (p & Hp & Hwf).
      exists p. split; [assumption|now apply WF_well_formed]. }
  split; [exact sgn_unit|].
  intros elements Hel. apply forallb_WF in Hel.
  destruct (generate_group_total elements Hel) as (group & Hrun & Hg).
  exists group. split; [assumption|now apply forallb_WF].
Qed.

(** The product of (1324) and (14), and the group that (1324) generates. *)
Lemma failures_and_totality_witness :
  (exists p, returns (fun fuel => multiply fuel
       {| Perm.description := [[1; 3; 2; 4; 1; 3; 2; 4]]; Perm.max := 4;
          Perm.string := py "(1324)" |}
       {| Perm.description := [[1; 4; 1; 4]]; Perm.max := 4;
          Perm.string := py "(14)(2)(3)" |}) p /\ well_formed p = true) /\
  (exists group, returns (fun fuel => generateGroup fuel
       [{| Perm.description := [[1; 3; 2; 4; 1; 3; 2; 4]]; Perm.max := 4;
           Perm.string := py "(1324)" |}]) group /\
     forallb well_formed group = true).
Proof.
  destruct failures_and_totality as (_ & _ & _ & Hmul & _ & _ & Hgen).
  split.
  - apply Hmul; reflexivity.
  - apply Hgen. reflexivity.
Defined.

(** C7 at the identity of S_3: the generated group has one element, and
    [order] returns 2. *)
Theorem generate_identity_order :
  exists e group,
    returns (fun fuel => identity fuel 3) e /\
    returns (fun fuel => generateGroup fuel [e]) group /\
    length group = 1%nat /\
    returns (fun fuel => Perm.order fuel e) 2.
Proof.
  do 2 eexists. split; [by_run 9%nat init_mono|].
  split; [by_run 9%nat generate_group_mono|]. split; [reflexivity|].
  by_run 9%nat order_mono.
Qed.

(** What [order] computes: the smallest exponent from 2 on whose power is the
    identity. *)
Lemma order_from_two (x : Perm.t) : well_formed x = true ->
  exists k, returns (fun fuel => Perm.order fuel x) k /\ 2 <= k /\
    code (power_succ x (Z.to_nat k - 1)) = code (one (Perm.max x)) /\
    forall k', 2 <= k' < k ->
      code (power_succ x (Z.to_nat k' - 1)) <> code (one (Perm.max x)).
Proof.
  intros Hx. apply well_formed_WF in Hx.
  destruct (walk_result x Hx) as (j & Hstop & Hfirst & Hrun).
  exists (Z.of_nat j + 2). split; [exists (S (9 + j)); intros fuel Hf; apply Hrun; lia|].
  split; [lia|]. split.
  - replace (Z.to_nat (Z.of_nat j + 2) - 1)%nat with (S j) by lia. assumption.
  - intros k' Hk'. replace (Z.to_nat k' - 1)%nat with (S (Z.to_nat k' - 2)) by lia.
    apply Hfirst. lia.
Qed.

(** *** Different permutations have different codes *)

Lemma map_join {A B : Type} (g : A -> B) (sep : list A) (l : list (list A)) :
  map g (join sep l) = join (map g sep) (map (map g) l).
Proof.
  induction l as [|s l IH]; [reflexivity|]. destruct l as [|s' l]; [reflexivity|].
  change (join sep (s :: s' :: l)) with (s ++ sep ++ join sep (s' :: l)).
  rewrite !map_app, IH. reflexivity.
Qed.

Lemma value_digit_char x : 0 <= x <= 9 ->
  (if is_digit (digit_char x) then Z.of_N (N_of_ascii (digit_char x)) - 48 else 0) = x.
Proof. intros H. each_digit x H. Qed.

Lemma zero_filled_text cs : Forall (Forall (fun x => 0 <= x <= 9)) cs ->
  map (fun c => if is_digit c then Z.of_N (N_of_ascii c) - 48 else 0) (text_of cs)
  = zero_filled_digits cs.
Proof.
  intros Hall. rewrite text_of_digits by assumption. unfold zero_filled_digits.
  rewrite !map_app, map_join. do 2 f_equal. f_equal.
  rewrite map_map. rewrite <- (map_id cs) at 2. apply map_ext_in. intros c Hc.
  rewrite Forall_forall in Hall. specialize (Hall c Hc). unfold digits. rewrite map_map.
  rewrite <- (map_id c) at 2. apply map_ext_in. intros x Hx.
  rewrite Forall_forall in Hall. now apply value_digit_char, Hall.
Qed.

Lemma decimal_inj ds : forall ds', length ds = length ds' ->
  Forall (fun d => 0 <= d <= 9) ds -> Forall (fun d => 0 <= d <= 9) ds' ->
  decimal ds = decimal ds' -> ds = ds'.
Proof.
  induction ds as [|d ds IH]; intros [|d' ds'] HL H H' E; try discriminate; [reflexivity|].
  inversion H as [|? ? Hd Hds]; inversion H' as [|? ? Hd' Hds']; subst.
  cbn [decimal length] in E, HL. injection HL as HL. rewrite <- HL in E.
  pose proof (decimal_bound ds Hds) as B. pose proof (decimal_bound ds' Hds') as B'.
  rewrite <- HL in B'.
  assert (d = d') by nia. subst d'. f_equal. apply IH; try assumption. lia.
Qed.

(** The text of canonical cycles starts "(1": its code tells its length. *)
Lemma zero_filled_size cs : cs <> [] -> Forall (fun c => c <> []) cs ->
  Forall (Forall (fun x => 1 <= x <= 9)) cs ->
  10 ^ (Z.of_nat (length (zero_filled_digits cs)) - 2) <= decimal (zero_filled_digits cs)
  < 10 ^ (Z.of_nat (length (zero_filled_digits cs)) - 1).
Proof.
  intros Hne Hnn Hall. unfold zero_filled_digits.
  destruct cs as [|c cs]; [congruence|]. destruct c as [|x c]; [now inversion Hnn|].
  assert (Hx : 1 <= x <= 9) by (inversion Hall as [|? ? Hc _]; now inversion Hc).
  assert (Hjoin : exists rest, join [0; 0] ((x :: c) :: cs) ++ [0] = x :: rest /\
            Forall (fun d => 0 <= d <= 9) rest).
  { assert (Hdig : Forall (fun d => 0 <= d <= 9) (join [0; 0] ((x :: c) :: cs) ++ [0])).
    { apply Forall_app. split; [|repeat constructor; lia].
      clear - Hall. induction Hall as [|a l Ha _ IH]; [constructor|].
      destruct l as [|b l].
      - cbn. eapply Forall_impl; [|exact Ha]. cbn. lia.
      - change (join [0; 0] (a :: b :: l)) with (a ++ [0; 0] ++ join [0; 0] (b :: l)).
        apply Forall_app. split; [eapply Forall_impl; [|exact Ha]; cbn; lia|].
        apply Forall_app. split; [repeat constructor; lia|exact IH]. }
    destruct cs as [|c' cs].
    - cbn in *. eexists. split; [reflexivity|]. now inversion Hdig.
    - change (join [0; 0] ((x :: c) :: c' :: cs))
        with ((x :: c) ++ [0; 0] ++ join [0; 0] (c' :: cs)) in *.
      cbn [app] in *. eexists. split; [reflexivity|]. now inversion Hdig. }
  destruct Hjoin as (rest & -> & Hrest).
  cbn [app length decimal]. pose proof (decimal_bound rest Hrest) as B.
  rewrite !Nat2Z.inj_succ.
  replace (Z.succ (Z.succ (Z.of_nat (length rest))) - 2) with (Z.of_nat (length rest)) by lia.
  replace (Z.succ (Z.succ (Z.of_nat (length rest))) - 1)
    with (Z.succ (Z.of_nat (length rest))) by lia.
  replace (Z.of_nat (S (length rest))) with (Z.succ (Z.of_nat (length rest))) by lia.
  rewrite Z.pow_succ_r by lia. nia.
Qed.

Lemma zero_free_prefix (c c' r r' : list Z) :
  Forall (fun x => x <> 0) c -> Forall (fun x => x <> 0) c' ->
  c ++ 0 :: r = c' ++ 0 :: r' -> c = c' /\ r = r'.
Proof.
  intros H. revert c'. induction H as [|x c Hx _ IH]; intros c' H' E.
  - destruct c' as [|y c']; [cbn in E; split; congruence|].
    cbn in E. inversion H' as [|? ? Hy Hc']; subst. congruence.
  - destruct c' as [|y c']; [cbn in E; congruence|].
    cbn in E. injection E as -> E. inversion H' as [|? ? Hy Hc']; subst.
    destruct (IH c' Hc' E) as [-> ->]. now split.
Qed.

Lemma zero_filled_digits_inj cs : forall cs',
  Forall (Forall (fun x => x <> 0)) cs -> Forall (Forall (fun x => x <> 0)) cs' ->
  cs <> [] -> cs' <> [] ->
  join [0; 0] cs ++ [0] = join [0; 0] cs' ++ [0] -> cs = cs'.
Proof.
  induction cs as [|c cs IH]; intros cs' H H' Hne Hne' E; [congruence|].
  destruct cs' as [|c' cs']; [congruence|].
  inversion H as [|? ? Hc Hcs]; inversion H' as [|? ? Hc' Hcs']; subst.
  assert (Hshape : forall (a : list Z) l, join [0; 0] (a :: l) ++ [0]
            = a ++ 0 :: match l with [] => [] | _ => 0 :: (join [0; 0] l ++ [0]) end).
  { intros a [|b l]; [reflexivity|].
    change (join [0; 0] (a :: b :: l)) with (a ++ [0; 0] ++ join [0; 0] (b :: l)).
    now rewrite <- !app_assoc. }
  rewrite !Hshape in E. apply zero_free_prefix in E as [-> E]; try assumption.
  f_equal. destruct cs as [|b cs]; destruct cs' as [|b' cs']; try discriminate; [reflexivity|].
  injection E as E. apply IH; try assumption; discriminate.
Qed.

(** Well-formed permutations of one ground size with one code act alike. *)
Lemma code_cycles a b : WF a -> WF b -> code a = code b ->
  exists cs, canonical (action a) (Perm.max a) cs /\ canonical (action b) (Perm.max b) cs /\
    Perm.string a = text_of cs /\ Perm.string b = text_of cs.
Proof.
  intros Ha Hb E.
  destruct (WF_canonical a Ha) as (cs & Hcan & Sa).
  destruct (WF_canonical b Hb) as (cs' & Hcan' & Sb).
  pose proof (wf_size a Ha) as Hn. pose proof (wf_size b Hb) as Hn'.
  destruct (canonical_shape _ _ cs Hn Hcan) as (Hne & Hnn & Hdig).
  destruct (canonical_shape _ _ cs' Hn' Hcan') as (Hne' & Hnn' & Hdig').
  assert (Hpos : forall g m l, 1 <= m <= 9 -> canonical g m l ->
            Forall (Forall (fun x => 1 <= x <= 9)) l).
  { intros g m l Hm Hl. apply Forall_forall. intros c Hc. apply Forall_forall. intros x Hx.
    assert (1 <= x <= m); [|lia]. apply (can_cover _ _ _ Hl). apply in_concat. now exists c. }
  pose proof (Hpos _ _ cs Hn Hcan) as P. pose proof (Hpos _ _ cs' Hn' Hcan') as P'.
  unfold code, zero_filled_value in E. rewrite Sa, Sb in E.
  rewrite !zero_filled_text in E by assumption.
  assert (Hd : forall l, Forall (Forall (fun x => 1 <= x <= 9)) l ->
            Forall (fun d => 0 <= d <= 9) (zero_filled_digits l)).
  { intros l Hl. unfold zero_filled_digits.
    apply Forall_app. split; [repeat constructor; lia|].
    apply Forall_app. split; [|repeat constructor; lia].
    induction Hl as [|c l0 Hc _ IH]; [constructor|]. destruct l0 as [|c0 l0].
    - cbn. eapply Forall_impl; [|exact Hc]. cbn. lia.
    - change (join [0; 0] (c :: c0 :: l0)) with (c ++ [0; 0] ++ join [0; 0] (c0 :: l0)).
      apply Forall_app. split; [eapply Forall_impl; [|exact Hc]; cbn; lia|].
      apply Forall_app. split; [repeat constructor; lia|exact IH]. }
  pose proof (zero_filled_size cs Hne Hnn P) as B.
  pose proof (zero_filled_size cs' Hne' Hnn' P') as B'.
  assert (HL : length (zero_filled_digits cs) = length (zero_filled_digits cs')).
  { destruct (Nat.lt_trichotomy (length (zero_filled_digits cs))
                (length (zero_filled_digits cs'))) as [L|[L|L]]; [exfalso|assumption|exfalso].
    - assert (10 ^ (Z.of_nat (length (zero_filled_digits cs)) - 1)
              <= 10 ^ (Z.of_nat (length (zero_filled_digits cs')) - 2));
        [apply Z.pow_le_mono_r; lia|lia].
    - assert (10 ^ (Z.of_nat (length (zero_filled_digits cs')) - 1)
              <= 10 ^ (Z.of_nat (length (zero_filled_digits cs)) - 2));
        [apply Z.pow_le_mono_r; lia|lia]. }
  apply (decimal_inj _ _ HL (Hd cs P) (Hd cs' P')) in E.
  unfold zero_filled_digits in E. cbn [app] in E. injection E as E.
  assert (Hnz : forall l, Forall (Forall (fun x => 1 <= x <= 9)) l ->
            Forall (Forall (fun x => x <> 0)) l).
  { intros l Hl. eapply Forall_impl; [|exact Hl]. intros c Hc.
    eapply Forall_impl; [|exact Hc]. cbn. lia. }
  apply zero_filled_digits_inj in E; try (apply Hnz; assumption); try assumption.
  subst cs'. exists cs. auto.
Qed.

Lemma code_inj a b : WF a -> WF b -> Perm.max a = Perm.max b -> code a = code b ->
  forall z, action a z = action b z.
Proof.
  intros Ha Hb Hmax E.
  destruct (code_cycles a b Ha Hb E) as (cs & Hcan & Hcan' & _ & _). intros z.
  destruct (Z_le_dec 1 z) as [H1|H1]; [destruct (Z_le_dec z (Perm.max a)) as [H2|H2]|].
  - rewrite <- (via_canonical _ _ cs z Hcan) by lia.
    rewrite <- (via_canonical _ _ cs z Hcan') by lia. reflexivity.
  - rewrite !wf_fixes by (assumption || lia). reflexivity.
  - rewrite !wf_fixes by (assumption || lia). reflexivity.
Qed.

(** *** The group of one generator *)

Lemma insert_perm x : forall l l', insert x l = Ok l' -> Permutation (x :: l) l'.
Proof.
  induction l as [|y l IH]; intros l'; cbn [insert].
  - intros [= <-]. reflexivity.
  - destruct (Perm.__lt__ y x) as [[|]| |]; cbn [bind]; try discriminate.
    + destruct (insert x l) as [r| |]; cbn [bind]; try discriminate.
      intros [= <-]. rewrite perm_swap. constructor. now apply IH.
    + intros [= <-]. reflexivity.
Qed.

Lemma sorted_perm : forall l l', sorted l = Ok l' -> Permutation l l'.
Proof.
  induction l as [|x l IH]; intros l'; cbn [sorted].
  - intros [= <-]. constructor.
  - destruct (sorted l) as [r| |]; cbn [bind]; try discriminate.
    intros E. apply insert_perm in E. rewrite <- E. constructor. now apply IH.
Qed.

Section Cyclic.

Variable x : Perm.t.
Hypothesis Hx : WF x.

Local Abbreviation n := (Perm.max x).
Local Abbreviation f := (action x).
Local Abbreviation pw j := (power_succ x j).

Lemma power_is_power j : is_power x (pw j).
Proof.
  destruct (power_succ_spec x Hx j) as (H1 & H2 & H3).
  split; [assumption|]. split; [assumption|]. now exists j.
Qed.

Lemma is_power_code y m : WF y -> Perm.max y = n ->
  (forall z, action y z = Nat.iter (S m) f z) -> code y = code (pw m).
Proof.
  intros Hy Hmax Hact. destruct (power_succ_spec x Hx m) as (H1 & H2 & H3).
  unfold code. f_equal. apply same_action_string; try assumption; [congruence|].
  intros z. now rewrite Hact, H3.
Qed.

Lemma product_is_power a b : is_power x a -> is_power x b -> is_power x (product a b).
Proof.
  intros (Ha & Hma & ma & Hacta) (Hb & Hmb & mb & Hactb).
  destruct (product_spec a b Ha Hb) as (Hp & Hpmax & Hpact & _).
  split; [assumption|]. split; [lia|]. exists (ma + S mb)%nat.
  intros z. rewrite Hpact, Hacta, Hactb, <- Nat.iter_add. reflexivity.
Qed.

Lemma is_power_WF l : Forall (is_power x) l -> Forall WF l.
Proof. apply Forall_impl. intros y Hy. apply Hy. Qed.

(** One pass, for powers of [x]. *)
Lemma products_pass inner group : (9 <= inner)%nat -> Forall (is_power x) group ->
  forall pairs new,
    Forall (fun st => is_power x (fst st) /\ is_power x (snd st)) pairs ->
    Forall (is_power x) new -> NoDup (map code (group ++ new)) ->
    exists ext, products inner group pairs new = Ok (new ++ ext) /\
      Forall (is_power x) ext /\ NoDup (map code (group ++ new ++ ext)) /\
      forall st, In st pairs ->
        In (code (product (fst st) (snd st))) (map code (group ++ new ++ ext)).
Proof.
  intros Hinner Hgroup pairs.
  induction pairs as [|[sigma tau] rest IH]; intros new Hpairs Hnew Hnd.
  - exists []. rewrite app_nil_r. split; [reflexivity|]. split; [constructor|].
    split; [assumption|intros st []].
  - inversion Hpairs as [|? ? [Hs Ht] Hrest]; subst. cbn [fst snd] in Hs, Ht.
    cbn [products].
    pose proof (product_is_power sigma tau Hs Ht) as Hp.
    destruct (product_spec sigma tau (proj1 Hs) (proj1 Ht)) as (_ & _ & _ & Hrun).
    rewrite Hrun by assumption. cbn [bind].
    rewrite contains_WF by (apply Hp || now apply is_power_WF). cbn [bind].
    destruct (existsb _ group) eqn:Eg.
    { destruct (IH new Hrest Hnew Hnd) as (ext & E & Hext & Hnd' & Hin).
      exists ext. split; [assumption|]. split; [assumption|]. split; [assumption|].
      intros st [<-|Hst]; [|now apply Hin]. cbn [fst snd].
      rewrite existsb_code in Eg. apply mem_In in Eg.
      rewrite map_app. apply in_app_iff. now left. }
    rewrite contains_WF by (apply Hp || now apply is_power_WF). cbn [bind].
    destruct (existsb _ new) eqn:En.
    { destruct (IH new Hrest Hnew Hnd) as (ext & E & Hext & Hnd' & Hin).
      exists ext. split; [assumption|]. split; [assumption|]. split; [assumption|].
      intros st [<-|Hst]; [|now apply Hin]. cbn [fst snd].
      rewrite existsb_code in En. apply mem_In in En.
      rewrite !map_app. apply in_app_iff. right. apply in_app_iff. now left. }
    destruct (IH (new ++ [product sigma tau]) Hrest) as (ext & E & Hext & Hnd' & Hin).
    { apply Forall_app. split; [assumption|]. now constructor. }
    { rewrite app_assoc, map_app. cbn [map].
      apply NoDup_app; [assumption|repeat constructor; intros []|].
      intros h Hh [<-|[]]. rewrite map_app in Hh. apply in_app_iff in Hh as [Hh|Hh].
      - rewrite existsb_code in Eg. apply mem_In in Hh. congruence.
      - rewrite existsb_code in En. apply mem_In in Hh. congruence. }
    rewrite <- app_assoc in E, Hnd', Hin. cbn [app] in E, Hnd', Hin.
    exists (product sigma tau :: ext). split; [assumption|].
    split; [now constructor|]. split; [assumption|].
    intros st [<-|Hst]; [|now apply Hin]. cbn [fst snd].
    rewrite !map_app. apply in_app_iff. right. apply in_app_iff. right. now left.
Qed.

Lemma list_prod_powers group : Forall (is_power x) group ->
  Forall (fun st => is_power x (fst st) /\ is_power x (snd st)) (list_prod group group).
Proof.
  intros H. rewrite Forall_forall in *. intros [a b] Hab.
  apply in_prod_iff in Hab. cbn. split; apply H; tauto.
Qed.

Variable universe : list Z.
Hypothesis Huniverse : forall p, WF p -> In (code p) universe.

(** The closure loop ends with a closed list of powers of [x], without
    repeated codes. *)
Lemma closure_cyclic : forall k group size fuel inner,
  Forall (is_power x) group -> NoDup (map code group) ->
  (size = length group -> closed group) ->
  (length (missing universe group) <= k)%nat -> (k < fuel)%nat -> (9 <= inner)%nat ->
  exists g, closure fuel inner group size = Ok g /\
    Forall (is_power x) g /\ NoDup (map code g) /\ closed g /\ incl group g.
Proof.
  induction k as [|k IH]; intros group size fuel inner Hgroup Hnd Hclosed Hk Hfuel Hinner;
    (destruct fuel as [|fuel]; [lia|]); cbn [closure];
    (destruct (Nat.eqb_spec size (length group)) as [Es|Es];
     [exists group; split; [reflexivity|]; split; [assumption|]; split; [assumption|];
      split; [now apply Hclosed|apply incl_refl]|]);
    (destruct (products_pass inner group Hinner Hgroup (list_prod group group) []
                (list_prod_powers group Hgroup) (Forall_nil _))
       as (ext & E & Hext & Hnd' & Hin); [now rewrite app_nil_r|]);
    rewrite E; cbn [bind app]; cbn [app] in Hnd', Hin;
    (destruct ext as [|y ext];
     [rewrite app_nil_r in *; exists group; split;
      [destruct fuel; cbn [closure]; now rewrite Nat.eqb_refl|];
      split; [assumption|]; split; [assumption|]; split; [|apply incl_refl];
      intros a b Ha Hb; apply (Hin (a, b)); apply in_prod_iff; now split|]).
  - exfalso.
    assert (Hy : (length (missing universe (group ++ y :: ext))
                  < length (missing universe group))%nat).
    { apply missing_shrinks.
      - apply Huniverse. inversion Hext as [|? ? Hy _]; subst. apply Hy.
      - rewrite map_app in Hnd'. cbn [map] in Hnd'. intros Hc.
        apply NoDup_remove_2 in Hnd'. apply Hnd'. apply in_app_iff. now left. }
    lia.
  - destruct (IH (group ++ y :: ext) (length group) fuel inner)
      as (g & Eg & Hg & Hndg & Hcl & Hincl); try assumption; try lia.
    + apply Forall_app. now split.
    + intros El. rewrite length_app in El. cbn in El. lia.
    + assert (Hy : (length (missing universe (group ++ y :: ext))
                    < length (missing universe group))%nat).
      { apply missing_shrinks.
        - apply Huniverse. inversion Hext as [|? ? Hy _]; subst. apply Hy.
        - rewrite map_app in Hnd'. cbn [map] in Hnd'. intros Hc.
          apply NoDup_remove_2 in Hnd'. apply Hnd'. apply in_app_iff. now left. }
      lia.
    + exists g. split; [assumption|]. split; [assumption|]. split; [assumption|].
      split; [assumption|]. intros a Ha. apply Hincl. apply in_app_iff. now left.
Qed.

End Cyclic.

(** *** Its size is the order of the generator *)

Lemma action_injective x a b : WF x -> action x a = action x b -> a = b.
Proof.
  intros Hx E. pose proof (wf_permutes x Hx (Perm.max x) (Z.le_refl _)) as [Hin Hinj].
  destruct (Z_le_dec 1 a) as [A1|A1]; [destruct (Z_le_dec a (Perm.max x)) as [A2|A2]|];
  (destruct (Z_le_dec 1 b) as [B1|B1]; [destruct (Z_le_dec b (Perm.max x)) as [B2|B2]|]);
  try (rewrite (wf_fixes x Hx a) in E by lia);
  try (rewrite (wf_fixes x Hx b) in E by lia);
  try assumption;
  try (apply Hinj; (assumption || lia));
  try (specialize (Hin a ltac:(lia)); lia);
  try (specialize (Hin b ltac:(lia)); lia).
Qed.

Lemma iter_injective x k a b : WF x ->
  Nat.iter k (action x) a = Nat.iter k (action x) b -> a = b.
Proof.
  intros Hx. induction k as [|k IH]; [trivial|]. rewrite !Nat.iter_succ.
  intros E. apply IH. now apply (action_injective x).
Qed.

Lemma iter_cycle (g : Z -> Z) K : (0 < K)%nat -> (forall z, Nat.iter K g z = z) ->
  forall m z, Nat.iter (S m) g z = Nat.iter (S (m mod K)) g z.
Proof.
  intros HK Hid m z.
  replace (S m) with (S (m mod K) + (m / K) * K)%nat
    by (pose proof (Nat.div_mod_eq m K); lia).
  rewrite Nat.iter_add. f_equal. apply iter_multiple. apply Hid.
Qed.

Section Count.

Variable x : Perm.t.
Hypothesis Hx : WF x.

Local Abbreviation n := (Perm.max x).
Local Abbreviation f := (action x).
Local Abbreviation pw j := (power_succ x j).

Variables (G : list Perm.t) (j : nat).
Hypothesis HG : Forall (is_power x) G.
Hypothesis Hnd : NoDup (map code G).
Hypothesis Hclosed : closed G.
Hypothesis HxG : In x G.
Hypothesis Hstop : code (pw (S j)) = code (one n).
Hypothesis Hfirst : forall i, (i <= j)%nat -> code (pw i) <> code (one n).

Lemma cycle_identity z : Nat.iter (S (S j)) f z = z.
Proof.
  destruct (power_succ_spec x Hx (S j)) as (H1 & H2 & H3).
  rewrite <- H3. rewrite <- (one_action n z) at 2 by apply Hx.
  apply code_inj; try assumption.
  - apply one_WF, Hx.
  - rewrite H2. symmetry. apply one_spec, Hx.
Qed.

Lemma power_codes_differ i i' : (i < i')%nat -> (i' < S (S j))%nat ->
  code (pw i) <> code (pw i').
Proof.
  intros Hlt Hi' E.
  destruct (power_succ_spec x Hx i) as (W1 & M1 & A1).
  destruct (power_succ_spec x Hx i') as (W2 & M2 & A2).
  destruct (power_succ_spec x Hx (i' - i - 1)) as (W3 & M3 & A3).
  apply (Hfirst (i' - i - 1)%nat); [lia|]. unfold code. f_equal.
  apply same_action_string; try assumption.
  - apply one_WF, Hx.
  - rewrite M3. symmetry. apply one_spec, Hx.
  - intros z. rewrite A3, one_action by apply Hx.
    apply (iter_injective x (S i)); [assumption|].
    rewrite <- Nat.iter_add. replace (S i + S (i' - i - 1))%nat with (S i') by lia.
    rewrite <- A1, <- A2. symmetry. apply code_inj; try assumption. congruence.
Qed.

Lemma power_code_present i : In (code (pw i)) (map code G).
Proof.
  induction i as [|i IH]; [now apply in_map|].
  apply in_map_iff in IH as (a & Ea & Ha).
  rewrite Forall_forall in HG. destruct (HG a Ha) as (Wa & Ma & _).
  destruct (power_succ_spec x Hx i) as (W1 & M1 & A1).
  destruct (product_spec a x Wa Hx) as (Wp & Mp & Ap & _).
  rewrite <- (is_power_code x Hx (product a x) (S i)); try assumption.
  - now apply Hclosed.
  - lia.
  - intros z. rewrite Ap. rewrite (code_inj a (pw i)); try assumption; [|congruence].
    rewrite A1. symmetry. apply (Nat.iter_succ_r (S i)).
Qed.

Lemma cyclic_count : length G = S (S j).
Proof.
  set (K := S (S j)). set (L := map (fun i => code (pw i)) (seq 0 K)).
  assert (HL : NoDup L).
  { apply NoDup_map_NoDup_ForallPairs; [|apply seq_NoDup].
    intros i i' Hi Hi' E. apply in_seq in Hi, Hi'.
    destruct (Nat.lt_trichotomy i i') as [Lt|[Eq|Lt]]; [exfalso|assumption|exfalso].
    - apply (power_codes_differ i i'); (assumption || lia).
    - apply (power_codes_differ i' i); (lia || now symmetry). }
  assert (H1 : incl (map code G) L).
  { intros h Hh. apply in_map_iff in Hh as (y & <- & Hy).
    rewrite Forall_forall in HG. destruct (HG y Hy) as (Wy & My & m & Ay).
    apply in_map_iff. exists (m mod K)%nat. split.
    - symmetry. apply is_power_code; try assumption.
      intros z. rewrite Ay. apply iter_cycle; [lia|]. apply cycle_identity.
    - apply in_seq. split; [lia|]. apply Nat.mod_upper_bound. lia. }
  assert (H2 : incl L (map code G)).
  { intros h Hh. apply in_map_iff in Hh as (i & <- & _). apply power_code_present. }
  apply NoDup_incl_length in H1; [|assumption].
  apply NoDup_incl_length in H2; [|assumption].
  unfold L in H1, H2. rewrite !length_map, length_seq in H1, H2. lia.
Qed.

End Count.

Lemma generate_cyclic_in (universe : list Z) (x : Perm.t) :
  (forall p, WF p -> In (code p) universe) ->
  WF x -> code x <> code (one (Perm.max x)) ->
  exists group k,
    returns (fun fuel => generateGroup fuel [x]) group /\
    returns (fun fuel => Perm.order fuel x) k /\
    Z.of_nat (length group) = k /\
    forall y, In y group ->
      exists m p, 1 <= m /\ returns (fun fuel => power fuel x m) p /\ equals y p = Ok true.
Proof.
  intros Hu Hwf Hnot.
  destruct (walk_result x Hwf) as (j & Hstop & Hfirst & Hrun).
  remember (length (missing universe [x])) as k eqn:Ek.
  destruct (closure_cyclic x universe Hu k [x] 0%nat (10 + j + k)%nat (10 + j + k)%nat)
    as (g & Eg & Hg & Hnd & Hcl & Hincl).
  { constructor; [|constructor]. apply (power_is_power x Hwf 0). }
  { repeat constructor. intros []. }
  { discriminate. }
  { lia. }
  { lia. }
  { lia. }
  destruct (sorted_WF g (is_power_WF x g Hg)) as (g' & Es & _).
  pose proof (sorted_perm g g' Es) as Hperm.
  exists g', (Z.of_nat j + 2). split; [|split; [|split]].
  - apply (mono_returns _ (10 + j + k)%nat); [apply generate_group_mono|].
    unfold generateGroup, generate_group. rewrite Eg. cbn [bind]. exact Es.
  - exists (S (9 + j)). intros fuel' Hf. apply Hrun. lia.
  - rewrite <- (Permutation_length Hperm).
    rewrite (cyclic_count x Hwf g j Hg Hnd Hcl); [lia| |assumption|].
    + apply Hincl. now left.
    + intros i Hi. destruct i as [|i]; [exact Hnot|]. apply Hfirst. lia.
  - intros y Hy. apply (Permutation_in _ (Permutation_sym Hperm)) in Hy.
    rewrite Forall_forall in Hg. destruct (Hg y Hy) as (Wy & My & m & Ay).
    exists (Z.of_nat (S m)), (power_succ x m). split; [lia|]. split.
    + exists (9 + S m)%nat. intros fuel' Hf. unfold power, Perm.__pow__.
      apply pow_run; (assumption || lia).
    + unfold equals. rewrite WF_eq by (assumption || apply power_succ_spec; assumption).
      f_equal. apply Z.eqb_eq. now apply is_power_code.
Qed.

(** X19: for a well-formed generator other than the identity,
    [generate_group] returns as many entries as [order] says, and each of
    them is [==] to a power of the generator with an exponent of 1 or more. *)
Lemma generate_cyclic (x : Perm.t) :
  well_formed x = true -> code x <> code (one (Perm.max x)) ->
  exists group k,
    returns (fun fuel => generateGroup fuel [x]) group /\
    returns (fun fuel => Perm.order fuel x) k /\
    Z.of_nat (length group) = k /\
    forall y, In y group ->
      exists m p, 1 <= m /\ returns (fun fuel => power fuel x m) p /\ equals y p = Ok true.
Proof.
  intros Hwf. apply (generate_cyclic_in (range 0 (10 ^ 29))).
  - intros p Hp. apply (proj2 (range_In 0 (10 ^ 29) (code p))). now apply WF_code_bound.
  - now apply well_formed_WF.
Qed.

Lemma generate_cyclic_witness :
  exists group k,
    returns (fun fuel => generateGroup fuel
      [{| Perm.description := [[1; 3; 2; 4; 1; 3; 2; 4]]; Perm.max := 4;
          Perm.string := py "(1324)" |}]) group /\
    returns (fun fuel => Perm.order fuel
      {| Perm.description := [[1; 3; 2; 4; 1; 3; 2; 4]]; Perm.max := 4;
         Perm.string := py "(1324)" |}) k /\
    Z.of_nat (length group) = k /\
    forall y, In y group ->
      exists m p, 1 <= m /\
        returns (fun fuel => power fuel
          {| Perm.description := [[1; 3; 2; 4; 1; 3; 2; 4]]; Perm.max := 4;
             Perm.string := py "(1324)" |} m) p /\
        equals y p = Ok true.
Proof.
  apply (generate_cyclic
      {| Perm.description := [[1; 3; 2; 4; 1; 3; 2; 4]]; Perm.max := 4;
         Perm.string := py "(1324)" |}); [reflexivity|vm_compute; discriminate].
Defined.

(** *** The order of an element other than the identity *)

(** X20: for every well-formed permutation but the identity, [order]
    returns the smallest positive exponent whose power equals the identity. *)
Lemma order_least (x : Perm.t) :
  well_formed x = true -> code x <> code (one (Perm.max x)) ->
  exists k, returns (fun fuel => Perm.order fuel x) k /\ 1 <= k /\
    (exists p e, returns (fun fuel => power fuel x k) p /\
       returns (fun fuel => identity fuel (Perm.max x)) e /\ equals p e = Ok true) /\
    forall k', 1 <= k' < k ->
      exists p e, returns (fun fuel => power fuel x k') p /\
        returns (fun fuel => identity fuel (Perm.max x)) e /\ equals p e = Ok false.
Proof.
  intros Hwf Hnot. pose proof (well_formed_WF x Hwf) as Hx.
  destruct (walk_result x Hx) as (j & Hstop & Hfirst & Hrun).
  pose proof (size_ok x Hx) as Hn.
  assert (Hpow : forall m, returns (fun fuel => power fuel x (Z.of_nat (S m))) (power_succ x m)).
  { intros m. exists (9 + S m)%nat. intros fuel Hf. unfold power, Perm.__pow__.
    apply pow_run; (assumption || lia). }
  assert (Hone : returns (fun fuel => identity fuel (Perm.max x)) (one (Perm.max x))).
  { exists 9%nat. intros fuel Hf. now apply one_run. }
  assert (Heq : forall m, equals (power_succ x m) (one (Perm.max x))
            = Ok (code (power_succ x m) =? code (one (Perm.max x)))).
  { intros m. unfold equals. apply WF_eq; [now apply power_succ_spec|now apply one_WF]. }
  exists (Z.of_nat j + 2). split; [exists (S (9 + j)); intros fuel Hf; apply Hrun; lia|].
  split; [lia|]. split.
  - exists (power_succ x (S j)), (one (Perm.max x)). split; [|split; [assumption|]].
    + replace (Z.of_nat j + 2) with (Z.of_nat (S (S j))) by lia. apply Hpow.
    + rewrite Heq. f_equal. now apply Z.eqb_eq.
  - intros k' Hk'.
    assert (Hm : exists m, k' = Z.of_nat (S m)) by (exists (Z.to_nat k' - 1)%nat; lia).
    destruct Hm as [m ->]. exists (power_succ x m), (one (Perm.max x)).
    split; [apply Hpow|split; [assumption|]].
    rewrite Heq. f_equal. apply Z.eqb_neq.
    destruct m as [|i]; [exact Hnot|]. apply Hfirst. lia.
Qed.

Lemma order_least_witness :
  exists k,
    returns (fun fuel => Perm.order fuel
      {| Perm.description := [[1; 3; 2; 4; 1; 3; 2; 4]]; Perm.max := 4;
         Perm.string := py "(1324)" |}) k /\ 1 <= k /\
    (exists p e,
       returns (fun fuel => power fuel
         {| Perm.description := [[1; 3; 2; 4; 1; 3; 2; 4]]; Perm.max := 4;
            Perm.string := py "(1324)" |} k) p /\
       returns (fun fuel => identity fuel 4) e /\ equals p e = Ok true) /\
    forall k', 1 <= k' < k ->
      exists p e,
        returns (fun fuel => power fuel
          {| Perm.description := [[1; 3; 2; 4; 1; 3; 2; 4]]; Perm.max := 4;
             Perm.string := py "(1324)" |} k') p /\
        returns (fun fuel => identity fuel 4) e /\ equals p e = Ok false.
Proof.
  apply (order_least
      {| Perm.description := [[1; 3; 2; 4; 1; 3; 2; 4]]; Perm.max := 4;
         Perm.string := py "(1324)" |}); [reflexivity|vm_compute; discriminate].
Defined.

(** *** Equal permutations are equal mappings *)

Lemma canonical_ext f g n cs : (forall x, 1 <= x <= n -> f x = g x) ->
  canonical f n cs -> canonical g n cs.
Proof.
  intros Hfg [H1 H2 H3 H4 H5]. constructor; try assumption.
  apply Forall_forall. intros c Hc i Hi. rewrite Forall_forall in H5.
  rewrite <- (H5 c Hc i Hi). symmetry. apply Hfg. apply H1.
  apply in_concat. exists c. split; [assumption|]. now apply nth_In.
Qed.

Lemma canonical_size f g n m cs : 1 <= n -> 1 <= m ->
  canonical f n cs -> canonical g m cs -> n = m.
Proof.
  intros Hn Hm H H'.
  assert (A : 1 <= n <= m) by (apply (can_cover _ _ _ H'), (can_cover _ _ _ H); lia).
  assert (B : 1 <= m <= n) by (apply (can_cover _ _ _ H), (can_cover _ _ _ H'); lia).
  lia.
Qed.

Lemma WF_same a b : WF a -> WF b ->
  (code a = code b <-> Perm.string a = Perm.string b) /\
  (code a = code b <-> Perm.max a = Perm.max b /\ forall x, action a x = action b x).
Proof.
  intros Ha Hb.
  assert (Hcode : code a = code b ->
            Perm.string a = Perm.string b /\ Perm.max a = Perm.max b).
  { intros E. destruct (code_cycles a b Ha Hb E) as (cs & Hcan & Hcan' & Sa & Sb).
    split; [congruence|].
    apply (canonical_size (action a) (action b) _ _ cs); try assumption;
      [apply (wf_size a Ha)|apply (wf_size b Hb)]. }
  split; split.
  - intros E. now apply Hcode.
  - intros E. unfold code. now rewrite E.
  - intros E. destruct (Hcode E) as [_ Hmax]. split; [assumption|]. now apply code_inj.
  - intros [Hmax Hact]. unfold code. now rewrite (same_action_string a b).
Qed.

(** X1: for two well-formed permutations [==] holds exactly when they have
    the same full text, and exactly when they have the same ground size and
    send every point to the same place: the hash tells any two of them apart,
    across ground sizes too. *)
Theorem equals_same_mapping (a b : Perm.t) :
  well_formed a = true -> well_formed b = true ->
  exists r, equals a b = Ok r /\
    (r = true <-> fullText a = fullText b) /\
    (r = true <-> Perm.max a = Perm.max b /\ forall x, action a x = action b x).
Proof.
  intros Ha Hb. apply well_formed_WF in Ha, Hb.
  destruct (WF_same a b Ha Hb) as [Hs Hm].
  exists (code a =? code b). split; [now apply WF_eq|].
  rewrite Z.eqb_eq. split; assumption.
Qed.

Lemma equals_same_mapping_witness :
  exists r,
    equals {| Perm.description := [[1; 2; 1; 2]]; Perm.max := 2;
              Perm.string := py "(12)" |}
           {| Perm.description := [[1; 2; 1; 2]]; Perm.max := 3;
              Perm.string := py "(12)(3)" |} = Ok r /\
    (r = true <-> py "(12)" = py "(12)(3)") /\
    (r = true <-> 2 = 3 /\
       forall x, action {| Perm.description := [[1; 2; 1; 2]]; Perm.max := 2;
                           Perm.string := py "(12)" |} x
               = action {| Perm.description := [[1; 2; 1; 2]]; Perm.max := 3;
                           Perm.string := py "(12)(3)" |} x).
Proof.
  apply (equals_same_mapping
           {| Perm.description := [[1; 2; 1; 2]]; Perm.max := 2; Perm.string := py "(12)" |}
           {| Perm.description := [[1; 2; 1; 2]]; Perm.max := 3; Perm.string := py "(12)(3)" |});
    vm_compute; reflexivity.
Defined.

(** *** The laws of multiplication, powers and inverses *)

Lemma product_cycles a b : WF a -> WF b ->
  exists cs,
    canonical (fun x => action a (action b x)) (Z.max (Perm.max a) (Perm.max b)) cs /\
    product a b = of_cycles (Z.max (Perm.max a) (Perm.max b)) cs.
Proof.
  intros Hs Ht. set (m := Z.max (Perm.max a) (Perm.max b)).
  set (g := fun x => action a (action b x)).
  assert (Hm : 1 <= m <= 9).
  { pose proof (wf_size _ Hs). pose proof (wf_size _ Ht). lia. }
  assert (Hperm : permutes g m).
  { unfold g. apply (permutes_compose (action a) (action b));
      apply wf_permutes; try assumption; lia. }
  destruct (normalise (rev (Perm.description b) ++ rev (Perm.description a)) m g Hm Hperm)
    as (cs & Hcan & Hwf & Hrun).
  { intros x _. clear - Hs Ht.
    assert (Happ : forall u v y, Perm.image (u ++ v) y = (z <- Perm.image u y ;; Perm.image v z)).
    { induction u as [|c u IH]; intros v y; [reflexivity|]. cbn [app Perm.image].
      destruct (Perm.step c y); cbn [bind]; [apply IH|reflexivity|reflexivity]. }
    rewrite Happ, (wf_image_rev _ Ht). cbn [bind]. rewrite (wf_image_rev _ Hs).
    unfold g. now rewrite !wf_action. }
  exists cs. split; [assumption|]. unfold product, Perm.__mul__. fold m.
  destruct (Hrun 9%nat (le_n _)) as [-> E]. cbn [bind]. now rewrite E.
Qed.

Lemma product_eq a b c d : WF a -> WF b -> WF c -> WF d ->
  Z.max (Perm.max a) (Perm.max b) = Z.max (Perm.max c) (Perm.max d) ->
  (forall x, action a (action b x) = action c (action d x)) ->
  product a b = product c d.
Proof.
  intros Ha Hb Hc Hd Hmax Hact.
  destruct (product_cycles a b Ha Hb) as (cs & Hcan & ->).
  destruct (product_cycles c d Hc Hd) as (cs' & Hcan' & ->).
  rewrite <- Hmax in *. f_equal.
  apply (canonical_unique _ _ _ _ Hcan).
  apply (canonical_ext (fun x => action c (action d x))); [|assumption].
  intros x _. symmetry. apply Hact.
Qed.

Lemma WF_equal a b : WF a -> WF b -> Perm.max a = Perm.max b ->
  (forall y, action a y = action b y) ->
  equals a b = Ok true /\ fullText a = fullText b.
Proof.
  intros Ha Hb Hmax Hact.
  pose proof (same_action_string a b Ha Hb Hmax Hact) as E.
  split; [|exact E]. unfold equals. rewrite WF_eq by assumption.
  f_equal. apply Z.eqb_eq. unfold code. now rewrite E.
Qed.




Lemma inverse_spec x : WF x ->
  exists i, returns (fun fuel => Perm.inverse fuel x) i /\ WF i /\
    Perm.max i = Perm.max x /\
    (forall y, action i (action x y) = y) /\ (forall y, action x (action i y) = y).
Proof.
  intros Hx. destruct (walk_result x Hx) as (j & Hstop & _ & Hrun).
  destruct (power_succ_spec x Hx j) as (Hj & Hjmax & Hjact).
  destruct (power_succ_spec x Hx (S j)) as (HS & HSmax & HSact).
  pose proof (size_ok x Hx) as Hn.
  assert (Hid : forall y, Nat.iter (S (S j)) (action x) y = y).
  { intros y. rewrite <- HSact.
    destruct (WF_same (power_succ x (S j)) (one (Perm.max x)) HS (one_WF _ Hn)) as [_ H].
    destruct (proj1 H Hstop) as [_ Hact]. rewrite Hact. now apply one_action. }
  exists (power_succ x j).
  split; [exists (S (9 + j)); intros fuel Hf; apply Hrun; lia|].
  split; [assumption|]. split; [assumption|]. split.
  - intros y. rewrite Hjact, <- Nat.iter_succ_r. apply Hid.
  - intros y. rewrite Hjact. apply (Hid y).
Qed.

(** X2: multiplication of well-formed permutations is associative: the two
    ways to multiply three of them return the very same object. *)
Theorem multiply_associative (a b c : Perm.t) :
  well_formed a = true -> well_formed b = true -> well_formed c = true ->
  exists ab bc abc,
    returns (fun fuel => multiply fuel a b) ab /\
    returns (fun fuel => multiply fuel b c) bc /\
    returns (fun fuel => multiply fuel ab c) abc /\
    returns (fun fuel => multiply fuel a bc) abc.
Proof.
  intros Ha Hb Hc. apply well_formed_WF in Ha, Hb, Hc.
  destruct (product_spec a b Ha Hb) as (Hab & Mab & Aab & Rab).
  destruct (product_spec b c Hb Hc) as (Hbc & Mbc & Abc & Rbc).
  destruct (product_spec (product a b) c Hab Hc) as (_ & _ & _ & Rl).
  destruct (product_spec a (product b c) Ha Hbc) as (_ & _ & _ & Rr).
  exists (product a b), (product b c), (product (product a b) c).
  split; [exists 9%nat; exact Rab|]. split; [exists 9%nat; exact Rbc|].
  split; [exists 9%nat; exact Rl|].
  rewrite (product_eq (product a b) c a (product b c)); try assumption.
  - exists 9%nat; exact Rr.
  - rewrite Mab, Mbc. lia.
  - intros x. now rewrite Aab, Abc.
Qed.

Lemma multiply_associative_witness :
  exists ab bc abc,
    returns (fun fuel => multiply fuel
      {| Perm.description := [[1; 2; 1; 2]]; Perm.max := 2; Perm.string := py "(12)" |}
      {| Perm.description := [[2; 3; 2; 3]]; Perm.max := 3; Perm.string := py "(1)(23)" |}) ab /\
    returns (fun fuel => multiply fuel
      {| Perm.description := [[2; 3; 2; 3]]; Perm.max := 3; Perm.string := py "(1)(23)" |}
      {| Perm.description := [[1; 3; 2; 4; 1; 3; 2; 4]]; Perm.max := 4;
         Perm.string := py "(1324)" |}) bc /\
    returns (fun fuel => multiply fuel ab
      {| Perm.description := [[1; 3; 2; 4; 1; 3; 2; 4]]; Perm.max := 4;
         Perm.string := py "(1324)" |}) abc /\
    returns (fun fuel => multiply fuel
      {| Perm.description := [[1; 2; 1; 2]]; Perm.max := 2; Perm.string := py "(12)" |}
      bc) abc.
Proof.
  apply (multiply_associative
    {| Perm.description := [[1; 2; 1; 2]]; Perm.max := 2; Perm.string := py "(12)" |}
    {| Perm.description := [[2; 3; 2; 3]]; Perm.max := 3; Perm.string := py "(1)(23)" |}
    {| Perm.description := [[1; 3; 2; 4; 1; 3; 2; 4]]; Perm.max := 4;
       Perm.string := py "(1324)" |}); vm_compute; reflexivity.
Defined.

(** X3: the identity of a ground size up to that of a well-formed [x] is
    neutral on both sides: [e * x] and [x * e] have the full text and the
    ground size of [x], and are [==] to it. *)
Theorem multiply_identity_neutral (x : Perm.t) (k : Z) :
  well_formed x = true -> 1 <= k <= Perm.max x ->
  exists e l r,
    returns (fun fuel => identity fuel k) e /\
    returns (fun fuel => multiply fuel e x) l /\
    returns (fun fuel => multiply fuel x e) r /\
    fullText l = fullText x /\ fullText r = fullText x /\
    Perm.max l = Perm.max x /\ Perm.max r = Perm.max x /\
    equals l x = Ok true /\ equals r x = Ok true.
Proof.
  intros Hx Hk. apply well_formed_WF in Hx.
  pose proof (wf_size x Hx) as Hn.
  assert (Hk9 : 1 <= k <= 9) by lia.
  pose proof (one_WF k Hk9) as He.
  destruct (one_spec k Hk9) as (_ & _ & Me & _).
  destruct (product_spec (one k) x He Hx) as (Hl & Ml & Al & Rl).
  destruct (product_spec x (one k) Hx He) as (Hr & Mr & Ar & Rr).
  assert (El : equals (product (one k) x) x = Ok true /\
               fullText (product (one k) x) = fullText x).
  { apply WF_equal; try assumption; [rewrite Ml, Me; lia|].
    intros y. rewrite Al. now apply one_action. }
  assert (Er : equals (product x (one k)) x = Ok true /\
               fullText (product x (one k)) = fullText x).
  { apply WF_equal; try assumption; [rewrite Mr, Me; lia|].
    intros y. rewrite Ar. f_equal. now apply one_action. }
  exists (one k), (product (one k) x), (product x (one k)).
  split; [exists 9%nat; intros fuel Hf; now apply one_run|].
  split; [exists 9%nat; exact Rl|]. split; [exists 9%nat; exact Rr|].
  rewrite Ml, Mr, Me. repeat split; try apply El; try apply Er; lia.
Qed.

Lemma multiply_identity_neutral_witness :
  exists e l r,
    returns (fun fuel => identity fuel 2) e /\
    returns (fun fuel => multiply fuel e
      {| Perm.description := [[1; 3; 2; 4; 1; 3; 2; 4]]; Perm.max := 4;
         Perm.string := py "(1324)" |}) l /\
    returns (fun fuel => multiply fuel
      {| Perm.description := [[1; 3; 2; 4; 1; 3; 2; 4]]; Perm.max := 4;
         Perm.string := py "(1324)" |} e) r /\
    fullText l = py "(1324)" /\ fullText r = py "(1324)" /\
    Perm.max l = 4 /\ Perm.max r = 4 /\
    equals l {| Perm.description := [[1; 3; 2; 4; 1; 3; 2; 4]]; Perm.max := 4;
                Perm.string := py "(1324)" |} = Ok true /\
    equals r {| Perm.description := [[1; 3; 2; 4; 1; 3; 2; 4]]; Perm.max := 4;
                Perm.string := py "(1324)" |} = Ok true.
Proof.
  apply (multiply_identity_neutral
    {| Perm.description := [[1; 3; 2; 4; 1; 3; 2; 4]]; Perm.max := 4;
       Perm.string := py "(1324)" |} 2); [vm_compute; reflexivity|cbn; lia].
Defined.





(** X6: raising a well-formed permutation to the number that [order]
    returns gives the identity of its ground size; this holds for the
    identity too, whose [order] is 2. *)
Theorem power_order_identity (x : Perm.t) :
  well_formed x = true ->
  exists k p e,
    returns (fun fuel => Perm.order fuel x) k /\
    returns (fun fuel => power fuel x k) p /\
    returns (fun fuel => identity fuel (Perm.max x)) e /\
    equals p e = Ok true.
Proof.
  intros Hx. apply well_formed_WF in Hx.
  destruct (walk_result x Hx) as (j & Hstop & _ & Hrun).
  pose proof (size_ok x Hx) as Hn.
  destruct (power_succ_spec x Hx (S j)) as (HS & _ & _).
  exists (Z.of_nat j + 2), (power_succ x (S j)), (one (Perm.max x)).
  split; [exists (S (9 + j)); intros fuel Hf; apply Hrun; lia|].
  split.
  - exists (11 + j)%nat. intros fuel Hf. unfold power, Perm.__pow__.
    replace (Z.of_nat j + 2) with (Z.of_nat (S (S j))) by lia.
    apply pow_run; (assumption || lia).
  - split; [exists 9%nat; intros fuel Hf; now apply one_run|].
    unfold equals. rewrite WF_eq by (assumption || now apply one_WF).
    f_equal. now apply Z.eqb_eq.
Qed.

Lemma power_order_identity_witness :
  exists k p e,
    returns (fun fuel => Perm.order fuel
      {| Perm.description := [[1; 3; 2; 4; 1; 3; 2; 4]]; Perm.max := 4;
         Perm.string := py "(1324)" |}) k /\
    returns (fun fuel => power fuel
      {| Perm.description := [[1; 3; 2; 4; 1; 3; 2; 4]]; Perm.max := 4;
         Perm.string := py "(1324)" |} k) p /\
    returns (fun fuel => identity fuel 4) e /\
    equals p e = Ok true.
Proof.
  apply (power_order_identity
    {| Perm.description := [[1; 3; 2; 4; 1; 3; 2; 4]]; Perm.max := 4;
       Perm.string := py "(1324)" |}); vm_compute; reflexivity.
Defined.

(** X7: the [inverse] of a well-formed permutation is well formed, has the
    same ground size and undoes it on both sides, point by point; so
    [x.inverse * x] is the identity as well. *)
Theorem inverse_undoes (x : Perm.t) :
  well_formed x = true ->
  exists i p e,
    returns (fun fuel => Perm.inverse fuel x) i /\
    well_formed i = true /\ Perm.max i = Perm.max x /\
    (forall y, action i (action x y) = y) /\
    (forall y, action x (action i y) = y) /\
    returns (fun fuel => multiply fuel i x) p /\
    returns (fun fuel => identity fuel (Perm.max x)) e /\
    equals p e = Ok true.
Proof.
  intros Hx. apply well_formed_WF in Hx.
  destruct (inverse_spec x Hx) as (i & Ri & Wi & Mi & Al & Ar).
  destruct (product_spec i x Wi Hx) as (Wp & Mp & Ap & Rp).
  pose proof (wf_size x Hx) as Hn. pose proof (one_WF _ Hn) as We.
  destruct (one_spec _ Hn) as (_ & _ & Me & _).
  exists i, (product i x), (one (Perm.max x)).
  split; [assumption|]. split; [now apply WF_well_formed|].
  split; [assumption|]. split; [assumption|]. split; [assumption|].
  split; [exists 9%nat; exact Rp|].
  split; [exists 9%nat; intros fuel Hf; now apply one_run|].
  apply WF_equal; try assumption; [rewrite Mp, Mi, Me; lia|].
  intros y. rewrite Ap, Al. symmetry. now apply one_action.
Qed.

Lemma inverse_undoes_witness :
  exists i p e,
    returns (fun fuel => Perm.inverse fuel
      {| Perm.description := [[1; 3; 2; 4; 1; 3; 2; 4]]; Perm.max := 4;
         Perm.string := py "(1324)" |}) i /\
    well_formed i = true /\ Perm.max i = 4 /\
    (forall y, action i (action {| Perm.description := [[1; 3; 2; 4; 1; 3; 2; 4]];
                                   Perm.max := 4; Perm.string := py "(1324)" |} y) = y) /\
    (forall y, action {| Perm.description := [[1; 3; 2; 4; 1; 3; 2; 4]];
                         Perm.max := 4; Perm.string := py "(1324)" |} (action i y) = y) /\
    returns (fun fuel => multiply fuel i
      {| Perm.description := [[1; 3; 2; 4; 1; 3; 2; 4]]; Perm.max := 4;
         Perm.string := py "(1324)" |}) p /\
    returns (fun fuel => identity fuel 4) e /\
    equals p e = Ok true.
Proof.
  apply (inverse_undoes
    {| Perm.description := [[1; 3; 2; 4; 1; 3; 2; 4]]; Perm.max := 4;
       Perm.string := py "(1324)" |}); vm_compute; reflexivity.
Defined.

(** X8: the inverse of the inverse of a well-formed permutation is [==]
    to the permutation, and the inverse of a product is [==] to the product
    of the inverses in the opposite order. *)
Theorem inverse_laws (a b : Perm.t) :
  well_formed a = true -> well_formed b = true ->
  exists ia iia ib ab iab q,
    returns (fun fuel => Perm.inverse fuel a) ia /\
    returns (fun fuel => Perm.inverse fuel ia) iia /\
    equals iia a = Ok true /\
    returns (fun fuel => Perm.inverse fuel b) ib /\
    returns (fun fuel => multiply fuel a b) ab /\
    returns (fun fuel => Perm.inverse fuel ab) iab /\
    returns (fun fuel => multiply fuel ib ia) q /\
    equals iab q = Ok true.
Proof.
  intros Ha Hb. apply well_formed_WF in Ha, Hb.
  destruct (inverse_spec a Ha) as (ia & Ria & Wia & Mia & Lia & Ria').
  destruct (inverse_spec ia Wia) as (iia & Riia & Wiia & Miia & Liia & Riia').
  destruct (inverse_spec b Hb) as (ib & Rib & Wib & Mib & Lib & Rib').
  destruct (product_spec a b Ha Hb) as (Wab & Mab & Aab & Rab).
  destruct (inverse_spec (product a b) Wab) as (iab & Riab & Wiab & Miab & Liab & Riab').
  destruct (product_spec ib ia Wib Wia) as (Wq & Mq & Aq & Rq).
  exists ia, iia, ib, (product a b), iab, (product ib ia).
  split; [assumption|]. split; [assumption|]. split.
  { apply WF_equal; try assumption; [congruence|].
    intros y. transitivity (action iia (action ia (action a y)));
      [now rewrite Lia|apply Liia]. }
  split; [assumption|]. split; [exists 9%nat; exact Rab|].
  split; [assumption|]. split; [exists 9%nat; exact Rq|].
  apply WF_equal; try assumption; [rewrite Miab, Mab, Mq, Mib, Mia; lia|].
  intros y. rewrite Aq.
  transitivity (action iab (action (product a b) (action ib (action ia y))));
    [now rewrite Aab, Rib', Ria'|apply Liab].
Qed.

Lemma inverse_laws_witness :
  exists ia iia ib ab iab q,
    returns (fun fuel => Perm.inverse fuel
      {| Perm.description := [[1; 3; 2; 4; 1; 3; 2; 4]]; Perm.max := 4;
         Perm.string := py "(1324)" |}) ia /\
    returns (fun fuel => Perm.inverse fuel ia) iia /\
    equals iia {| Perm.description := [[1; 3; 2; 4; 1; 3; 2; 4]]; Perm.max := 4;
                  Perm.string := py "(1324)" |} = Ok true /\
    returns (fun fuel => Perm.inverse fuel
      {| Perm.description := [[2; 3; 2; 3]]; Perm.max := 3; Perm.string := py "(1)(23)" |}) ib /\
    returns (fun fuel => multiply fuel
      {| Perm.description := [[1; 3; 2; 4; 1; 3; 2; 4]]; Perm.max := 4;
         Perm.string := py "(1324)" |}
      {| Perm.description := [[2; 3; 2; 3]]; Perm.max := 3; Perm.string := py "(1)(23)" |}) ab /\
    returns (fun fuel => Perm.inverse fuel ab) iab /\
    returns (fun fuel => multiply fuel ib ia) q /\
    equals iab q = Ok true.
Proof.
  apply (inverse_laws
    {| Perm.description := [[1; 3; 2; 4; 1; 3; 2; 4]]; Perm.max := 4;
       Perm.string := py "(1324)" |}
    {| Perm.description := [[2; 3; 2; 3]]; Perm.max := 3; Perm.string := py "(1)(23)" |});
    vm_compute; reflexivity.
Defined.

(** *** What [generate_group] returns *)

Lemma code_member (l : list Perm.t) (h : Z) :
  In h (map code l) -> exists c, In c l /\ code c = h.
Proof. intros H. apply in_map_iff in H as (c & E & Hc). now exists c. Qed.

Section Generated.

Variable P : Perm.t -> Prop.
Hypothesis P_WF : forall y, P y -> WF y.
Hypothesis P_mul : forall a b, P a -> P b -> P (product a b).

Lemma P_all_WF l : Forall P l -> Forall WF l.
Proof. apply Forall_impl. exact P_WF. Qed.

(** One pass of the inner loop: what it adds is new, and no product of a
    pair is left out. *)
Lemma products_general inner group : (9 <= inner)%nat -> Forall P group ->
  forall pairs new,
    Forall (fun st => P (fst st) /\ P (snd st)) pairs -> Forall P new ->
    NoDup (map code new) -> (forall y, In y new -> ~ In (code y) (map code group)) ->
    exists ext, products inner group pairs new = Ok (new ++ ext) /\
      Forall P ext /\ NoDup (map code (new ++ ext)) /\
      (forall y, In y ext -> ~ In (code y) (map code group)) /\
      forall st, In st pairs ->
        In (code (product (fst st) (snd st))) (map code (group ++ new ++ ext)).
Proof.
  intros Hinner Hgroup pairs.
  induction pairs as [|[sigma tau] rest IH]; intros new Hpairs Hnew Hnd Hfresh.
  - exists []. rewrite app_nil_r. split; [reflexivity|]. split; [constructor|].
    split; [assumption|]. split; intros ? [].
  - inversion Hpairs as [|? ? [Hs Ht] Hrest]; subst. cbn [fst snd] in Hs, Ht.
    cbn [products].
    pose proof (P_mul sigma tau Hs Ht) as Hp.
    destruct (product_spec sigma tau (P_WF _ Hs) (P_WF _ Ht)) as (_ & _ & _ & Hrun).
    rewrite Hrun by assumption. cbn [bind].
    rewrite contains_WF by (now apply P_WF || now apply P_all_WF). cbn [bind].
    destruct (existsb _ group) eqn:Eg.
    { destruct (IH new Hrest Hnew Hnd Hfresh) as (ext & E & Hext & Hnd' & Hf' & Hin).
      exists ext. split; [assumption|]. split; [assumption|]. split; [assumption|].
      split; [assumption|].
      intros st [<-|Hst]; [|now apply Hin]. cbn [fst snd].
      rewrite existsb_code in Eg. apply mem_In in Eg.
      rewrite map_app. apply in_app_iff. now left. }
    rewrite contains_WF by (now apply P_WF || now apply P_all_WF). cbn [bind].
    destruct (existsb _ new) eqn:En.
    { destruct (IH new Hrest Hnew Hnd Hfresh) as (ext & E & Hext & Hnd' & Hf' & Hin).
      exists ext. split; [assumption|]. split; [assumption|]. split; [assumption|].
      split; [assumption|].
      intros st [<-|Hst]; [|now apply Hin]. cbn [fst snd].
      rewrite existsb_code in En. apply mem_In in En.
      rewrite !map_app. apply in_app_iff. right. apply in_app_iff. now left. }
    assert (Hg : ~ In (code (product sigma tau)) (map code group)).
    { intros Hc. rewrite existsb_code in Eg. apply mem_In in Hc. congruence. }
    destruct (IH (new ++ [product sigma tau]) Hrest) as (ext & E & Hext & Hnd' & Hf' & Hin).
    { apply Forall_app. split; [assumption|]. now constructor. }
    { rewrite map_app. cbn [map].
      apply NoDup_app; [assumption|repeat constructor; intros []|].
      intros h Hh [<-|[]]. rewrite existsb_code in En. apply mem_In in Hh. congruence. }
    { intros y Hy. apply in_app_iff in Hy as [Hy|[<-|[]]]; [now apply Hfresh|assumption]. }
    rewrite <- app_assoc in E, Hnd', Hin. cbn [app] in E, Hnd', Hin.
    exists (product sigma tau :: ext). split; [assumption|].
    split; [now constructor|]. split; [assumption|]. split.
    + intros y [<-|Hy]; [assumption|now apply Hf'].
    + intros st [<-|Hst]; [|now apply Hin]. cbn [fst snd].
      rewrite !map_app. apply in_app_iff. right. apply in_app_iff. right. now left.
Qed.

Lemma list_prod_P group : Forall P group ->
  Forall (fun st => P (fst st) /\ P (snd st)) (list_prod group group).
Proof.
  intros H. rewrite Forall_forall in *. intros [a b] Hab.
  apply in_prod_iff in Hab. cbn. split; apply H; tauto.
Qed.

Variable universe : list Z.
Hypothesis Huniverse : forall p, WF p -> In (code p) universe.

Variable gens : list Perm.t.

(** The outer loop: the generators stay in front, what is added has codes
    of its own, and the list it ends with is closed. *)
Lemma closure_general : forall k added size fuel inner,
  Forall P (gens ++ added) -> NoDup (map code added) ->
  (forall y, In y added -> ~ In (code y) (map code gens)) ->
  (size = length (gens ++ added) -> closed (gens ++ added)) ->
  (length (missing universe (gens ++ added)) <= k)%nat -> (k < fuel)%nat ->
  (9 <= inner)%nat ->
  exists more, closure fuel inner (gens ++ added) size = Ok (gens ++ more) /\
    Forall P (gens ++ more) /\ NoDup (map code more) /\
    (forall y, In y more -> ~ In (code y) (map code gens)) /\
    closed (gens ++ more).
Proof.
  induction k as [|k IH];
    intros added size fuel inner Hgroup Hnd Hfresh Hclosed Hk Hfuel Hinner;
    (destruct fuel as [|fuel]; [lia|]); cbn [closure];
    (destruct (Nat.eqb_spec size (length (gens ++ added))) as [Es|Es];
     [exists added; split; [reflexivity|]; split; [assumption|]; split; [assumption|];
      split; [assumption|now apply Hclosed]|]);
    (destruct (products_general inner (gens ++ added) Hinner Hgroup
                (list_prod (gens ++ added) (gens ++ added)) []
                (list_prod_P _ Hgroup) (Forall_nil _) (NoDup_nil _))
       as (ext & E & Hext & Hnd' & Hf' & Hin); [intros ? []|]);
    rewrite E; cbn [bind app]; cbn [app] in Hnd', Hin;
    (destruct ext as [|y ext];
     [rewrite app_nil_r in *; exists added; split;
      [destruct fuel; cbn [closure]; now rewrite Nat.eqb_refl|];
      split; [assumption|]; split; [assumption|]; split; [assumption|];
      intros a b Ha Hb; apply (Hin (a, b)); apply in_prod_iff; now split|]).
  - exfalso.
    assert (Hy : (length (missing universe ((gens ++ added) ++ y :: ext))
                  < length (missing universe (gens ++ added)))%nat).
    { apply missing_shrinks.
      - apply Huniverse, P_WF. now inversion Hext.
      - apply Hf'. now left. }
    lia.
  - assert (Hy : (length (missing universe ((gens ++ added) ++ y :: ext))
                  < length (missing universe (gens ++ added)))%nat).
    { apply missing_shrinks.
      - apply Huniverse, P_WF. now inversion Hext.
      - apply Hf'. now left. }
    rewrite <- app_assoc in *.
    destruct (IH (added ++ y :: ext) (length (gens ++ added)) fuel inner)
      as (more & Eg & Hg & Hndg & Hfg & Hcl); try assumption; try lia.
    + rewrite app_assoc. apply Forall_app. now split.
    + rewrite map_app. apply NoDup_app; [assumption|assumption|].
      intros h Hh Hh'. apply code_member in Hh' as (c & Hc & <-).
      apply (Hf' c Hc). rewrite map_app. apply in_app_iff. now right.
    + intros c Hc Hc'. apply in_app_iff in Hc as [Hc|Hc]; [now apply (Hfresh c)|].
      apply (Hf' c Hc). rewrite map_app. apply in_app_iff. now left.
    + intros El. rewrite !length_app in El. cbn in El. lia.
    + exists more. auto.
Qed.

End Generated.

(** A closed list holds (the codes of) the powers of its members. *)
Lemma closed_powers g a : Forall WF g -> closed g -> In a g ->
  forall j, In (code (power_succ a j)) (map code g).
Proof.
  intros Hg Hclosed Ha. rewrite Forall_forall in Hg. pose proof (Hg a Ha) as Wa.
  induction j as [|j IH]; [now apply in_map|].
  apply code_member in IH as (c & Hc & Ec). pose proof (Hg c Hc) as Wc.
  destruct (power_succ_spec a Wa j) as (W1 & M1 & A1).
  destruct (power_succ_spec a Wa (S j)) as (W2 & M2 & A2).
  destruct (product_spec c a Wc Wa) as (Wp & Mp & Ap & _).
  destruct (proj1 (proj2 (WF_same c (power_succ a j) Wc W1)) Ec) as [Mc Ac].
  replace (code (power_succ a (S j))) with (code (product c a)); [now apply Hclosed|].
  apply (proj2 (WF_same _ _ Wp W2)). split; [lia|].
  intros z. rewrite Ap, Ac, A1, A2. symmetry. apply (Nat.iter_succ_r (S j)).
Qed.

Lemma insert_sorted x : WF x -> forall l l', Forall WF l ->
  StronglySorted (fun a b => code b <= code a) l -> insert x l = Ok l' ->
  StronglySorted (fun a b => code b <= code a) l'.
Proof.
  intros Hx. induction l as [|y l IH]; intros l' Hl Hs; cbn [insert].
  - intros [= <-]. repeat constructor.
  - inversion Hl as [|? ? Hy Hl']; subst. inversion Hs as [|? ? Hs' Hall]; subst.
    rewrite WF_lt by assumption. cbn [bind].
    destruct (Z.ltb_spec (code x) (code y)) as [Hlt|Hge].
    + destruct (insert x l) as [r| |] eqn:E; cbn [bind]; try discriminate.
      intros [= <-]. constructor; [now apply (IH r)|].
      apply insert_perm in E. apply Forall_forall. intros z Hz.
      apply (Permutation_in _ (Permutation_sym E)) in Hz. destruct Hz as [<-|Hz]; [lia|].
      rewrite Forall_forall in Hall. now apply Hall.
    + intros [= <-]. constructor; [assumption|].
      constructor; [assumption|]. eapply Forall_impl; [|exact Hall]. cbn. intros; lia.
Qed.

Lemma sorted_sorted : forall l l', Forall WF l -> sorted l = Ok l' ->
  StronglySorted (fun a b => code b <= code a) l'.
Proof.
  induction l as [|x l IH]; intros l' Hl; cbn [sorted].
  - intros [= <-]. constructor.
  - inversion Hl as [|? ? Hx Hl']; subst.
    destruct (sorted l) as [r| |] eqn:E; cbn [bind]; try discriminate.
    intros E'. destruct (sorted_WF l Hl') as (r' & Er & Wr).
    assert (r' = r) by congruence. subst r'.
    apply (insert_sorted x Hx r); auto.
Qed.

(** Everything about the list that [generate_group] returns, in one place. *)
Lemma generate_group_spec (elements : list Perm.t) : Forall WF elements ->
  exists more group,
    returns (fun fuel => generate_group fuel elements) group /\
    Permutation (elements ++ more) group /\
    Forall (fun y => WF y /\ generated elements y) group /\
    NoDup (map code more) /\
    (forall y, In y more -> ~ In (code y) (map code elements)) /\
    closed group /\
    StronglySorted (fun a b => code b <= code a) group.
Proof.
  intros Hel. set (P := fun y => WF y /\ generated elements y).
  assert (P_WF : forall y, P y -> WF y) by (intros y Hy; apply Hy).
  assert (P_mul : forall a b, P a -> P b -> P (product a b)).
  { intros a b [Wa Ga] [Wb Gb]. destruct (product_spec a b Wa Wb) as (Wp & _ & _ & Rp).
    split; [assumption|]. apply (generated_mul _ a b); try assumption.
    exists 9%nat. exact Rp. }
  assert (Hu : forall p, WF p -> In (code p) (range 0 (10 ^ 29))).
  { intros p Hp. apply (proj2 (range_In 0 (10 ^ 29) (code p))). now apply WF_code_bound. }
  revert Hu. generalize (range 0 (10 ^ 29)). intros universe Hu.
  remember (length (missing universe (elements ++ []))) as k eqn:Ek.
  destruct (closure_general P P_WF P_mul universe Hu elements k [] 0%nat
              (10 + k)%nat (10 + k)%nat) as (more & E & Hg & Hnd & Hfresh & Hcl);
    try lia.
  - rewrite app_nil_r. rewrite Forall_forall in *. intros y Hy.
    split; [now apply Hel|now constructor].
  - constructor.
  - intros ? [].
  - rewrite app_nil_r. intros El. symmetry in El. apply length_zero_iff_nil in El.
    rewrite El. intros a b [].
  - rewrite app_nil_r in E.
    destruct (sorted_WF (elements ++ more) (P_all_WF P P_WF _ Hg)) as (g' & E' & Hg').
    pose proof (sorted_perm _ _ E') as Hperm.
    exists more, g'. split.
    { apply (mono_returns _ (10 + k)%nat); [apply generate_group_mono|].
      unfold generate_group. rewrite E. cbn [bind]. exact E'. }
    split; [assumption|]. split.
    { rewrite Forall_forall in *. intros y Hy. apply Hg.
      now apply (Permutation_in _ (Permutation_sym Hperm)). }
    split; [assumption|]. split; [assumption|]. split.
    { intros a b Ha Hb.
      apply (Permutation_in _ (Permutation_sym Hperm)) in Ha, Hb.
      specialize (Hcl a b Ha Hb). apply code_member in Hcl as (c & Hc & Ec).
      rewrite <- Ec. apply in_map. now apply (Permutation_in _ Hperm). }
    apply (sorted_sorted (elements ++ more)); [now apply (P_all_WF P P_WF)|assumption].
Qed.

(** *** The generated group is a group *)

Lemma NoDup_code_text (l : list Perm.t) : Forall WF l ->
  NoDup (map fullText l) -> NoDup (map code l).
Proof.
  induction 1 as [|x l Hx Hl IH]; cbn [map]; intros Hnd; [constructor|].
  inversion Hnd as [|? ? Hnot Hnd']; subst. constructor; [|now apply IH].
  intros Hc. apply Hnot. apply code_member in Hc as (c & Hc & Ec).
  rewrite Forall_forall in Hl.
  pose proof (proj1 (proj1 (WF_same c x (Hl c Hc) Hx)) Ec) as Es.
  change (fullText x) with (Perm.string x). rewrite <- Es. now apply (in_map fullText).
Qed.

Lemma NoDup_text_code (l : list Perm.t) : NoDup (map code l) -> NoDup (map fullText l).
Proof.
  intros H. apply (NoDup_map_inv zero_filled_value). now rewrite map_map.
Qed.

(** X9: for well-formed generators [generate_group] returns a list that
    holds every generator, and nothing but what the generators generate by
    multiplication; if no two generators have the same full text, no two
    entries of the list have. *)
Theorem generate_group_generated (elements : list Perm.t) :
  forallb well_formed elements = true ->
  exists group, returns (fun fuel => generateGroup fuel elements) group /\
    incl elements group /\
    Forall (generated elements) group /\
    (NoDup (map fullText elements) -> NoDup (map fullText group)).
Proof.
  intros Hel. apply forallb_WF in Hel.
  destruct (generate_group_spec elements Hel)
    as (more & group & Hret & Hperm & Hgen & Hnd & Hfresh & _ & _).
  exists group. split; [assumption|]. split; [|split].
  - intros x Hx. apply (Permutation_in _ Hperm). apply in_app_iff. now left.
  - eapply Forall_impl; [|exact Hgen]. intros y Hy. apply Hy.
  - intros Hel'. apply NoDup_text_code.
    apply (Permutation_NoDup (Permutation_map code Hperm)).
    rewrite map_app. apply NoDup_app; [now apply NoDup_code_text|assumption|].
    intros h Hh Hh'. apply code_member in Hh' as (c & Hc & <-). now apply (Hfresh c).
Qed.

Lemma generate_group_generated_witness :
  exists group, returns (fun fuel => generateGroup fuel
      [{| Perm.description := [[1; 2; 1; 2]]; Perm.max := 3; Perm.string := py "(12)(3)" |};
       {| Perm.description := [[2; 3; 2; 3]]; Perm.max := 3; Perm.string := py "(1)(23)" |}])
      group /\
    incl [{| Perm.description := [[1; 2; 1; 2]]; Perm.max := 3;
             Perm.string := py "(12)(3)" |};
          {| Perm.description := [[2; 3; 2; 3]]; Perm.max := 3;
             Perm.string := py "(1)(23)" |}] group /\
    Forall (generated
         [{| Perm.description := [[1; 2; 1; 2]]; Perm.max := 3;
             Perm.string := py "(12)(3)" |};
          {| Perm.description := [[2; 3; 2; 3]]; Perm.max := 3;
             Perm.string := py "(1)(23)" |}]) group /\
    (NoDup [py "(12)(3)"; py "(1)(23)"] -> NoDup (map fullText group)).
Proof.
  apply (generate_group_generated
    [{| Perm.description := [[1; 2; 1; 2]]; Perm.max := 3; Perm.string := py "(12)(3)" |};
     {| Perm.description := [[2; 3; 2; 3]]; Perm.max := 3; Perm.string := py "(1)(23)" |}]).
  vm_compute. reflexivity.
Defined.

(** X10: the list that [generate_group] returns for well-formed generators
    is a group under [__mul__]: the product of any two entries, the inverse
    of any entry and the identity of its ground size are each [==] to an
    entry. *)
Theorem generate_group_is_group (elements : list Perm.t) :
  forallb well_formed elements = true ->
  exists group, returns (fun fuel => generateGroup fuel elements) group /\
    (forall a b, In a group -> In b group ->
       exists p c, returns (fun fuel => multiply fuel a b) p /\
         In c group /\ equals c p = Ok true) /\
    (forall a, In a group ->
       exists i c, returns (fun fuel => Perm.inverse fuel a) i /\
         In c group /\ equals c i = Ok true) /\
    (forall a, In a group ->
       exists e c, returns (fun fuel => identity fuel (Perm.max a)) e /\
         In c group /\ equals c e = Ok true).
Proof.
  intros Hel. apply forallb_WF in Hel.
  destruct (generate_group_spec elements Hel)
    as (more & group & Hret & _ & Hgen & _ & _ & Hclosed & _).
  assert (Hwf : Forall WF group).
  { eapply Forall_impl; [|exact Hgen]. intros y Hy. apply Hy. }
  assert (Hmember : forall y, WF y -> In (code y) (map code group) ->
            exists c, In c group /\ equals c y = Ok true).
  { intros y Wy Hy. apply code_member in Hy as (c & Hc & Ec). exists c.
    split; [assumption|]. unfold equals. rewrite Forall_forall in Hwf.
    rewrite WF_eq by auto. f_equal. now apply Z.eqb_eq. }
  exists group. split; [assumption|]. split; [|split].
  - intros a b Ha Hb. rewrite Forall_forall in Hwf.
    destruct (product_spec a b (Hwf a Ha) (Hwf b Hb)) as (Wp & _ & _ & Rp).
    destruct (Hmember (product a b) Wp (Hclosed a b Ha Hb)) as (c & Hc & Ec).
    exists (product a b), c. split; [exists 9%nat; exact Rp|now split].
  - intros a Ha. pose proof (proj1 (Forall_forall _ _) Hwf a Ha) as Wa.
    destruct (walk_result a Wa) as (j & _ & _ & Hrun).
    destruct (power_succ_spec a Wa j) as (Wi & _ & _).
    destruct (Hmember (power_succ a j) Wi (closed_powers group a Hwf Hclosed Ha j))
      as (c & Hc & Ec).
    exists (power_succ a j), c.
    split; [exists (S (9 + j)); intros fuel Hf; apply Hrun; lia|now split].
  - intros a Ha. pose proof (proj1 (Forall_forall _ _) Hwf a Ha) as Wa.
    destruct (walk_result a Wa) as (j & Hstop & _ & _).
    pose proof (wf_size a Wa) as Hn.
    destruct (Hmember (one (Perm.max a)) (one_WF _ Hn)) as (c & Hc & Ec).
    { rewrite <- Hstop. now apply closed_powers. }
    exists (one (Perm.max a)), c.
    split; [exists 9%nat; intros fuel Hf; now apply one_run|now split].
Qed.

Lemma generate_group_is_group_witness :
  exists group, returns (fun fuel => generateGroup fuel
      [{| Perm.description := [[1; 2; 1; 2]]; Perm.max := 3; Perm.string := py "(12)(3)" |};
       {| Perm.description := [[2; 3; 2; 3]]; Perm.max := 3; Perm.string := py "(1)(23)" |}])
      group /\
    (forall a b, In a group -> In b group ->
       exists p c, returns (fun fuel => multiply fuel a b) p /\
         In c group /\ equals c p = Ok true) /\
    (forall a, In a group ->
       exists i c, returns (fun fuel => Perm.inverse fuel a) i /\
         In c group /\ equals c i = Ok true) /\
    (forall a, In a group ->
       exists e c, returns (fun fuel => identity fuel (Perm.max a)) e /\
         In c group /\ equals c e = Ok true).
Proof.
  apply (generate_group_is_group
    [{| Perm.description := [[1; 2; 1; 2]]; Perm.max := 3; Perm.string := py "(12)(3)" |};
     {| Perm.description := [[2; 3; 2; 3]]; Perm.max := 3; Perm.string := py "(1)(23)" |}]).
  vm_compute. reflexivity.
Defined.

(** X11: [generate_group] returns its list in the order of [<], which is
    the order of falling hashes: no entry is [<] an earlier one, and the
    hashes never rise along the list. *)
Theorem generate_group_sorted (elements : list Perm.t) :
  forallb well_formed elements = true ->
  exists group, returns (fun fuel => generateGroup fuel elements) group /\
    StronglySorted (fun a b => Perm.__lt__ b a = Ok false) group /\
    StronglySorted (fun a b => exists ha hb,
      Perm.__hash__ a = Ok ha /\ Perm.__hash__ b = Ok hb /\ hb <= ha) group.
Proof.
  intros Hel. apply forallb_WF in Hel.
  destruct (generate_group_spec elements Hel)
    as (more & group & Hret & _ & Hgen & _ & _ & _ & Hsorted).
  assert (Hwf : Forall WF group).
  { eapply Forall_impl; [|exact Hgen]. intros y Hy. apply Hy. }
  exists group. split; [assumption|].
  clear Hret Hgen. induction Hsorted as [|a l Hl IH Ha].
  - split; constructor.
  - inversion Hwf as [|? ? Wa Wl]; subst. destruct (IH Wl) as [IH1 IH2].
    rewrite Forall_forall in Ha, Wl. split; (constructor; [assumption|]);
      apply Forall_forall; intros b Hb.
    + rewrite WF_lt by auto. f_equal. apply Z.ltb_ge. now apply Ha.
    + exists (code a), (code b). rewrite !WF_hash by auto. auto.
Qed.

Lemma generate_group_sorted_witness :
  exists group, returns (fun fuel => generateGroup fuel
      [{| Perm.description := [[1; 2; 1; 2]]; Perm.max := 3; Perm.string := py "(12)(3)" |};
       {| Perm.description := [[2; 3; 2; 3]]; Perm.max := 3; Perm.string := py "(1)(23)" |}])
      group /\
    StronglySorted (fun a b => Perm.__lt__ b a = Ok false) group /\
    StronglySorted (fun a b => exists ha hb,
      Perm.__hash__ a = Ok ha /\ Perm.__hash__ b = Ok hb /\ hb <= ha) group.
Proof.
  apply (generate_group_sorted
    [{| Perm.description := [[1; 2; 1; 2]]; Perm.max := 3; Perm.string := py "(12)(3)" |};
     {| Perm.description := [[2; 3; 2; 3]]; Perm.max := 3; Perm.string := py "(1)(23)" |}]).
  vm_compute. reflexivity.
Defined.

(** *** The two texts of a permutation *)

Lemma digit_char_not_open x : 0 <= x <= 9 -> (digit_char x =? "(")%char = false.
Proof. intros H. each_digit x H. Qed.

Lemma text_wrap cs : cs <> [] -> Forall (Forall (fun x => 0 <= x <= 9)) cs ->
  text_of cs = concat (map wrap cs).
Proof.
  intros Hne Hall. rewrite text_of_digits by assumption. clear Hall.
  induction cs as [|c cs IH]; [congruence|]. destruct cs as [|c' cs].
  - cbn [map join concat]. unfold wrap. now rewrite app_nil_r.
  - change (concat (map wrap (c :: c' :: cs)))
      with (wrap c ++ concat (map wrap (c' :: cs))).
    rewrite <- IH by discriminate.
    change (map digits (c :: c' :: cs)) with (digits c :: digits c' :: map digits cs).
    rewrite join_cons. unfold wrap. rewrite <- !app_assoc. reflexivity.
Qed.

Lemma sub_keep c s : (c =? "(")%char = false ->
  sub_singletons (c :: s) = c :: sub_singletons s.
Proof.
  intros H. destruct s as [|d [|c' rest]]; cbn [sub_singletons]; rewrite ?H; reflexivity.
Qed.

Lemma sub_digits c rest : Forall (fun x => 0 <= x <= 9) c ->
  sub_singletons (digits c ++ ")"%char :: rest)
  = digits c ++ ")"%char :: sub_singletons rest.
Proof.
  induction 1 as [|x c Hx _ IH]; cbn [digits map app].
  - now apply sub_keep.
  - rewrite sub_keep by now apply digit_char_not_open. f_equal. exact IH.
Qed.

Lemma wrap_app c rest : wrap c ++ rest = "("%char :: digits c ++ ")"%char :: rest.
Proof.
  unfold wrap. change (py "(") with ["("%char]. change (py ")") with [")"%char].
  cbn [app]. now rewrite <- app_assoc.
Qed.

Lemma sub_wrap c rest : c <> [] -> Forall (fun x => 0 <= x <= 9) c ->
  sub_singletons (wrap c ++ rest)
  = if moves c then wrap c ++ sub_singletons rest else sub_singletons rest.
Proof.
  intros Hne Hc. rewrite !wrap_app. destruct c as [|d1 [|d2 c]]; [congruence| |].
  - inversion Hc as [|? ? H1 _]; subst.
    change (sub_singletons ("("%char :: digits [d1] ++ ")"%char :: rest))
      with (if ("(" =? "(")%char && is_digit (digit_char d1) && (")" =? ")")%char
            then sub_singletons rest
            else "("%char :: sub_singletons (digit_char d1 :: ")"%char :: rest)).
    now rewrite digit_char_is_digit.
  - inversion Hc as [|? ? H1 Hc']; subst. inversion Hc' as [|? ? H2 Hc'']; subst.
    change (moves (d1 :: d2 :: c)) with true. cbv iota.
    change (sub_singletons ("("%char :: digits (d1 :: d2 :: c) ++ ")"%char :: rest))
      with (if ("(" =? "(")%char && is_digit (digit_char d1) && (digit_char d2 =? ")")%char
            then sub_singletons (digits c ++ ")"%char :: rest)
            else "("%char :: sub_singletons (digits (d1 :: d2 :: c) ++ ")"%char :: rest)).
    rewrite (digit_char_not_close d2 H2), andb_false_r.
    now rewrite sub_digits by assumption.
Qed.

Lemma sub_concat cs : Forall (fun c => c <> []) cs ->
  Forall (Forall (fun x => 0 <= x <= 9)) cs ->
  sub_singletons (concat (map wrap cs)) = concat (map wrap (filter moves cs)).
Proof.
  induction 1 as [|c cs Hc _ IH]; intros Hall; [reflexivity|].
  inversion Hall as [|? ? Hd Hall']; subst. cbn [map concat filter].
  rewrite sub_wrap by assumption. destruct (moves c); [|now apply IH].
  cbn [map concat]. now rewrite IH.
Qed.

Lemma filter_Forall {A : Type} (P : A -> Prop) (q : A -> bool) (l : list A) :
  Forall P l -> Forall P (filter q l).
Proof.
  intros H. apply Forall_forall. intros x Hx. apply filter_In in Hx as [Hx _].
  rewrite Forall_forall in H. now apply H.
Qed.

(** The reduced text, from the cycles of the full text. *)
Lemma str_cycles p cs : cs <> [] -> Forall (fun c => c <> []) cs ->
  Forall (Forall (fun x => 0 <= x <= 9)) cs -> Perm.string p = text_of cs ->
  Perm.__str__ p = match filter moves cs with [] => py "e" | l => text_of l end.
Proof.
  intros Hne Hnn Hdig E. unfold Perm.__str__, Perm.__repr__.
  rewrite E, text_wrap, sub_concat by assumption.
  destruct (filter moves cs) as [|c l] eqn:F; [reflexivity|].
  rewrite (text_wrap (c :: l)); [|discriminate|rewrite <- F; now apply filter_Forall].
  reflexivity.
Qed.

Lemma sum_cons x l : sum (x :: l) = x + sum l.
Proof.
  unfold sum. cbn [fold_left]. replace (0 + x) with x by lia.
  revert x. induction l as [|y l IH]; intros x; cbn [fold_left]; [lia|].
  rewrite (IH (x + y)), (IH (0 + y)). lia.
Qed.

Lemma minus_one_even a k : 0 <= a -> 0 <= k -> (-1) ^ (a + 2 * k) = (-1) ^ a.
Proof.
  intros Ha Hk. rewrite Z.pow_add_r, Z.pow_mul_r by lia.
  change ((-1) ^ 2) with 1. rewrite Z.pow_1_l by assumption. lia.
Qed.

(** The exponent that [sgn] adds up has the parity of the number of points
    less the number of cycles. *)
Lemma sign_parity cs : Forall (fun c => c <> []) cs ->
  exists k, 0 <= k /\
    0 <= Z.of_nat (length (concat cs)) - Z.of_nat (length cs) /\
    sum (map (fun c => Z.of_nat (length c) + 1) (filter moves cs))
    = Z.of_nat (length (concat cs)) - Z.of_nat (length cs) + 2 * k.
Proof.
  induction 1 as [|c cs Hc _ (k & Hk & Hpos & E)].
  - exists 0. cbn. lia.
  - cbn [filter concat length]. rewrite length_app.
    destruct c as [|a [|b c]]; [congruence| |].
    + exists k. change (moves [a]) with false. cbv iota. cbn [length]. lia.
    + exists (k + 1). change (moves (a :: b :: c)) with true. cbv iota.
      cbn [map]. rewrite sum_cons, E. cbn [length]. lia.
Qed.

Lemma canonical_points f n cs : 0 <= n -> canonical f n cs ->
  Z.of_nat (length (concat cs)) = n.
Proof.
  intros Hn Hcan.
  assert (P : Permutation (concat cs) (range 1 (n + 1))).
  { apply NoDup_Permutation; [apply Hcan|apply range_NoDup|].
    intros x. rewrite range_In, <- (can_cover _ _ _ Hcan x). lia. }
  rewrite (Permutation_length P), range_length. lia.
Qed.

Lemma next_single a x : next [a] x = x.
Proof.
  destruct (Z.eq_dec x a) as [->|Hne].
  - rewrite next_at by now left. cbn [pos]. rewrite Z.eqb_refl. reflexivity.
  - apply next_out. intros [H|[]]. congruence.
Qed.

Lemma via_cons c cs x : via (c :: cs) x = via cs (next c x).
Proof. reflexivity. Qed.

Lemma via_moves cs : Forall (fun c => c <> []) cs ->
  forall x, via (filter moves cs) x = via cs x.
Proof.
  induction 1 as [|c cs Hc _ IH]; intros x; [reflexivity|].
  cbn [filter]. rewrite (via_cons c cs). destruct c as [|a [|b c]]; [congruence| |].
  - change (moves [a]) with false. cbv iota. now rewrite next_single.
  - change (moves (a :: b :: c)) with true. cbv iota. now rewrite via_cons.
Qed.

(** What the canonical cycles of a well-formed permutation look like. *)
Lemma WF_cycles p : WF p ->
  exists cs, canonical (action p) (Perm.max p) cs /\ Perm.string p = text_of cs /\
    cs <> [] /\ Forall (fun c => c <> []) cs /\
    Forall (Forall (fun x => 0 <= x <= 9)) cs.
Proof.
  intros Hp. destruct (WF_canonical p Hp) as (cs & Hcan & E).
  destruct (canonical_shape _ _ cs (wf_size p Hp) Hcan) as (H1 & H2 & H3).
  exists cs. auto.
Qed.

(** X12: the reduced text of a well-formed permutation is the text of its
    cycles of two points or more, and the letter [e] when there is none,
    which is exactly when the permutation moves no point. *)
Theorem reduced_text_cycles (p : Perm.t) :
  well_formed p = true ->
  exists cs, canonical (action p) (Perm.max p) cs /\ fullText p = text_of cs /\
    reducedText p = match filter moves cs with [] => py "e" | l => text_of l end /\
    (reducedText p = py "e" <-> forall x, action p x = x).
Proof.
  intros Hp. apply well_formed_WF in Hp.
  destruct (WF_cycles p Hp) as (cs & Hcan & E & Hne & Hnn & Hdig).
  pose proof (str_cycles p cs Hne Hnn Hdig E) as Hstr.
  exists cs. split; [assumption|]. split; [assumption|]. split; [assumption|].
  unfold reducedText. rewrite Hstr. split.
  - intros He x.
    destruct (filter moves cs) as [|c l] eqn:F;
      [|exfalso; rewrite text_of_digits in He
          by (rewrite <- F; now apply filter_Forall); discriminate].
    destruct (Z_le_dec 1 x) as [H1|H1]; [destruct (Z_le_dec x (Perm.max p)) as [H2|H2]|];
      [|apply wf_fixes; (assumption || lia)..].
    pose proof (proj1 (can_cover _ _ _ Hcan x) (conj H1 H2)) as Hin.
    apply in_concat in Hin as (c & Hc & Hx).
    assert (Hm : moves c = false).
    { destruct (moves c) eqn:M; [|reflexivity].
      assert (Hf : In c (filter moves cs)) by (apply filter_In; now split).
      rewrite F in Hf. destruct Hf. }
    rewrite Forall_forall in Hnn. specialize (Hnn c Hc).
    destruct c as [|a [|b c]]; [congruence| |discriminate].
    destruct Hx as [<-|[]].
    pose proof (can_cycle _ _ _ Hcan) as Hcyc. rewrite Forall_forall in Hcyc.
    apply (Hcyc [a] Hc 0%nat). cbn. lia.
  - intros Hid. destruct (filter moves cs) as [|c l] eqn:F; [reflexivity|exfalso].
    assert (Hc : In c cs /\ moves c = true).
    { apply filter_In. rewrite F. now left. }
    destruct Hc as [Hc Hm]. destruct c as [|a [|b c]]; try discriminate.
    pose proof (can_cycle _ _ _ Hcan) as Hcyc. rewrite Forall_forall in Hcyc.
    specialize (Hcyc _ Hc 0%nat). cbn [length nth] in Hcyc.
    rewrite Hid in Hcyc.
    assert (Hnd : NoDup (a :: b :: c)) by (apply (NoDup_concat_each cs); [apply Hcan|assumption]).
    assert (E1 : (1 mod S (S (length c)) = 1)%nat) by (apply Nat.mod_small; lia).
    rewrite E1 in Hcyc. cbn [nth] in Hcyc.
    inversion Hnd as [|? ? Hnot _]; subst. apply Hnot. left. symmetry. apply Hcyc. lia.
Qed.

Lemma reduced_text_cycles_witness :
  exists cs,
    canonical (action {| Perm.description := [[2; 3; 2; 3]]; Perm.max := 4;
                         Perm.string := py "(1)(23)(4)" |}) 4 cs /\
    py "(1)(23)(4)" = text_of cs /\
    reducedText {| Perm.description := [[2; 3; 2; 3]]; Perm.max := 4;
                   Perm.string := py "(1)(23)(4)" |}
    = match filter moves cs with [] => py "e" | l => text_of l end /\
    (reducedText {| Perm.description := [[2; 3; 2; 3]]; Perm.max := 4;
                    Perm.string := py "(1)(23)(4)" |} = py "e" <->
     forall x, action {| Perm.description := [[2; 3; 2; 3]]; Perm.max := 4;
                         Perm.string := py "(1)(23)(4)" |} x = x).
Proof.
  apply (reduced_text_cycles
    {| Perm.description := [[2; 3; 2; 3]]; Perm.max := 4; Perm.string := py "(1)(23)(4)" |}).
  vm_compute. reflexivity.
Defined.

(** The exponent of the sign, from the cycles of the full text. *)
Lemma sgn_cycles (p : Perm.t) : WF p ->
  exists cs, canonical (action p) (Perm.max p) cs /\ Perm.string p = text_of cs /\
    sgn p = (-1) ^ (Perm.max p - Z.of_nat (length cs)).
Proof.
  intros Hp.
  destruct (WF_cycles p Hp) as (cs & Hcan & E & Hne & Hnn & Hdig).
  pose proof (str_cycles p cs Hne Hnn Hdig E) as Hstr.
  destruct (sign_parity cs Hnn) as (k & Hk & Hpos & Hsum).
  pose proof (wf_size p Hp) as Hn.
  assert (Hpts : Z.of_nat (length (concat cs)) = Perm.max p)
    by (apply (canonical_points (action p)); [lia|assumption]).
  rewrite Hpts in Hpos, Hsum.
  exists cs. split; [assumption|]. split; [assumption|].
  unfold sgn. rewrite Hstr.
  destruct (filter moves cs) as [|c l] eqn:F.
  - change (sum (map (fun s => Z.of_nat (length s) + 1) (split (strip (py "e"))))) with 2.
    change (sum (map (fun c => Z.of_nat (length c) + 1) [])) with 0 in Hsum.
    replace 2 with (0 + 2 * 1) by lia. rewrite minus_one_even by lia.
    replace (Perm.max p - Z.of_nat (length cs)) with (0 + 2 * 0); [|lia].
    now rewrite minus_one_even by lia.
  - assert (Hl : Forall (Forall (fun x => 0 <= x <= 9)) (c :: l))
      by (rewrite <- F; now apply filter_Forall).
    assert (Hl' : Forall (fun c => c <> []) (c :: l))
      by (rewrite <- F; now apply filter_Forall).
    cbv zeta. rewrite text_of_digits, strip_text, split_join by (assumption || discriminate).
    rewrite map_map.
    rewrite (map_ext (fun x => Z.of_nat (length (digits x)) + 1)
                     (fun c => Z.of_nat (length c) + 1))
      by (intros; unfold digits; now rewrite length_map).
    rewrite Hsum. now apply minus_one_even.
Qed.


(** X13: the sign of a well-formed permutation is -1 to the power of the
    number of points less the number of cycles of its full text. *)
Theorem sign_counts_cycles (p : Perm.t) :
  well_formed p = true ->
  exists cs, canonical (action p) (Perm.max p) cs /\ fullText p = text_of cs /\
    sign p = (-1) ^ (Perm.max p - Z.of_nat (length cs)).
Proof.
  intros Hp. apply well_formed_WF in Hp.
  destruct (sgn_cycles p Hp) as (cs & Hcan & E & Hs). now exists cs.
Qed.

Lemma sign_counts_cycles_witness :
  exists cs,
    canonical (action {| Perm.description := [[2; 3; 2; 3]]; Perm.max := 4;
                         Perm.string := py "(1)(23)(4)" |}) 4 cs /\
    py "(1)(23)(4)" = text_of cs /\
    sign {| Perm.description := [[2; 3; 2; 3]]; Perm.max := 4;
            Perm.string := py "(1)(23)(4)" |} = (-1) ^ (4 - Z.of_nat (length cs)).
Proof.
  apply (sign_counts_cycles
    {| Perm.description := [[2; 3; 2; 3]]; Perm.max := 4; Perm.string := py "(1)(23)(4)" |}).
  vm_compute. reflexivity.
Defined.

(** *** Reading a permutation back from its texts *)

Lemma init_with_size fuel cs m p :
  Perm.__init__ fuel (text_of cs) None = Ok p -> Perm.max p = m ->
  Perm.__init__ fuel (text_of cs) (Some m) = Ok p.
Proof.
  unfold Perm.__init__. destruct (Perm.parse (text_of cs)) as [d| |]; cbn [bind];
    try discriminate.
  destruct (Perm.ground None d) as [m'| |]; cbn [bind Perm.ground]; try discriminate.
  destruct (Perm.apply fuel m' d) as [s| |] eqn:A; cbn [bind]; try discriminate.
  intros [= <-]. cbn [Perm.max]. intros <-. now rewrite A.
Qed.

Lemma NoDup_concat_filter (q : list Z -> bool) (cs : list (list Z)) :
  NoDup (concat cs) -> NoDup (concat (filter q cs)).
Proof.
  induction cs as [|c cs IH]; cbn [concat filter]; intros H; [constructor|].
  apply NoDup_app_remove_l in H as H'. destruct (q c); [|now apply IH].
  cbn [concat]. apply NoDup_app.
  - now apply NoDup_app_remove_r in H.
  - now apply IH.
  - intros x Hx Hx'. apply in_concat in Hx' as (c' & Hc' & Hx').
    apply filter_In in Hc' as [Hc' _].
    assert (Hin : In x (concat cs)) by (apply in_concat; now exists c').
    clear - H Hx Hin. induction c as [|a c IHc]; [destruct Hx|].
    cbn [app] in H. inversion H as [|? ? Hnot Hrest]; subst. destruct Hx as [<-|Hx].
    + apply Hnot. apply in_app_iff. now right.
    + now apply IHc.
Qed.

Lemma In_concat_filter (q : list Z -> bool) (cs : list (list Z)) x :
  In x (concat (filter q cs)) -> In x (concat cs).
Proof.
  intros H. apply in_concat in H as (c & Hc & Hx). apply filter_In in Hc as [Hc _].
  apply in_concat. now exists c.
Qed.

(** X14: building a permutation again from the full text of a well-formed
    one, with or without its ground size, returns a well-formed permutation
    with the same full text and ground size, [==] to the first. *)
Theorem construct_full_text (p : Perm.t) :
  well_formed p = true ->
  exists q, returns (fun fuel => construct fuel (fullText p) None) q /\
    returns (fun fuel => construct fuel (fullText p) (Some (Perm.max p))) q /\
    well_formed q = true /\
    fullText q = fullText p /\ Perm.max q = Perm.max p /\ equals q p = Ok true.
Proof.
  intros Hp. apply well_formed_WF in Hp.
  destruct (WF_cycles p Hp) as (cs & Hcan & E & _).
  pose proof (wf_size p Hp) as Hn.
  destruct (normalise (Perm.description p) (Perm.max p) (action p) Hn)
    as (cs' & Hcan' & Hq & Hrun).
  { apply wf_permutes; [assumption|lia]. }
  { intros x _. rewrite (wf_image p Hp). f_equal. symmetry. now apply wf_action. }
  assert (cs' = cs) by (apply (canonical_unique _ _ _ _ Hcan' Hcan)). subst cs'.
  exists (of_cycles (Perm.max p) cs). unfold fullText, Perm.__repr__, construct.
  rewrite E. split; [|split; [|split; [|split; [|split]]]].
  - exists 9%nat. intros fuel Hf. now apply Hrun.
  - exists 9%nat. intros fuel Hf. apply init_with_size; [now apply Hrun|reflexivity].
  - now apply WF_well_formed.
  - reflexivity.
  - reflexivity.
  - unfold equals. rewrite WF_eq by assumption. f_equal. apply Z.eqb_eq.
    unfold code. now rewrite E.
Qed.

Lemma construct_full_text_witness :
  exists q,
    returns (fun fuel => construct fuel (py "(1)(23)(4)") None) q /\
    returns (fun fuel => construct fuel (py "(1)(23)(4)") (Some 4)) q /\
    well_formed q = true /\
    fullText q = py "(1)(23)(4)" /\ Perm.max q = 4 /\
    equals q {| Perm.description := [[3; 2; 3; 2]]; Perm.max := 4;
                Perm.string := py "(1)(23)(4)" |} = Ok true.
Proof.
  apply (construct_full_text
    {| Perm.description := [[3; 2; 3; 2]]; Perm.max := 4; Perm.string := py "(1)(23)(4)" |}).
  vm_compute. reflexivity.
Defined.

(** X15: the reduced text of a well-formed permutation, read with its
    ground size, gives a well-formed permutation with the same full text;
    but the reduced text [e] of an identity cannot be read at all. *)
Theorem construct_reduced_text (p : Perm.t) :
  well_formed p = true ->
  (reducedText p <> py "e" ->
     exists q,
       returns (fun fuel => construct fuel (reducedText p) (Some (Perm.max p))) q /\
       well_formed q = true /\ fullText q = fullText p /\ equals q p = Ok true) /\
  (reducedText p = py "e" ->
     raises (fun fuel => construct fuel (reducedText p) (Some (Perm.max p)))
       (ValueError invalid_literal)).
Proof.
  intros Hp. apply well_formed_WF in Hp. split.
  - intros Hne.
    destruct (WF_cycles p Hp) as (cs & Hcan & E & Hcs & Hnn & Hdig).
    pose proof (str_cycles p cs Hcs Hnn Hdig E) as Hstr.
    pose proof (wf_size p Hp) as Hn.
    unfold reducedText in *. rewrite Hstr in *. clear Hstr.
    remember (filter moves cs) as l eqn:El.
    destruct l as [|c0 l0]; [now exfalso|]. clear Hne. cbv iota.
    remember (c0 :: l0) as l eqn:El'.
    assert (Hl : l <> []) by (rewrite El'; discriminate).
    assert (Hlnn : Forall (fun c => c <> []) l) by (rewrite El; now apply filter_Forall).
    assert (Hldig : Forall (Forall (fun x => 0 <= x <= 9)) l)
      by (rewrite El; now apply filter_Forall).
    destruct (normalise (map double l) (Perm.max p) (action p) Hn)
      as (cs' & Hcan' & _ & Hrun).
    { apply wf_permutes; [assumption|lia]. }
    { intros x Hx. rewrite image_double. f_equal. rewrite El.
      rewrite via_moves by assumption. now apply (via_canonical _ (Perm.max p)). }
    assert (cs' = cs) by (apply (canonical_unique _ _ _ _ Hcan' Hcan)). subst cs'.
    set (q := {| Perm.description := map double l; Perm.max := Perm.max p;
                 Perm.string := text_of cs |}).
    assert (Hq : WF q).
    { constructor; unfold cycles_of, q; cbn [Perm.max Perm.description Perm.string];
        rewrite ?map_half_double.
      - assumption.
      - reflexivity.
      - intros x Hx. apply (can_cover _ _ _ Hcan). rewrite El in Hx.
        now apply (In_concat_filter moves).
      - rewrite El. apply NoDup_concat_filter. apply Hcan.
      - apply Hrun. lia. }
    exists q. split; [|split; [|split]].
    + exists 9%nat. intros fuel Hf. unfold construct, Perm.__init__.
      rewrite parse_text_of by assumption. cbn [bind Perm.ground].
      now rewrite (proj1 (Hrun fuel Hf)).
    + now apply WF_well_formed.
    + unfold fullText, Perm.__repr__, q. cbn [Perm.string]. now rewrite E.
    + unfold equals. rewrite WF_eq by assumption. f_equal. apply Z.eqb_eq.
      unfold code, q. cbn [Perm.string]. now rewrite E.
  - intros ->. exists 0%nat. intros fuel _. reflexivity.
Qed.

Lemma construct_reduced_text_witness :
  (reducedText {| Perm.description := [[3; 2; 3; 2]]; Perm.max := 4;
                  Perm.string := py "(1)(23)(4)" |} <> py "e" ->
     exists q,
       returns (fun fuel => construct fuel
         (reducedText {| Perm.description := [[3; 2; 3; 2]]; Perm.max := 4;
                         Perm.string := py "(1)(23)(4)" |}) (Some 4)) q /\
       well_formed q = true /\ fullText q = py "(1)(23)(4)" /\
       equals q {| Perm.description := [[3; 2; 3; 2]]; Perm.max := 4;
                   Perm.string := py "(1)(23)(4)" |} = Ok true) /\
  (reducedText {| Perm.description := [[3; 2; 3; 2]]; Perm.max := 4;
                  Perm.string := py "(1)(23)(4)" |} = py "e" ->
     raises (fun fuel => construct fuel
         (reducedText {| Perm.description := [[3; 2; 3; 2]]; Perm.max := 4;
                         Perm.string := py "(1)(23)(4)" |}) (Some 4))
       (ValueError invalid_literal)).
Proof.
  apply (construct_reduced_text
    {| Perm.description := [[3; 2; 3; 2]]; Perm.max := 4; Perm.string := py "(1)(23)(4)" |}).
  vm_compute. reflexivity.
Defined.

Lemma lstrip_app s t :
  lstrip (s ++ t) = match lstrip s with [] => lstrip t | r => r ++ t end.
Proof.
  induction s as [|c s IH]; [reflexivity|]. cbn [app lstrip].
  destruct (is_paren c); [exact IH|reflexivity].
Qed.

Lemma lstrip_head t c r : lstrip t = c :: r -> is_paren c = false.
Proof.
  induction t as [|a t IH]; cbn [lstrip]; [discriminate|].
  destruct (is_paren a) eqn:A; [exact IH|]. intros [= <- _]. exact A.
Qed.

Lemma rstrip_idem s : rstrip (rstrip s) = rstrip s.
Proof.
  induction s as [|c s IH]; [reflexivity|]. cbn [rstrip].
  destruct (rstrip s) as [|a r] eqn:E.
  - destruct (is_paren c) eqn:C; [reflexivity|]. cbn [rstrip]. now rewrite C.
  - change (rstrip (c :: a :: r))
      with (match rstrip (a :: r) with
            | [] => if is_paren c then [] else [c]
            | r0 => c :: r0
            end).
    now rewrite IH.
Qed.

Lemma rstrip_head c s : is_paren c = false -> exists r, rstrip (c :: s) = c :: r.
Proof.
  intros C. cbn [rstrip]. destruct (rstrip s) as [|a r].
  - rewrite C. now exists [].
  - now exists (a :: r).
Qed.

Lemma strip_idem t : strip (strip t) = strip t.
Proof.
  unfold strip. destruct (lstrip t) as [|c r] eqn:E; [reflexivity|].
  pose proof (lstrip_head t c r E) as C.
  destruct (rstrip_head c r C) as (r' & Er). rewrite Er.
  cbn [lstrip]. rewrite C, <- Er. apply rstrip_idem.
Qed.

Lemma strip_wrapped (a b : ascii) t : is_paren a = true -> is_paren b = true ->
  strip (a :: t ++ [b]) = strip t.
Proof.
  intros Ha Hb. unfold strip. cbn [lstrip]. rewrite Ha, lstrip_app.
  destruct (lstrip t) as [|c r].
  - cbn [lstrip]. now rewrite Hb.
  - rewrite rstrip_app. cbn [rstrip]. now rewrite Hb.
Qed.

(** X16: the parentheses around a text do not count for the constructor:
    a text put between one more pair of parentheses, or stripped of all its
    outer ones, gives the very result of the text itself. *)
Theorem construct_outer_parentheses (fuel : nat) (t : list ascii) (m : option Z) :
  construct fuel (py "(" ++ t ++ py ")") m = construct fuel t m /\
  construct fuel (strip t) m = construct fuel t m.
Proof.
  unfold construct, Perm.__init__, Perm.parse. split.
  - change (py "(" ++ t ++ py ")") with ("("%char :: t ++ [")"%char]).
    now rewrite strip_wrapped.
  - now rewrite strip_idem.
Qed.

(** *** The constructor on texts that are not permutations *)

Section Any_cycles.

Variables (cycles : list (list Z)) (n : Z) (f : Z -> Z).
Hypothesis Himage : forall x, Perm.image cycles x = Ok (f x).

Local Abbreviation iter k x := (Nat.iter k f x).
Local Abbreviation back e k := (returns_after f n e k).
Local Abbreviation Paths result := (closed_paths f n result).

Lemma iter_swap j k e : iter k (iter j e) = iter j (iter k e).
Proof. rewrite <- !Nat.iter_add. f_equal. lia. Qed.

Lemma trace_distinct e k : back e k -> NoDup (trace f e k).
Proof.
  intros (He & Hk & Hret & Hfirst). unfold trace.
  apply NoDup_map_NoDup_ForallPairs; [|apply seq_NoDup].
  assert (H : forall i j, (i < j < k)%nat -> iter i e <> iter j e).
  { intros i j Hij E. apply (Hfirst (k - j + i)%nat); [lia|].
    rewrite Nat.iter_add, E, <- Nat.iter_add.
    replace (k - j + j)%nat with k by lia. exact Hret. }
  intros i j Hi Hj E. apply in_seq in Hi, Hj.
  destruct (Nat.lt_trichotomy i j) as [L|[L|L]]; [|assumption|]; exfalso.
  - apply (H i j); [lia|assumption].
  - apply (H j i); [lia|now symmetry].
Qed.

Lemma count_open e i : (1 <= i)%nat ->
  (forall j, (0 < j < i)%nat -> iter j e <> e) -> count e (trace f e i) = 1.
Proof.
  unfold count. induction i as [|i IH]; intros Hi Hno; [lia|].
  destruct (Nat.eq_dec i 0) as [->|Hne].
  - cbn. destruct (Z.eq_dec e e); [reflexivity|congruence].
  - rewrite trace_S, count_occ_app. cbn [count_occ].
    destruct (Z.eq_dec (iter i e) e) as [E|_]; [exfalso; apply (Hno i); [lia|assumption]|].
    rewrite Nat.add_0_r. apply IH; [lia|]. intros j Hj. apply Hno. lia.
Qed.

Lemma orbit_stop fuel e cur : 2 <= count e cur -> Perm.orbit fuel cycles e cur = Ok cur.
Proof.
  intros H. apply Z.ltb_ge in H. destruct fuel; cbn [Perm.orbit]; now rewrite H.
Qed.

Lemma orbit_step fuel e cur : count e cur < 2 ->
  Perm.orbit (S fuel) cycles e cur = Perm.orbit fuel cycles e (cur ++ [f (last cur 0)]).
Proof.
  intros H. apply Z.ltb_lt in H. cbn [Perm.orbit]. now rewrite H, Himage.
Qed.

Lemma orbit_out e cur : count e cur < 2 -> Perm.orbit 0 cycles e cur = Timeout.
Proof. intros H. apply Z.ltb_lt in H. cbn [Perm.orbit]. now rewrite H. Qed.

Lemma count_closed e j : (1 <= j)%nat -> iter j e = e ->
  (forall j', (0 < j' < j)%nat -> iter j' e <> e) -> count e (trace f e (S j)) = 2.
Proof.
  intros Hj E Hno. pose proof (count_open e j Hj Hno) as C. unfold count in *.
  rewrite trace_S, count_occ_app. cbn [count_occ].
  destruct (Z.eq_dec (iter j e) e); [lia|congruence].
Qed.

(** The inner loop runs out of fuel or stops at the first return. *)
Lemma orbit_cases e : 1 <= e <= n -> forall fuel j,
  (forall j', (0 < j' < j)%nat -> iter j' e <> e) ->
  Perm.orbit fuel cycles e (trace f e (S j)) = Timeout \/
  exists k, back e k /\ Perm.orbit fuel cycles e (trace f e (S j)) = Ok (trace f e (S k)).
Proof.
  intros He. induction fuel as [|fuel IH]; intros j Hno.
  - destruct (Nat.eq_dec j 0) as [->|Hj]; [|destruct (Z.eq_dec (iter j e) e) as [E|E]].
    + left. apply orbit_out. rewrite count_open by (lia || intros; lia). lia.
    + right. exists j. split; [repeat split; (assumption || lia)|].
      apply orbit_stop. rewrite count_closed by (assumption || lia). lia.
    + left. apply orbit_out. rewrite count_open; [lia|lia|].
      intros j' Hj'. destruct (Nat.eq_dec j' j) as [->|]; [assumption|apply Hno; lia].
  - assert (Hgo : count e (trace f e (S j)) < 2 ->
              (forall j', (0 < j' < S j)%nat -> iter j' e <> e) ->
              Perm.orbit (S fuel) cycles e (trace f e (S j)) = Timeout \/
              exists k, back e k /\
                Perm.orbit (S fuel) cycles e (trace f e (S j)) = Ok (trace f e (S k))).
    { intros Hc Hno'. rewrite orbit_step by assumption.
      assert (Et : trace f e (S j) ++ [f (last (trace f e (S j)) 0)] = trace f e (S (S j))).
      { rewrite (trace_S f e (S j)). do 2 f_equal. now rewrite trace_S, last_last. }
      rewrite Et. now apply IH. }
    destruct (Nat.eq_dec j 0) as [->|Hj]; [|destruct (Z.eq_dec (iter j e) e) as [E|E]].
    + apply Hgo; [|intros; lia]. rewrite count_open by (lia || intros; lia). lia.
    + right. exists j. split; [repeat split; (assumption || lia)|].
      apply orbit_stop. rewrite count_closed by (assumption || lia). lia.
    + assert (Hno' : forall j', (0 < j' < S j)%nat -> iter j' e <> e).
      { intros j' Hj'. destruct (Nat.eq_dec j' j) as [->|]; [assumption|apply Hno; lia]. }
      apply Hgo; [|assumption]. rewrite count_open by (assumption || lia). lia.
Qed.

Lemma paths_nil : Paths [].
Proof. constructor; cbn; constructor. Qed.

Lemma paths_In result x : Paths result ->
  In x (placed result) <-> exists r, In r result /\ In x r.
Proof.
  intros Hinv. unfold placed. rewrite in_concat.
  pose proof (cp_orbits _ Hinv) as Ho. rewrite Forall_forall in Ho. split.
  - intros (c & Hc & Hx). apply in_map_iff in Hc as (r & <- & Hr). exists r.
    split; [assumption|]. destruct (Ho r Hr) as (e & k & Hek & ->).
    rewrite removelast_trace in Hx. now apply (trace_closed_In n).
  - intros (r & Hr & Hx). exists (removelast r). split; [now apply in_map|].
    destruct (Ho r Hr) as (e & k & Hek & ->). rewrite removelast_trace.
    now apply (trace_closed_In n).
Qed.

Lemma paths_unplaced result x : Paths result ->
  Perm.unplaced result x = true <-> ~ In x (placed result).
Proof.
  intros Hinv. unfold Perm.unplaced. rewrite negb_true_iff, <- not_true_iff_false.
  rewrite existsb_exists, paths_In by assumption.
  split; intros H (r & Hr & Hx); apply H; exists r; (split; [assumption|]); now apply mem_In.
Qed.

(** A placed point is on a closed path: it has an image that is placed, and
    it comes back to itself. *)
Lemma paths_point result x : Paths result -> In x (placed result) ->
  exists e k j, back e k /\ (j < k)%nat /\ x = iter j e /\
    forall i, (i < k)%nat -> In (iter i e) (placed result).
Proof.
  intros Hinv Hx. apply paths_In in Hx as (r & Hr & Hx); [|assumption].
  pose proof (cp_orbits _ Hinv) as Ho. rewrite Forall_forall in Ho.
  destruct (Ho r Hr) as (e & k & Hek & ->).
  apply (trace_closed_In n f e k x Hek) in Hx. apply trace_In in Hx as (j & Hj & ->).
  exists e, k, j. repeat split; try assumption; try apply Hek.
  intros i Hi. apply paths_In; [assumption|]. exists (trace f e (S k)).
  split; [assumption|]. apply trace_In. exists i. split; [lia|reflexivity].
Qed.

Lemma paths_image result x : Paths result -> In x (placed result) ->
  In (f x) (placed result).
Proof.
  intros Hinv Hx. destruct (paths_point result x Hinv Hx) as (e & k & j & Hek & Hj & -> & Hin).
  destruct (Nat.eq_dec (S j) k) as [E|Hne].
  - change (f (iter j e)) with (iter (S j) e). rewrite E.
    destruct Hek as (_ & Hk & -> & _). apply (Hin 0%nat). lia.
  - apply (Hin (S j)). lia.
Qed.

Lemma paths_periodic result x : Paths result -> In x (placed result) ->
  exists k, (1 <= k)%nat /\ iter k x = x.
Proof.
  intros Hinv Hx. destruct (paths_point result x Hinv Hx) as (e & k & j & Hek & Hj & -> & _).
  exists k. split; [apply Hek|]. rewrite iter_swap. f_equal. apply Hek.
Qed.

Lemma paths_iter result x : Paths result -> In x (placed result) ->
  forall i, In (iter i x) (placed result).
Proof.
  intros Hinv Hx. induction i as [|i IH]; [assumption|]. now apply paths_image.
Qed.

(** The path of a point that comes back, and is not placed, meets no
    placed point. *)
Lemma paths_fresh result e k : Paths result -> back e k -> ~ In e (placed result) ->
  forall j, ~ In (iter j e) (placed result).
Proof.
  intros Hinv (He & Hk & Hret & _) Hfresh j Hin. apply Hfresh.
  replace e with (iter (j * (k - 1)) (iter j e)); [now apply paths_iter|].
  rewrite <- Nat.iter_add. replace (j * (k - 1) + j)%nat with (j * k)%nat by nia.
  now apply iter_multiple.
Qed.

Lemma paths_snoc result e k : Paths result -> back e k -> ~ In e (placed result) ->
  Paths (result ++ [trace f e (S k)]).
Proof.
  intros Hinv Hek Hfresh. constructor.
  - apply Forall_app. split; [apply Hinv|]. constructor; [|constructor]. now exists e, k.
  - rewrite placed_snoc, removelast_trace.
    apply NoDup_app; [apply Hinv|now apply trace_distinct|].
    intros x Hx Hx'. apply trace_In in Hx' as (j & _ & ->).
    now apply (paths_fresh result e k Hinv Hek Hfresh j).
  - rewrite map_app, placed_snoc, removelast_trace, length_app. cbn [map].
    rewrite sum_snoc, (cp_sum _ Hinv), !trace_length. lia.
Qed.

Lemma paths_unplaced_exists result : Z.of_nat (length (placed result)) < n ->
  Paths result -> filter (Perm.unplaced result) (range 1 (n + 1)) <> [].
Proof.
  intros Hlt Hinv Hnil.
  assert (Hincl : incl (range 1 (n + 1)) (placed result)).
  { intros x Hx. destruct (in_dec Z.eq_dec x (placed result)) as [|Hno]; [assumption|].
    exfalso. assert (Hf : In x (filter (Perm.unplaced result) (range 1 (n + 1)))).
    { apply filter_In. split; [assumption|]. now apply paths_unplaced. }
    rewrite Hnil in Hf. destruct Hf. }
  apply NoDup_incl_length in Hincl; [|apply range_NoDup].
  rewrite range_length in Hincl. lia.
Qed.

(** The outer loop runs out of fuel, or ends with closed paths that hold
    [n] points or more; it never raises. *)
Lemma apply_loop_cases inner : forall fuel result, Paths result ->
  Perm.apply_loop fuel inner n cycles result = Timeout \/
  exists result', Perm.apply_loop fuel inner n cycles result = Ok result' /\
    Paths result' /\ n <= Z.of_nat (length (placed result')).
Proof.
  induction fuel as [|fuel IH]; intros result Hinv; cbn [Perm.apply_loop];
    rewrite (cp_sum _ Hinv);
    (destruct (Z.ltb_spec (Z.of_nat (length (placed result))) n) as [Hlt|Hge];
     [|right; exists result; auto]).
  - now left.
  - destruct (py_min_nonempty _ (paths_unplaced_exists result Hlt Hinv)) as (e & Emin).
    rewrite Emin. cbn [bind]. apply py_min_spec in Emin as (Hein & _).
    apply filter_In in Hein as (Hrange & Hun). apply range_In in Hrange.
    apply paths_unplaced in Hun; [|assumption].
    destruct (orbit_cases e ltac:(lia) inner 0%nat) as [E|(k & Hek & E)]; [intros; lia| |];
      change (trace f e 1) with [e] in E; rewrite E; cbn [bind]; [now left|].
    apply IH. now apply paths_snoc.
Qed.

Lemma apply_cases fuel :
  Perm.apply fuel n cycles = Timeout \/
  exists result, Perm.apply fuel n cycles = Ok (Perm.render result) /\
    Paths result /\ n <= Z.of_nat (length (placed result)).
Proof.
  unfold Perm.apply.
  destruct (apply_loop_cases fuel fuel [] paths_nil) as [E|(result & E & H)]; rewrite E.
  - now left.
  - right. now exists result.
Qed.

Hypothesis Hrange : forall x, 1 <= x <= n -> 1 <= f x <= n.

Lemma paths_range result x : Paths result -> In x (placed result) -> 1 <= x <= n.
Proof.
  intros Hinv Hx. destruct (paths_point result x Hinv Hx) as (e & k & j & Hek & _ & -> & _).
  destruct Hek as (He & _). clear - He Hrange. induction j as [|j IH]; [assumption|].
  now apply Hrange.
Qed.

(** When the loop ends, every point of the ground set is placed. *)
Lemma paths_full result x : Paths result -> n <= Z.of_nat (length (placed result)) ->
  1 <= x <= n -> In x (placed result).
Proof.
  intros Hinv Hn Hx.
  apply (@NoDup_length_incl Z (placed result) (range 1 (n + 1)) (cp_once _ Hinv)).
  - rewrite range_length. lia.
  - intros y Hy. apply range_In. apply paths_range in Hy; [lia|assumption].
  - apply range_In. lia.
Qed.

(** Two points that come back to themselves and have the same image are
    one point. *)
Lemma periodic_injective x y p q : (1 <= p)%nat -> (1 <= q)%nat ->
  iter p x = x -> iter q y = y -> f x = f y -> x = y.
Proof.
  intros Hp Hq Ex Ey E.
  rewrite <- (iter_multiple f p x Ex q), <- (iter_multiple f q y Ey p).
  replace (q * p)%nat with (S (q * p - 1)) by nia.
  replace (p * q)%nat with (S (q * p - 1)) by nia.
  rewrite !Nat.iter_succ_r. now rewrite E.
Qed.

(** If [apply] returns, the mapping is a permutation of the ground set. *)
Lemma apply_returns_permutes fuel s : Perm.apply fuel n cycles = Ok s -> permutes f n.
Proof.
  intros E. destruct (apply_cases fuel) as [T|(result & _ & Hinv & Hn)]; [congruence|].
  split; [exact Hrange|]. intros x y Hx Hy Exy.
  destruct (paths_periodic result x Hinv (paths_full result x Hinv Hn Hx)) as (p & Hp & Ex).
  destruct (paths_periodic result y Hinv (paths_full result y Hinv Hn Hy)) as (q & Hq & Ey).
  now apply (periodic_injective x y p q).
Qed.

End Any_cycles.

(** *** When the constructor returns, raises or runs for ever *)

Lemma apply_never_raises cs fuel n e : Perm.apply fuel n (map double cs) <> Raise e.
Proof.
  destruct (apply_cases (map double cs) n (via cs) (image_double cs) fuel)
    as [E|(result & E & _)]; rewrite E; discriminate.
Qed.

Lemma split_nonempty s : split s <> [].
Proof.
  assert (Hc : forall c l, cons_piece c l <> []) by (intros c [|? ?]; discriminate).
  destruct s as [|c [|c' rest]]; cbn [split]; try discriminate.
  destruct ((c =? ")")%char && (c' =? "(")%char); [discriminate|apply Hc].
Qed.

Lemma mapM_length {A B : Type} (g : A -> res B) : forall l d,
  mapM g l = Ok d -> length d = length l.
Proof.
  induction l as [|a l IH]; intros d; cbn [mapM].
  - now intros [= <-].
  - destruct (g a); cbn [bind]; try discriminate.
    destruct (mapM g l); cbn [bind]; try discriminate.
    intros [= <-]. cbn. f_equal. now apply IH.
Qed.

Lemma mapM_In {A B : Type} (g : A -> res B) : forall l d,
  mapM g l = Ok d ->
  (forall a, In a l -> exists b, In b d /\ g a = Ok b) /\
  (forall b, In b d -> exists a, In a l /\ g a = Ok b).
Proof.
  induction l as [|a l IH]; intros d; cbn [mapM].
  - intros [= <-]. split; intros ? [].
  - destruct (g a) as [b| |] eqn:Ea; cbn [bind]; try discriminate.
    destruct (mapM g l) as [bs| |]; cbn [bind]; try discriminate.
    intros [= <-]. destruct (IH bs eq_refl) as [H1 H2]. split.
    + intros a' [<-|Ha']; [exists b; split; [now left|assumption]|].
      destruct (H1 a' Ha') as (b' & Hb' & E). exists b'. split; [now right|assumption].
    + intros b' [<-|Hb']; [exists a; split; [now left|assumption]|].
      destruct (H2 b' Hb') as (a' & Ha' & E). exists a'. split; [now right|assumption].
Qed.

Lemma parse_empty_piece t d : Perm.parse t = Ok d ->
  (In [] d <-> In [] (split (strip t))).
Proof.
  unfold Perm.parse. intros P. destruct (mapM_In _ _ _ P) as [H1 H2]. split.
  - intros Hd. destruct (H2 [] Hd) as (i & Hi & E).
    apply mapM_length in E. destruct i; [assumption|discriminate].
  - intros Hi. destruct (H1 [] Hi) as (c & Hc & E). cbn in E. injection E as <-. assumption.
Qed.

Lemma ground_raises d e : Perm.ground None d = Raise e -> d = [] \/ In [] d.
Proof.
  unfold Perm.ground. destruct (mapM py_max d) as [ms| |] eqn:E; cbn [bind]; try discriminate.
  - intros H. left. apply mapM_length in E. unfold py_max in H.
    destruct ms; [|discriminate]. destruct d; [reflexivity|discriminate].
  - intros _. right. clear e. revert e0 E. induction d as [|c d IH]; intros e E; [discriminate|].
    cbn [mapM] in E. destruct c as [|x c]; [now left|]. cbn [py_max bind] in E.
    destruct (mapM py_max d) as [ms| |] eqn:E'; cbn [bind] in E; try discriminate.
    right. now apply (IH e0).
Qed.

(** X17: the only exceptions of the constructor.  It raises the
    [ValueError] of [int] exactly when a cycle holds a character that is
    no digit, and the [ValueError] of [max] exactly when no ground size is
    given, all characters are digits and a cycle is empty; it raises nothing
    else, whatever the text, the ground size and the running time. *)
Theorem construct_raises_exactly (fuel : nat) (t : list ascii) (m : option Z) (e : exn) :
  construct fuel t m = Raise e <->
  (e = ValueError invalid_literal /\
   exists c, In c (concat (split (strip t))) /\ is_digit c = false) \/
  (e = ValueError empty_sequence /\ m = None /\ In [] (split (strip t)) /\
   forall c, In c (concat (split (strip t))) -> is_digit c = true).
Proof.
  split.
  - intros H. destruct (parse_cases t) as [[D (cs & P)]|[D P]].
    + right. rewrite forallb_forall in D. unfold construct, Perm.__init__ in H.
      rewrite P in H. cbn [bind] in H.
      destruct (Perm.ground m (map double cs)) as [n| |] eqn:G; cbn [bind] in H;
        try discriminate.
      * exfalso. destruct (Perm.apply fuel n (map double cs)) as [s| |] eqn:A;
          cbn [bind] in H; try discriminate. injection H as ->.
        now apply apply_never_raises in A.
      * injection H as ->. destruct m as [k|]; [discriminate|].
        split; [f_equal; now apply (ground_raise None (map double cs))|].
        split; [reflexivity|]. split; [|assumption].
        apply (parse_empty_piece t _ P). apply ground_raises in G as [G|G]; [|assumption].
        exfalso. apply (f_equal (@length _)) in G. unfold Perm.parse in P.
        apply mapM_length in P. rewrite P in G.
        apply length_zero_iff_nil in G. now apply split_nonempty in G.
    + left. unfold construct, Perm.__init__ in H. rewrite P in H. injection H as <-.
      split; [reflexivity|]. now apply forallb_false.
  - intros [[-> H]|(-> & -> & Hin & D)].
    + now apply construct_parse_error.
    + destruct (parse_cases t) as [[_ (cs & P)]|[D' _]].
      * apply (construct_empty_cycle fuel t _ P). now apply (parse_empty_piece t _ P).
      * apply forallb_false in D' as (c & Hc & Dc). rewrite (D c Hc) in Dc. discriminate.
Qed.

Lemma via_range cs n : (forall x, In x (concat cs) -> 1 <= x <= n) ->
  forall x, 1 <= x <= n -> 1 <= via cs x <= n.
Proof.
  induction cs as [|c cs IH]; intros Hcs x Hx; [assumption|].
  rewrite via_cons. apply IH.
  - intros y Hy. apply Hcs. cbn [concat]. apply in_app_iff. now right.
  - destruct (in_dec Z.eq_dec x c) as [Hin|Hout].
    + apply Hcs. cbn [concat]. apply in_app_iff. left. now apply next_In.
    + now rewrite next_out.
Qed.

(** X18: for a text of digits whose points all lie in the ground set, the
    constructor returns exactly when the cycles, applied one after the other,
    make a permutation of the ground set; when they do not, as when a point
    stands twice in a cycle, it runs for ever. *)
Theorem construct_returns_iff_permutation (t : list ascii) (m : option Z)
    (cs : list (list Z)) (n : Z) :
  Perm.parse t = Ok (map double cs) -> Perm.ground m (map double cs) = Ok n ->
  (forall x, In x (concat cs) -> 1 <= x <= n) ->
  ((exists p, returns (fun fuel => construct fuel t m) p) <-> permutes (via cs) n) /\
  (~ permutes (via cs) n -> diverges (fun fuel => construct fuel t m)).
Proof.
  intros P G Hcs.
  assert (Hback : forall fuel p, construct fuel t m = Ok p -> permutes (via cs) n).
  { intros fuel p E. unfold construct, Perm.__init__ in E. rewrite P in E. cbn [bind] in E.
    rewrite G in E. cbn [bind] in E.
    destruct (Perm.apply fuel n (map double cs)) as [s| |] eqn:A; try discriminate.
    apply (apply_returns_permutes (map double cs) n (via cs) (image_double cs)
             (via_range cs n Hcs) fuel s A). }
  split; [split|].
  - intros (p & fuel & H). apply (Hback fuel p). apply H. lia.
  - intros Hperm.
    destruct (apply_canonical (map double cs) n (via cs)) with (fuel := Z.to_nat n)
      as (cs' & A & _); [intros x _; apply image_double|assumption|lia|].
    exists {| Perm.description := map double cs; Perm.max := n; Perm.string := text_of cs' |}.
    apply (mono_returns _ (Z.to_nat n)); [apply init_mono|].
    unfold construct, Perm.__init__. rewrite P. cbn [bind]. rewrite G. cbn [bind].
    now rewrite A.
  - intros Hnot fuel. destruct (construct fuel t m) as [p|e|] eqn:E; [| |reflexivity]; exfalso.
    + apply Hnot. now apply (Hback fuel p).
    + unfold construct, Perm.__init__ in E. rewrite P in E. cbn [bind] in E.
      rewrite G in E. cbn [bind] in E.
      destruct (Perm.apply fuel n (map double cs)) as [s| |] eqn:A; try discriminate.
      injection E as ->. now apply apply_never_raises in A.
Qed.

Lemma construct_returns_iff_permutation_witness :
  diverges (fun fuel => construct fuel (py "(122)") None).
Proof.
  apply (construct_returns_iff_permutation (py "(122)") None [[1; 2; 2]] 2).
  - reflexivity.
  - reflexivity.
  - cbn. intros x [<-|[<-|[<-|[]]]]; lia.
  - intros [_ Hinj]. specialize (Hinj 1 2). cbn in Hinj. lia.
Defined.

(** *** A ground size of zero or less *)

Lemma apply_no_ground fuel maximum cycles : maximum <= 0 ->
  Perm.apply fuel maximum cycles = Ok (py "()").
Proof.
  intros H. unfold Perm.apply.
  assert (E : Perm.apply_loop fuel fuel maximum cycles [] = Ok []).
  { destruct fuel; cbn [Perm.apply_loop map]; change (sum []) with 0;
      apply Z.ltb_ge in H; now rewrite H. }
  rewrite E. reflexivity.
Qed.

(** X21: a ground size of zero or less is taken as it is: whatever digits
    the text holds, the permutation has the full and the reduced text [()],
    the hash 0 and the sign -1, and multiplying it with itself raises the
    [ValueError] of [max]. *)
Theorem construct_no_ground (fuel : nat) (t : list ascii) (m : Z) :
  m <= 0 -> (forall c, In c (concat (split (strip t))) -> is_digit c = true) ->
  exists p, construct fuel t (Some m) = Ok p /\ Perm.max p = m /\
    fullText p = py "()" /\ reducedText p = py "()" /\
    Perm.__hash__ p = Ok 0 /\ sign p = -1 /\
    forall fuel', multiply fuel' p p = Raise (ValueError empty_sequence).
Proof.
  intros Hm Hd. destruct (parse_cases t) as [[_ (cs & P)]|[D _]].
  - exists {| Perm.description := map double cs; Perm.max := m; Perm.string := py "()" |}.
    split.
    { unfold construct, Perm.__init__. rewrite P. cbn [bind Perm.ground].
      now rewrite apply_no_ground. }
    repeat (split; [reflexivity|]).
    intros fuel'. unfold multiply, Perm.__mul__. cbn [Perm.max Perm.description].
    rewrite apply_no_ground by lia. reflexivity.
  - exfalso. apply forallb_false in D as (c & Hc & Dc). rewrite (Hd c Hc) in Dc. discriminate.
Qed.

Lemma construct_no_ground_witness :
  exists p, construct 0 (py "(12)") (Some 0) = Ok p /\ Perm.max p = 0 /\
    fullText p = py "()" /\ reducedText p = py "()" /\
    Perm.__hash__ p = Ok 0 /\ sign p = -1 /\
    forall fuel', multiply fuel' p p = Raise (ValueError empty_sequence).
Proof.
  apply (construct_no_ground 0 (py "(12)") 0); [lia|].
  intros c H. cbn in H. repeat (destruct H as [<-|H]; [reflexivity|]). destruct H.
Defined.

(** *** [generate_group] finds everything, once *)

Lemma generated_WF elements y : Forall WF elements -> generated elements y -> WF y.
Proof.
  intros Hel. induction 1 as [x Hx|a b p _ Wa _ Wb Hp].
  - rewrite Forall_forall in Hel. now apply Hel.
  - destruct (product_spec a b Wa Wb) as (Wp & _ & _ & Rp).
    now rewrite (returns_fun _ p (product a b) Hp (ex_intro _ 9%nat Rp)).
Qed.

Lemma product_code a a' b b' : WF a -> WF a' -> WF b -> WF b' ->
  code a = code a' -> code b = code b' -> product a b = product a' b'.
Proof.
  intros Wa Wa' Wb Wb' Ea Eb.
  destruct (proj1 (proj2 (WF_same a a' Wa Wa')) Ea) as [Ma Aa].
  destruct (proj1 (proj2 (WF_same b b' Wb Wb')) Eb) as [Mb Ab].
  apply product_eq; try assumption; [lia|]. intros x. now rewrite Ab, Aa.
Qed.

(** A closed list that holds the generators holds (the code of) all they
    generate. *)
Lemma closed_generated g elements : Forall WF g -> closed g -> incl elements g ->
  forall y, generated elements y -> In (code y) (map code g).
Proof.
  intros Hg Hclosed Hincl. rewrite Forall_forall in Hg.
  assert (Hel : Forall WF elements) by (apply Forall_forall; auto).
  induction 1 as [x Hx|a b p Ga IHa Gb IHb Hp]; [apply in_map; auto|].
  apply code_member in IHa as (ca & Hca & Ea). apply code_member in IHb as (cb & Hcb & Eb).
  pose proof (generated_WF _ _ Hel Ga) as Wa. pose proof (generated_WF _ _ Hel Gb) as Wb.
  destruct (product_spec a b Wa Wb) as (_ & _ & _ & Rp).
  rewrite (returns_fun _ p (product a b) Hp (ex_intro _ 9%nat Rp)).
  rewrite <- (product_code ca a cb b); auto.
Qed.

Lemma products_known inner group : (9 <= inner)%nat -> Forall WF group -> closed group ->
  forall pairs, (forall st, In st pairs -> In (fst st) group /\ In (snd st) group) ->
    products inner group pairs [] = Ok [].
Proof.
  intros Hinner Hg Hclosed. induction pairs as [|[sigma tau] rest IH]; intros Hpairs;
    [reflexivity|]. cbn [products].
  destruct (Hpairs (sigma, tau) (or_introl eq_refl)) as [Hs Ht]. cbn [fst snd] in Hs, Ht.
  pose proof (proj1 (Forall_forall _ _) Hg) as Hwf.
  destruct (product_spec sigma tau (Hwf _ Hs) (Hwf _ Ht)) as (Wp & _ & _ & Rp).
  rewrite Rp by assumption. cbn [bind]. rewrite contains_WF by assumption. cbn [bind].
  rewrite existsb_code. rewrite (proj2 (mem_In _ _) (Hclosed _ _ Hs Ht)).
  apply IH. intros st Hst. apply Hpairs. now right.
Qed.

Lemma sorted_fixed l : Forall WF l ->
  StronglySorted (fun a b => code b <= code a) l -> sorted l = Ok l.
Proof.
  induction 1 as [|x l Hx Hl IH]; intros Hs; [reflexivity|].
  inversion Hs as [|? ? Hs' Hall]; subst. cbn [sorted]. rewrite IH by assumption.
  cbn [bind]. destruct l as [|y l]; [reflexivity|]. cbn [insert].
  inversion Hl as [|? ? Hy _]; subst. rewrite WF_lt by assumption. cbn [bind].
  inversion Hall as [|? ? Hxy _]; subst. apply Z.ltb_ge in Hxy. now rewrite Hxy.
Qed.

(** X22: [generate_group] leaves nothing out: every permutation that the
    well-formed generators generate by multiplication is [==] to an entry of
    the list it returns. *)
Theorem generate_group_complete (elements : list Perm.t) :
  forallb well_formed elements = true ->
  exists group, returns (fun fuel => generateGroup fuel elements) group /\
    forall y, generated elements y -> exists c, In c group /\ equals c y = Ok true.
Proof.
  intros Hel. apply forallb_WF in Hel.
  destruct (generate_group_spec elements Hel)
    as (more & group & Hret & Hperm & Hgen & _ & _ & Hclosed & _).
  assert (Hwf : Forall WF group).
  { eapply Forall_impl; [|exact Hgen]. intros y Hy. apply Hy. }
  exists group. split; [assumption|]. intros y Hy.
  assert (Hincl : incl elements group).
  { intros x Hx. apply (Permutation_in _ Hperm). apply in_app_iff. now left. }
  pose proof (closed_generated group elements Hwf Hclosed Hincl y Hy) as Hc.
  apply code_member in Hc as (c & Hc & Ec). exists c. split; [assumption|].
  unfold equals. rewrite Forall_forall in Hwf.
  rewrite WF_eq by (auto || now apply (generated_WF elements)).
  f_equal. now apply Z.eqb_eq.
Qed.

Lemma generate_group_complete_witness :
  exists group, returns (fun fuel => generateGroup fuel
      [{| Perm.description := [[1; 2; 1; 2]]; Perm.max := 3; Perm.string := py "(12)(3)" |};
       {| Perm.description := [[2; 3; 2; 3]]; Perm.max := 3; Perm.string := py "(1)(23)" |}])
      group /\
    forall y, generated
        [{| Perm.description := [[1; 2; 1; 2]]; Perm.max := 3;
            Perm.string := py "(12)(3)" |};
         {| Perm.description := [[2; 3; 2; 3]]; Perm.max := 3;
            Perm.string := py "(1)(23)" |}] y ->
      exists c, In c group /\ equals c y = Ok true.
Proof.
  apply (generate_group_complete
    [{| Perm.description := [[1; 2; 1; 2]]; Perm.max := 3; Perm.string := py "(12)(3)" |};
     {| Perm.description := [[2; 3; 2; 3]]; Perm.max := 3; Perm.string := py "(1)(23)" |}]).
  vm_compute. reflexivity.
Defined.

(** X23: [generate_group] applied to the list it returned for well-formed
    generators returns the same list again. *)
Theorem generate_group_idempotent (elements : list Perm.t) :
  forallb well_formed elements = true ->
  exists group, returns (fun fuel => generateGroup fuel elements) group /\
    returns (fun fuel => generateGroup fuel group) group.
Proof.
  intros Hel. apply forallb_WF in Hel.
  destruct (generate_group_spec elements Hel)
    as (more & group & Hret & _ & Hgen & _ & _ & Hclosed & Hsorted).
  assert (Hwf : Forall WF group).
  { eapply Forall_impl; [|exact Hgen]. intros y Hy. apply Hy. }
  exists group. split; [assumption|].
  exists 9%nat. intros fuel Hf. unfold generateGroup, generate_group.
  assert (E : closure fuel fuel group 0 = Ok group).
  { destruct fuel as [|fuel]; [lia|]. cbn [closure].
    destruct group as [|x group]; [reflexivity|]. cbn [length Nat.eqb].
    rewrite products_known; try assumption; try lia.
    - cbn [bind]. rewrite app_nil_r.
      destruct fuel; cbn [closure]; now rewrite Nat.eqb_refl.
    - intros [a b] Hab. now apply in_prod_iff in Hab. }
  rewrite E. cbn [bind]. now apply sorted_fixed.
Qed.

Lemma generate_group_idempotent_witness :
  exists group, returns (fun fuel => generateGroup fuel
      [{| Perm.description := [[1; 2; 1; 2]]; Perm.max := 3; Perm.string := py "(12)(3)" |};
       {| Perm.description := [[2; 3; 2; 3]]; Perm.max := 3; Perm.string := py "(1)(23)" |}])
      group /\
    returns (fun fuel => generateGroup fuel group) group.
Proof.
  apply (generate_group_idempotent
    [{| Perm.description := [[1; 2; 1; 2]]; Perm.max := 3; Perm.string := py "(12)(3)" |};
     {| Perm.description := [[2; 3; 2; 3]]; Perm.max := 3; Perm.string := py "(1)(23)" |}]).
  vm_compute. reflexivity.
Defined.

(** *** The sign is a homomorphism *)

(** One head for each orbit: the heads of the canonical cycles, and the
    points above the ground size, which stay where they are. *)
Lemma sorted_NoDup (l : list Z) : StronglySorted Z.lt l -> NoDup l.
Proof.
  induction 1 as [|x l _ IH Hx]; constructor; [|assumption].
  intros Hin. rewrite Forall_forall in Hx. specialize (Hx x Hin). lia.
Qed.

Lemma iter_permutes f n k x : permutes f n -> 1 <= x <= n -> 1 <= Nat.iter k f x <= n.
Proof.
  intros Hf Hx. induction k as [|k IH]; [assumption|]. now apply (proj1 Hf).
Qed.

Lemma head_iterates f n cs c i : permutes f n -> canonical f n cs -> In c cs ->
  In (Nat.iter i f (hd 0 c)) c.
Proof.
  intros Hf Hcan Hc.
  pose proof (can_cycle _ _ _ Hcan) as Hcyc. rewrite Forall_forall in Hcyc.
  specialize (Hcyc c Hc).
  pose proof (can_least _ _ _ Hcan) as Hl. rewrite Forall_forall in Hl.
  destruct (Hl c Hc) as [Hne _].
  assert (Hlen : (0 < length c)%nat) by (destruct c; [congruence|cbn; lia]).
  pose proof (cycle_closes f c Hcyc Hne) as Hclose.
  rewrite (Nat.div_mod_eq i (length c)), Nat.add_comm, Nat.iter_add.
  rewrite (Nat.mul_comm (length c)), iter_multiple by assumption.
  rewrite <- (cycle_entries f c Hcyc) by (apply Nat.mod_upper_bound; lia).
  apply nth_In. apply Nat.mod_upper_bound. lia.
Qed.

Lemma heads_padded f n m cs : 1 <= n <= m -> permutes f n ->
  (forall x, n < x <= m -> f x = x) -> canonical f n cs ->
  orbit_heads f m (map (hd 0) cs ++ range (n + 1) (m + 1)) /\
  Z.of_nat (length (map (hd 0) cs ++ range (n + 1) (m + 1)))
  = Z.of_nat (length cs) + (m - n).
Proof.
  intros Hnm Hf Hfix Hcan.
  pose proof (can_least _ _ _ Hcan) as Hl. rewrite Forall_forall in Hl.
  pose proof (can_cycle _ _ _ Hcan) as Hcyc. rewrite Forall_forall in Hcyc.
  assert (Hhead : forall h, In h (map (hd 0) cs) ->
            exists c, In c cs /\ h = hd 0 c /\ In h c /\ 1 <= h <= n).
  { intros h Hh. apply in_map_iff in Hh as (c & <- & Hc). exists c.
    destruct (Hl c Hc) as [Hne _].
    assert (Hin : In (hd 0 c) c) by (destruct c; [congruence|now left]).
    repeat split; try assumption; apply (can_cover _ _ _ Hcan); apply in_concat; now exists c. }
  assert (Hstay : forall h i, n < h <= m -> Nat.iter i f h = h).
  { intros h i Hh. apply iter_fixed. now apply Hfix. }
  split; [split; [|split; [|split]]|].
  - apply NoDup_app; [apply sorted_NoDup, Hcan|apply range_NoDup|].
    intros h Hh Hr. apply Hhead in Hh as (_ & _ & _ & _ & Hh). apply range_In in Hr. lia.
  - intros h Hh. apply in_app_iff in Hh as [Hh|Hh].
    + apply Hhead in Hh as (_ & _ & _ & _ & Hh). lia.
    + apply range_In in Hh. lia.
  - intros x Hx. destruct (Z_le_dec x n) as [Hle|Hgt].
    + assert (Hin : In x (concat cs)) by (apply (can_cover _ _ _ Hcan); lia).
      apply in_concat in Hin as (c & Hc & Hxc).
      destruct (In_nth c x 0 Hxc) as (i & Hi & Ei).
      exists (hd 0 c), i. split; [apply in_app_iff; left; now apply in_map|].
      rewrite <- Ei. now apply (cycle_entries f c (Hcyc c Hc)).
    + exists x, 0%nat. split; [|reflexivity]. apply in_app_iff. right. apply range_In. lia.
  - intros h h' i Hh Hh' E. apply in_app_iff in Hh as [Hh|Hh].
    + apply Hhead in Hh as (c & Hc & -> & Hin & Hr).
      pose proof (head_iterates f n cs c i Hf Hcan Hc) as Hit. rewrite E in Hit.
      apply in_app_iff in Hh' as [Hh'|Hh'].
      * apply Hhead in Hh' as (c' & Hc' & -> & Hin' & _).
        now rewrite (same_cycle cs c c' (hd 0 c') (can_once _ _ _ Hcan) Hc Hc' Hit Hin').
      * apply range_In in Hh'. pose proof (iter_permutes f n i _ Hf Hr). lia.
    + apply range_In in Hh. rewrite Hstay in E by lia. now symmetry.
  - rewrite length_app, length_map, range_length. lia.
Qed.

(** The points of the ground set {1..N+1} as the ordinals below N+1, and a
    permutation of them as an element of the symmetric group, whose parity
    is that of the number of its orbits and is a homomorphism. *)
Section Parity.

Import ssreflect ssrfun ssrbool eqtype ssrnat seq choice fintype finset fingroup perm.

Variable N : nat.

Local Abbreviation pt i := (Z.of_nat (nat_of_ord i) + 1)%Z.
Local Abbreviation ord x := (inord (Z.to_nat (x - 1)%Z) : 'I_N.+1).
Local Abbreviation top := (Z.of_nat (S N)).

Lemma pt_range (i : 'I_N.+1) : (1 <= pt i <= top)%Z.
Proof. have /ltP H := ltn_ord i. lia. Qed.

Lemma pt_ord (x : Z) : (1 <= x <= top)%Z -> pt (ord x) = x.
Proof.
  move=> Hx. rewrite inordK; try lia. apply/ltP. lia.
Qed.

Lemma ord_pt (i : 'I_N.+1) : ord (pt i) = i.
Proof.
  have -> : Z.to_nat (pt i - 1)%Z = i by lia.
  exact: inord_val.
Qed.

Lemma pt_inj (i j : 'I_N.+1) : pt i = pt j -> i = j.
Proof. move=> H. apply: ord_inj. lia. Qed.

Lemma odd_nat (k : nat) : odd k = Nat.odd k.
Proof.
  elim: k => [|k IH] //.
  by rewrite Nat.odd_succ -Nat.negb_odd -IH.
Qed.

Lemma size_length (A : Type) (l : list A) : size l = length l.
Proof. by elim: l => [|a l IH] //=; rewrite IH. Qed.

Lemma in_map_ord (hs : list Z) (y : 'I_N.+1) :
  y \in [seq ord h | h <- hs] -> exists h, List.In h hs /\ y = ord h.
Proof.
  elim: hs => [|h hs IH] //=.
  rewrite in_cons. case/orP => [/eqP ->|/IH [h' [Hh' ->]]].
  - exists h. by split; [left|].
  - exists h'. by split; [right|].
Qed.

Lemma map_ord_in (hs : list Z) (h : Z) :
  List.In h hs -> ord h \in [seq ord h | h <- hs].
Proof.
  elim: hs => [|h' hs IH] //=.
  case=> [->|/IH H]; rewrite in_cons; [by rewrite eqxx|by rewrite H orbT].
Qed.

Section One_mapping.

Variable f : Z -> Z.
Hypothesis Hf : permutes f top.

Local Abbreviation F i := (ord (f (pt i))).

Lemma pt_F (i : 'I_N.+1) : pt (F i) = f (pt i).
Proof. apply: pt_ord. apply: (proj1 Hf). exact: pt_range. Qed.

Lemma F_inj : injective (fun i : 'I_N.+1 => F i).
Proof.
  move=> i j E. apply: pt_inj.
  apply: (proj2 Hf); [exact: pt_range|exact: pt_range|].
  have := f_equal (fun k : 'I_N.+1 => pt k) E. by rewrite !pt_F.
Qed.

Variable s : {perm 'I_N.+1}.
Hypothesis Hs : forall i, s i = F i.

Lemma pt_iter (k : nat) (i : 'I_N.+1) : pt ((s ^+ k)%g i) = Nat.iter k f (pt i).
Proof.
  elim: k => [|k IH]; first by rewrite expg0 perm1.
  by rewrite expgSr permM Hs pt_F IH.
Qed.

Variable hs : list Z.
Hypothesis Hhs : orbit_heads f top hs.

Lemma heads_uniq : uniq [seq ord h | h <- hs].
Proof.
  case: Hhs => Hnd [Hrange _].
  elim: Hnd Hrange => [|h l Hnot Hnd IH] Hrange //=.
  apply/andP; split.
  - apply/negP => /in_map_ord [h' [Hh' E]]. apply: Hnot.
    have R' : (1 <= h' <= top)%Z by [apply: Hrange; right].
    have R : (1 <= h <= top)%Z by [apply: Hrange; left].
    have <- : h' = h by rewrite -(pt_ord h' R') -(pt_ord h R) E.
    exact: Hh'.
  - apply: IH => h' Hh'. apply: Hrange. by right.
Qed.

Lemma porbits_heads : porbits s = [set porbit s h | h in [seq ord h | h <- hs]].
Proof.
  case: Hhs => _ [Hrange [Hall _]].
  apply/setP => X. apply/imsetP/imsetP.
  - case=> x _ ->. have [h [i [Hh Hx]]] := Hall (pt x) (pt_range x).
    exists (ord h); first exact: map_ord_in.
    apply/eqP. rewrite eq_porbit_mem.
    have -> : x = (s ^+ i)%g (ord h); last exact: mem_porbit.
    apply: pt_inj. rewrite pt_iter Hx. congr (Nat.iter i f _).
    symmetry. apply: pt_ord. exact: Hrange.
  - case=> h _ ->. by exists h.
Qed.

Lemma card_porbits : #|porbits s| = length hs.
Proof.
  rewrite porbits_heads card_in_imset.
  - case: Hhs => _ [Hrange [_ Hone]].
    move=> a b /in_map_ord [h [Hh ->]] /in_map_ord [h' [Hh' ->]] E.
    have : ord h' \in porbit s (ord h) by rewrite E porbit_id.
    case/porbitP => i Hi.
    have R : (1 <= h <= top)%Z by exact: Hrange.
    have R' : (1 <= h' <= top)%Z by exact: Hrange.
    have Ei : Nat.iter i f h = h' by rewrite -(pt_ord h' R') Hi pt_iter pt_ord.
    by rewrite (Hone h h' i Hh Hh' Ei).
  - by rewrite (card_uniqP heads_uniq) size_map size_length.
Qed.

Lemma odd_perm_heads : odd_perm s = Nat.odd (S N) (+) Nat.odd (length hs).
Proof. by rewrite /odd_perm card_ord card_porbits !odd_nat. Qed.

End One_mapping.

Lemma heads_parity (f g : Z -> Z) (hf hg hh : list Z) :
  permutes f top -> permutes g top ->
  orbit_heads f top hf -> orbit_heads g top hg ->
  orbit_heads (fun x => f (g x)) top hh ->
  Nat.odd (length hh)
  = xorb (Nat.odd (S N)) (xorb (Nat.odd (length hf)) (Nat.odd (length hg))).
Proof.
  move=> Hf Hg Hhf Hhg Hhh.
  have Hfg : permutes (fun x => f (g x)) top by exact: permutes_compose.
  pose sf := perm (F_inj f Hf). pose sg := perm (F_inj g Hg).
  pose sh := perm (F_inj _ Hfg).
  have Esh : sh = (sg * sf)%g.
  { apply/permP => i. rewrite permM !permE. congr (inord (Z.to_nat (f _ - 1))).
    symmetry. apply: pt_ord. apply: (proj1 Hg). exact: pt_range. }
  have := odd_permM sg sf. rewrite -Esh.
  rewrite (odd_perm_heads f Hf sf (permE _) hf Hhf).
  rewrite (odd_perm_heads g Hg sg (permE _) hg Hhg).
  rewrite (odd_perm_heads _ Hfg sh (permE _) hh Hhh).
  by case: (Nat.odd (S N)); case: (Nat.odd (length hh));
     case: (Nat.odd (length hf)); case: (Nat.odd (length hg)).
Qed.

End Parity.

Lemma odd_of_nat (k : nat) : Z.odd (Z.of_nat k) = Nat.odd k.
Proof.
  induction k as [|k IH]; [reflexivity|].
  rewrite Nat2Z.inj_succ, <- Z.add_1_r, Z.odd_add, IH, Nat.odd_succ, <- Nat.negb_odd.
  now destruct (Nat.odd k).
Qed.

Lemma minus_one_odd (k : Z) : 0 <= k -> (-1) ^ k = if Z.odd k then -1 else 1.
Proof.
  intros Hk. pose proof (Zdiv2_odd_eqn k) as E.
  assert (Hq : 0 <= Z.div2 k) by now apply Z.div2_nonneg.
  destruct (Z.odd k).
  - replace k with (1 + 2 * Z.div2 k) at 1 by lia. now rewrite minus_one_even by lia.
  - replace k with (0 + 2 * Z.div2 k) at 1 by lia. now rewrite minus_one_even by lia.
Qed.

Lemma cycles_count f n cs : 1 <= n -> canonical f n cs ->
  0 <= n - Z.of_nat (length cs).
Proof.
  intros Hn Hcan. pose proof (canonical_points f n cs ltac:(lia) Hcan) as Hp.
  assert (Hnn : Forall (fun c => c <> []) cs).
  { pose proof (can_least _ _ _ Hcan) as Hl. eapply Forall_impl; [|exact Hl].
    intros c Hc. apply Hc. }
  pose proof (concat_nonempty_length cs Hnn). lia.
Qed.

(** The sign of a product, for well-formed factors. *)
Lemma sgn_product a b : WF a -> WF b -> sgn (product a b) = sgn a * sgn b.
Proof.
  intros Ha Hb. destruct (product_spec a b Ha Hb) as (Hp & Mp & Ap & _).
  destruct (sgn_cycles a Ha) as (ca & Hca & _ & ->).
  destruct (sgn_cycles b Hb) as (cb & Hcb & _ & ->).
  destruct (sgn_cycles (product a b) Hp) as (cp & Hcp & _ & ->).
  pose proof (wf_size a Ha) as Na. pose proof (wf_size b Hb) as Nb.
  pose proof (wf_size _ Hp) as Np.
  set (m := Perm.max (product a b)) in *.
  assert (Pa : permutes (action a) m) by (apply wf_permutes; [assumption|lia]).
  assert (Pb : permutes (action b) m) by (apply wf_permutes; [assumption|lia]).
  destruct (heads_padded (action a) (Perm.max a) m ca) as [Ha' La]; try assumption;
    [lia|apply wf_permutes; [assumption|lia]|intros x Hx; apply wf_fixes; [assumption|lia]|].
  destruct (heads_padded (action b) (Perm.max b) m cb) as [Hb' Lb]; try assumption;
    [lia|apply wf_permutes; [assumption|lia]|intros x Hx; apply wf_fixes; [assumption|lia]|].
  destruct (heads_padded (fun x => action a (action b x)) m m cp) as [Hp' Lp].
  { lia. }
  { now apply permutes_compose. }
  { intros x Hx. lia. }
  { apply (canonical_ext (action (product a b))); [|assumption]. intros x _. apply Ap. }
  assert (Ka : 0 <= Perm.max a - Z.of_nat (length ca))
    by (apply (cycles_count (action a)); [lia|assumption]).
  assert (Kb : 0 <= Perm.max b - Z.of_nat (length cb))
    by (apply (cycles_count (action b)); [lia|assumption]).
  assert (Kp : 0 <= m - Z.of_nat (length cp))
    by (apply (cycles_count (action (product a b))); [lia|assumption]).
  remember (map (hd 0) ca ++ range (Perm.max a + 1) (m + 1)) as ha eqn:Eha.
  remember (map (hd 0) cb ++ range (Perm.max b + 1) (m + 1)) as hb eqn:Ehb.
  remember (map (hd 0) cp ++ range (m + 1) (m + 1)) as hp eqn:Ehp.
  clear Eha Ehb Ehp.
  replace m with (Z.of_nat (S (Z.to_nat (m - 1)))) in Pa, Pb, Ha', Hb', Hp' by lia.
  pose proof (heads_parity (Z.to_nat (m - 1)) (action a) (action b) _ _ _
                Pa Pb Ha' Hb' Hp') as Hpar.
  rewrite <- !odd_of_nat in Hpar. rewrite La, Lb, Lp in Hpar.
  replace (Z.of_nat (S (Z.to_nat (m - 1)))) with m in Hpar by lia.
  rewrite !minus_one_odd by assumption.
  replace (Z.of_nat (length cp) + (m - m)) with (m - (m - Z.of_nat (length cp)))
    in Hpar by lia.
  replace (Z.of_nat (length ca) + (m - Perm.max a))
    with (m - (Perm.max a - Z.of_nat (length ca))) in Hpar by lia.
  replace (Z.of_nat (length cb) + (m - Perm.max b))
    with (m - (Perm.max b - Z.of_nat (length cb))) in Hpar by lia.
  rewrite !Z.odd_sub in Hpar. rewrite !Z.odd_sub.
  destruct (Z.odd m), (Z.odd (Perm.max a)), (Z.odd (Perm.max b)),
    (Z.odd (Z.of_nat (length ca))), (Z.odd (Z.of_nat (length cb))),
    (Z.odd (Z.of_nat (length cp))); cbn in Hpar |- *; congruence.
Qed.

(** X24: the sign is a homomorphism: the product of two well-formed
    permutations has the product of their signs for its sign. *)
Theorem sign_multiplicative (a b : Perm.t) :
  well_formed a = true -> well_formed b = true ->
  exists p, returns (fun fuel => multiply fuel a b) p /\ sign p = sign a * sign b.
Proof.
  intros Ha Hb. apply well_formed_WF in Ha, Hb.
  destruct (product_spec a b Ha Hb) as (_ & _ & _ & Rp).
  exists (product a b). split; [exists 9%nat; exact Rp|]. now apply sgn_product.
Qed.

Lemma sign_multiplicative_witness :
  exists p, returns (fun fuel => multiply fuel
      {| Perm.description := [[1; 3; 2; 4; 1; 3; 2; 4]]; Perm.max := 4;
         Perm.string := py "(1324)" |}
      {| Perm.description := [[2; 3; 2; 3]]; Perm.max := 3; Perm.string := py "(1)(23)" |}) p /\
    sign p = sign {| Perm.description := [[1; 3; 2; 4; 1; 3; 2; 4]]; Perm.max := 4;
                     Perm.string := py "(1324)" |}
           * sign {| Perm.description := [[2; 3; 2; 3]]; Perm.max := 3;
                     Perm.string := py "(1)(23)" |}.
Proof.
  apply (sign_multiplicative
    {| Perm.description := [[1; 3; 2; 4; 1; 3; 2; 4]]; Perm.max := 4;
       Perm.string := py "(1324)" |}
    {| Perm.description := [[2; 3; 2; 3]]; Perm.max := 3; Perm.string := py "(1)(23)" |});
    vm_compute; reflexivity.
Defined.

(** *** The sign of inverses and powers *)






(** *** The identity comes first *)

Lemma join_zeros_length (cs : list (list Z)) : cs <> [] ->
  (length (join [0%Z; 0%Z] cs) + 2 = length (concat cs) + 2 * length cs)%nat.
Proof.
  induction cs as [|c cs IH]; [congruence|]. intros _. destruct cs as [|c' cs].
  - change (join [0; 0] [c]) with c. change (concat [c]) with (c ++ []).
    rewrite app_nil_r. change (length [c]) with 1%nat. lia.
  - rewrite join_cons. change (concat (c :: c' :: cs)) with (c ++ concat (c' :: cs)).
    rewrite !length_app. specialize (IH ltac:(discriminate)).
    change (length (c :: c' :: cs)) with (S (length (c' :: cs))).
    change (length [0; 0]) with 2%nat. lia.
Qed.

Lemma zero_filled_length (cs : list (list Z)) : cs <> [] ->
  Z.of_nat (length (zero_filled_digits cs))
  = Z.of_nat (length (concat cs)) + 2 * Z.of_nat (length cs).
Proof.
  intros Hne. unfold zero_filled_digits. rewrite !length_app. cbn [length].
  pose proof (join_zeros_length cs Hne). lia.
Qed.

Lemma singles_length (cs : list (list Z)) :
  Forall (fun c => length c = 1%nat) cs -> length (concat cs) = length cs.
Proof.
  induction 1 as [|c cs Hc _ IH]; [reflexivity|]. cbn. rewrite length_app. lia.
Qed.

Lemma length_singles (cs : list (list Z)) : Forall (fun c => c <> []) cs ->
  length (concat cs) = length cs -> Forall (fun c => length c = 1%nat) cs.
Proof.
  induction 1 as [|c cs Hc Hcs IH]; intros E; [constructor|].
  cbn in E. rewrite length_app in E. pose proof (concat_nonempty_length cs Hcs).
  assert (1 <= length c)%nat by (destruct c; [congruence|cbn; lia]).
  constructor; [lia|apply IH; lia].
Qed.

(** The cycles of a mapping that moves nothing are single points, and the
    other way round. *)
Lemma fixed_singles f n cs : canonical f n cs -> (forall x, 1 <= x <= n -> f x = x) ->
  Forall (fun c => length c = 1%nat) cs.
Proof.
  intros Hcan Hid. apply Forall_forall. intros c Hc.
  pose proof (can_least _ _ _ Hcan) as Hl. rewrite Forall_forall in Hl.
  destruct (Hl c Hc) as [Hne _]. destruct c as [|a [|b c]]; [congruence|reflexivity|exfalso].
  pose proof (can_cycle _ _ _ Hcan) as Hcyc. rewrite Forall_forall in Hcyc.
  specialize (Hcyc _ Hc 0%nat). cbn [length nth] in Hcyc.
  assert (Ha : 1 <= a <= n).
  { apply (can_cover _ _ _ Hcan). apply in_concat. exists (a :: b :: c). split; [assumption|now left]. }
  rewrite Hid in Hcyc by assumption.
  assert (E1 : (1 mod S (S (length c)) = 1)%nat) by (apply Nat.mod_small; lia).
  rewrite E1 in Hcyc. cbn [nth] in Hcyc.
  assert (Hnd : NoDup (a :: b :: c)) by (apply (NoDup_concat_each cs); [apply Hcan|assumption]).
  inversion Hnd as [|? ? Hnot _]; subst. apply Hnot. left. symmetry. apply Hcyc. lia.
Qed.

Lemma singles_fixed f n cs : canonical f n cs ->
  Forall (fun c => length c = 1%nat) cs -> forall x, 1 <= x <= n -> f x = x.
Proof.
  intros Hcan Hone x Hx. apply (can_cover _ _ _ Hcan) in Hx.
  apply in_concat in Hx as (c & Hc & Hx). rewrite Forall_forall in Hone.
  specialize (Hone c Hc). destruct c as [|a [|b c]]; try discriminate.
  destruct Hx as [<-|[]].
  pose proof (can_cycle _ _ _ Hcan) as Hcyc. rewrite Forall_forall in Hcyc.
  apply (Hcyc [a] Hc 0%nat). cbn. lia.
Qed.

Lemma WF_code_digits p cs : WF p -> canonical (action p) (Perm.max p) cs ->
  Perm.string p = text_of cs ->
  code p = decimal (zero_filled_digits cs) /\
  Forall (Forall (fun x => 1 <= x <= 9)) cs.
Proof.
  intros Hp Hcan E. pose proof (wf_size p Hp) as Hn.
  assert (H19 : Forall (Forall (fun x => 1 <= x <= 9)) cs).
  { apply Forall_forall. intros c Hc. apply Forall_forall. intros x Hx.
    assert (1 <= x <= Perm.max p); [|lia]. apply (can_cover _ _ _ Hcan).
    apply in_concat. now exists c. }
  split; [|assumption]. unfold code, zero_filled_value. rewrite E, zero_filled_text; [reflexivity|].
  eapply Forall_impl; [|exact H19]. intros c Hc. eapply Forall_impl; [|exact Hc]. cbn. lia.
Qed.

(** No well-formed permutation has a larger hash than the identity of its
    ground size: the identity has the longest text. *)
Lemma code_le_one p : WF p -> code p <= code (one (Perm.max p)).
Proof.
  intros Hp. pose proof (wf_size p Hp) as Hn. set (n := Perm.max p) in *.
  pose proof (one_WF n Hn) as He. destruct (one_spec n Hn) as (_ & _ & Me & _).
  destruct (WF_cycles p Hp) as (cs & Hcan & E & Hne & Hnn & _).
  destruct (WF_cycles (one n) He) as (cs1 & Hcan1 & E1 & Hne1 & Hnn1 & _).
  rewrite Me in Hcan1.
  destruct (WF_code_digits p cs Hp Hcan E) as [Cp D].
  destruct (WF_code_digits (one n) cs1 He) as [C1 D1]; [now rewrite Me|assumption|].
  assert (Pp : Z.of_nat (length (concat cs)) = n)
    by (apply (canonical_points (action p)); [lia|assumption]).
  assert (P1 : Z.of_nat (length (concat cs1)) = n)
    by (apply (canonical_points (action (one n))); [lia|assumption]).
  assert (L1 : length (concat cs1) = length cs1).
  { apply singles_length. apply (fixed_singles _ n cs1 Hcan1).
    intros x _. now apply one_action. }
  pose proof (concat_nonempty_length cs Hnn) as Lp.
  destruct (Nat.eq_dec (length (concat cs)) (length cs)) as [Eq|Ne].
  - assert (S : Perm.string p = Perm.string (one n)); [|unfold code; rewrite S; lia].
    apply same_action_string; try assumption; [now rewrite Me|].
    intros y. rewrite one_action by assumption.
    destruct (Z_le_dec 1 y) as [H1|H1]; [destruct (Z_le_dec y n) as [H2|H2]|];
      [|apply wf_fixes; (assumption || lia)..].
    apply (singles_fixed _ n cs Hcan); [|lia]. now apply length_singles.
  - pose proof (zero_filled_size cs Hne Hnn D) as [_ B].
    pose proof (zero_filled_size cs1 Hne1 Hnn1 D1) as [B1 _].
    rewrite zero_filled_length in B, B1 by assumption.
    rewrite Cp, C1.
    assert (10 ^ (Z.of_nat (length (concat cs)) + 2 * Z.of_nat (length cs) - 1)
            <= 10 ^ (Z.of_nat (length (concat cs1)) + 2 * Z.of_nat (length cs1) - 2));
      [apply Z.pow_le_mono_r; lia|lia].
Qed.

Lemma str_one n : 1 <= n <= 9 -> Perm.__str__ (one n) = py "e".
Proof.
  intros Hn.
  assert (H : n = 1 \/ n = 2 \/ n = 3 \/ n = 4 \/ n = 5 \/ n = 6 \/ n = 7 \/ n = 8 \/ n = 9) by lia.
  repeat (destruct H as [H|H]); subst n; vm_compute; reflexivity.
Qed.

Lemma generated_size elements n : Forall WF elements ->
  (forall x, In x elements -> Perm.max x = n) ->
  forall y, generated elements y -> Perm.max y = n.
Proof.
  intros Hel Hn. induction 1 as [x Hx|a b p Ga IHa Gb IHb Hp]; [now apply Hn|].
  pose proof (generated_WF _ _ Hel Ga) as Wa. pose proof (generated_WF _ _ Hel Gb) as Wb.
  destruct (product_spec a b Wa Wb) as (_ & Mp & _ & Rp).
  rewrite (returns_fun _ p (product a b) Hp (ex_intro _ 9%nat Rp)). lia.
Qed.

(** X26: for well-formed generators of one ground size (one generator at
    least), the list of [generate_group] begins with the identity: its first
    entry is [==] to the identity of that ground size and has the reduced
    text [e]. *)
Theorem generate_group_identity_first (elements : list Perm.t) (n : Z) :
  elements <> [] -> forallb well_formed elements = true ->
  (forall x, In x elements -> Perm.max x = n) ->
  exists e rest i,
    returns (fun fuel => generateGroup fuel elements) (e :: rest) /\
    returns (fun fuel => identity fuel n) i /\
    equals e i = Ok true /\ reducedText e = py "e".
Proof.
  intros Hne Hel Hn. apply forallb_WF in Hel.
  destruct (generate_group_spec elements Hel)
    as (more & group & Hret & Hperm & Hgen & _ & _ & Hclosed & Hsorted).
  assert (Hwf : Forall WF group).
  { eapply Forall_impl; [|exact Hgen]. intros y Hy. apply Hy. }
  destruct elements as [|a elements]; [congruence|]. clear Hne.
  assert (Ha : In a group) by (apply (Permutation_in _ Hperm); now left).
  pose proof (proj1 (Forall_forall _ _) Hwf a Ha) as Wa.
  assert (Ma : Perm.max a = n) by (apply Hn; now left).
  pose proof (wf_size a Wa) as Hsize. rewrite Ma in Hsize.
  destruct (walk_result a Wa) as (j & Hstop & _ & _). rewrite Ma in Hstop.
  pose proof (closed_powers group a Hwf Hclosed Ha (S j)) as Hone. rewrite Hstop in Hone.
  destruct group as [|e rest]; [destruct Ha|].
  pose proof (Forall_inv Hwf) as We. destruct (Forall_inv Hgen) as [_ Ge].
  assert (Me : Perm.max e = n) by now apply (generated_size (a :: elements) n Hel Hn).
  pose proof (code_le_one e We) as Hle. rewrite Me in Hle.
  assert (Hge : code (one n) <= code e).
  { apply StronglySorted_inv in Hsorted as [_ Hall]. destruct Hone as [<-|Hone]; [lia|].
    apply code_member in Hone as (c & Hc & <-). rewrite Forall_forall in Hall. now apply Hall. }
  assert (Ec : code e = code (one n)) by lia.
  exists e, rest, (one n). split; [assumption|].
  split; [exists 9%nat; intros fuel Hf; now apply one_run|]. split.
  - unfold equals. rewrite WF_eq by (assumption || now apply one_WF).
    f_equal. now apply Z.eqb_eq.
  - unfold reducedText, Perm.__str__, Perm.__repr__.
    rewrite (proj1 (proj1 (WF_same e (one n) We (one_WF n Hsize))) Ec).
    now apply (str_one n).
Qed.

Lemma generate_group_identity_first_witness :
  exists e rest i,
    returns (fun fuel => generateGroup fuel
      [{| Perm.description := [[1; 2; 1; 2]]; Perm.max := 3; Perm.string := py "(12)(3)" |};
       {| Perm.description := [[2; 3; 2; 3]]; Perm.max := 3; Perm.string := py "(1)(23)" |}])
      (e :: rest) /\
    returns (fun fuel => identity fuel 3) i /\
    equals e i = Ok true /\ reducedText e = py "e".
Proof.
  apply (generate_group_identity_first
    [{| Perm.description := [[1; 2; 1; 2]]; Perm.max := 3; Perm.string := py "(12)(3)" |};
     {| Perm.description := [[2; 3; 2; 3]]; Perm.max := 3; Perm.string := py "(1)(23)" |}] 3).
  - discriminate.
  - vm_compute. reflexivity.
  - intros x [<-|[<-|[]]]; reflexivity.
Defined.
